(** * CascaDB block layout

    A shallow embedding of [src/serialize/layout.cpp] (class [Layout]): the
    hole allocator, the block index, the two superblocks, the index block and
    the read / write / delete / flush / init operations, followed by the
    properties of the storage engine that are established about them.

    Conventions of the model.
    - [uint64_t] and [size_t] values are integers in [Z]; additions that the
      code performs on them wrap at [2^64] ([add64]).
    - A failed [assert] aborts the process: every operation that can reach an
      assertion returns an [option], and [None] is the abort.
    - A [bool] result of the code is a [bool] component of the result.
    - The outcome of each call into the asynchronous file ([AIOStatus.succ])
      is an explicit argument of the operation that performs the call. *)

From Stdlib Require Import ZArith Lia.
From Stdlib Require Import Strings.Byte.
From stdpp Require Import base option list gmap sorting.
From Equations Require Import Equations.

Local Open Scope Z_scope.

(* ================================================================== *)
(** * Part I: the model                                                 *)
(* ================================================================== *)

(** ** Machine integers and constants *)

Definition U64_MOD : Z := 18446744073709551616.

Definition add64 (a b : Z) : Z := (a + b) mod U64_MOD.

(** Modelled from the spec: [PAGE_SIZE] and [SUPER_BLOCK_SIZE] are macros of
    headers that are not part of [src/]; the spec fixes both to 4096. *)
Definition PAGE_SIZE : Z := 4096.
Definition SUPER_BLOCK_SIZE : Z := 4096.

(** Modelled from the spec: [BLOCK_META_SIZE] is a macro of [layout.h];
    the spec gives [offset:8 | inflated_size:4 | compressed_size:4 | crc:2]. *)
Definition BLOCK_META_SIZE : Z := 18.

(** Modelled from the spec: [PAGE_ROUND_UP] is a macro of [util/bits.h];
    the spec defines it as the smallest multiple of [PAGE_SIZE] that is at
    least [x]. *)
Definition PAGE_ROUND_UP (x : Z) : Z := (x + PAGE_SIZE - 1) / PAGE_SIZE * PAGE_SIZE.

Definition zlen {A} (l : list A) : Z := Z.of_nat (length l).

(** ** Bytes and fixed-width little-endian integers *)

Definition byte_of_Z (x : Z) : byte :=
  default "000"%byte (Byte.of_N (Z.to_N (x mod 256))).

Definition Z_of_byte (b : byte) : Z := Z.of_N (Byte.to_N b).

Fixpoint le_encode (n : nat) (v : Z) : list byte :=
  match n with
  | O => []
  | S k => byte_of_Z v :: le_encode k (v / 256)
  end.

Fixpoint le_decode (bs : list byte) : Z :=
  match bs with
  | [] => 0
  | b :: r => Z_of_byte b + 256 * le_decode r
  end.

Definition zeros (n : Z) : list byte := replicate (Z.to_nat n) "000"%byte.

(** ** Blocks, block writers and block readers *)

(** A [Block] is a buffer (its length is [limit()]) and a logical size. *)
Record Block := mkBlock { blk_buf : list byte; blk_size : Z }.

Definition blk_limit (b : Block) : Z := zlen (blk_buf b).

(** The first [size()] bytes of the buffer: the contents of the block. *)
Definition blk_data (b : Block) : list byte := take (Z.to_nat (blk_size b)) (blk_buf b).

(** Modelled from the spec: [BlockWriter] ([serialize/block.h]) is not part
    of [src/].  It appends fixed-width little-endian fields at the end of the
    block's contents and returns [false] (here [None]) when the field does not
    fit in the buffer. *)
Definition write_bytes (bs : list byte) (b : Block) : option Block :=
  if decide (blk_size b + zlen bs <= blk_limit b) then
    Some {| blk_buf := take (Z.to_nat (blk_size b)) (blk_buf b) ++ bs
                       ++ drop (Z.to_nat (blk_size b + zlen bs)) (blk_buf b);
            blk_size := blk_size b + zlen bs |}
  else None.

Definition writeUInt64 (v : Z) : Block -> option Block := write_bytes (le_encode 8 v).
Definition writeUInt32 (v : Z) : Block -> option Block := write_bytes (le_encode 4 v).
Definition writeUInt16 (v : Z) : Block -> option Block := write_bytes (le_encode 2 v).
Definition writeUInt8 (v : Z) : Block -> option Block := write_bytes (le_encode 1 v).
Definition writeBool (v : bool) : Block -> option Block :=
  write_bytes (le_encode 1 (if v then 1 else 0)).

(** Modelled from the spec: [BlockReader] ([serialize/block.h]) is not part
    of [src/].  It reads fixed-width little-endian fields from the block's
    contents and fails when a field runs past [size()]. *)
Record BlockReader := mkReader { rd_block : Block; rd_pos : Z }.

Definition read_bytes (n : Z) (r : BlockReader) : option (list byte * BlockReader) :=
  if decide (rd_pos r + n <= blk_size (rd_block r)) then
    Some (take (Z.to_nat n) (drop (Z.to_nat (rd_pos r)) (blk_buf (rd_block r))),
          {| rd_block := rd_block r; rd_pos := rd_pos r + n |})
  else None.

Definition read_uint (n : Z) (r : BlockReader) : option (Z * BlockReader) :=
  match read_bytes n r with
  | Some (bs, r') => Some (le_decode bs, r')
  | None => None
  end.

Definition readUInt64 : BlockReader -> option (Z * BlockReader) := read_uint 8.
Definition readUInt32 : BlockReader -> option (Z * BlockReader) := read_uint 4.
Definition readUInt16 : BlockReader -> option (Z * BlockReader) := read_uint 2.
Definition readUInt8 : BlockReader -> option (Z * BlockReader) := read_uint 1.
Definition readBool (r : BlockReader) : option (bool * BlockReader) :=
  match read_uint 1 r with
  | Some (v, r') => Some (negb (v =? 0), r')
  | None => None
  end.

(** ** Metadata records *)

Record BlockMeta := mkMeta {
  meta_offset : Z;
  meta_inflated_size : Z;
  meta_compressed_size : Z;
  meta_crc : Z
}.

(** Modelled from the spec: the constructor [BlockMeta()] is declared in
    [layout.h], which is not part of [src/]; a fresh record has all fields 0. *)
Definition BlockMeta_new : BlockMeta := mkMeta 0 0 0 0.

Inductive Compress := kNoCompress | kSnappyCompress | kOtherCompress (c : Z).

Definition Compress_of_Z (c : Z) : Compress :=
  if c =? 0 then kNoCompress else if c =? 1 then kSnappyCompress else kOtherCompress c.

Definition Z_of_Compress (c : Compress) : Z :=
  match c with kNoCompress => 0 | kSnappyCompress => 1 | kOtherCompress c => c end.

Global Instance Compress_eq_dec : EqDecision Compress.
Proof. solve_decision. Defined.

Record SuperBlock := mkSuper {
  magic_number : Z;
  major_version : Z;
  minor_version : Z;
  compress : Compress;
  index_block_meta : option BlockMeta;
  sb_crc : Z
}.

Record Hole := mkHole { hole_offset : Z; hole_size : Z }.

(** The extent of the file that a block with metadata [m] occupies. *)
Definition meta_extent_size (m : BlockMeta) : Z := PAGE_ROUND_UP (meta_compressed_size m).

(** ** The compression codec

    Snappy is an external library.  The model is parametric in its three
    entry points; [RawUncompress] returns the inflated bytes, or [None] when
    the library reports a malformed input. *)
Class Snappy := {
  RawCompress : list byte -> list byte;
  RawUncompress : list byte -> option (list byte);
  MaxCompressedLength : Z -> Z
}.

(** ** The data file

    [AIOFile] is an external collaborator: a byte-addressed file with positional
    reads and writes and truncation.  A write past the end grows the file. *)
Record AIOFile := mkFile { file_data : Z -> byte; file_len : Z }.

Definition aio_write (off : Z) (buf : list byte) (f : AIOFile) : AIOFile :=
  {| file_data := fun i =>
       if decide (off <= i < off + zlen buf)
       then default "000"%byte (buf !! Z.to_nat (i - off))
       else file_data f i;
     file_len := Z.max (file_len f) (off + zlen buf) |}.

Definition aio_read (off n : Z) (f : AIOFile) : list byte :=
  (fun k => file_data f (off + Z.of_nat k)) <$> seq 0 (Z.to_nat n).

Definition aio_truncate (n : Z) (f : AIOFile) : AIOFile :=
  {| file_data := fun i => if decide (i < n) then file_data f i else "000"%byte;
     file_len := n |}.

Definition empty_file : AIOFile := mkFile (fun _ => "000"%byte) 0.

(** Two files hold the same bytes: same length, same byte at every offset
    below it. *)
Definition file_eq (f g : AIOFile) : Prop :=
  file_len f = file_len g /\ forall i, 0 <= i < file_len f -> file_data f i = file_data g i.

(** ** The state of a [Layout] *)

(** A [Callback] object is represented by its identity. *)
Definition Callback : Type := Z.

(** An entry of [block_offset_index_] is a [BlockMeta*]: it points either to
    the record that [block_index_] holds for a block id, or to the record of
    the index block held by the superblock. *)
Inductive MetaRef := RefBlock (bid : Z) | RefIndex.

Record Layout := mkLayout {
  aio_file_ : AIOFile;
  length_ : Z;
  options_compress : Compress;
  offset_ : Z;
  superblock_ : SuperBlock;
  fly_writes_ : Z;
  fly_reads_ : Z;
  block_index_ : gmap Z BlockMeta;
  block_offset_index_ : gmap Z MetaRef;
  hole_list_ : list Hole;
  (** the calls [cb->exec(status)] made so far, most recent first *)
  cb_trace : list (Callback * bool)
}.

Definition set_aio_file_ (v : AIOFile) (s : Layout) : Layout :=
  mkLayout v (length_ s) (options_compress s) (offset_ s) (superblock_ s)
    (fly_writes_ s) (fly_reads_ s) (block_index_ s) (block_offset_index_ s)
    (hole_list_ s) (cb_trace s).
Definition set_length_ (v : Z) (s : Layout) : Layout :=
  mkLayout (aio_file_ s) v (options_compress s) (offset_ s) (superblock_ s)
    (fly_writes_ s) (fly_reads_ s) (block_index_ s) (block_offset_index_ s)
    (hole_list_ s) (cb_trace s).
Definition set_offset_ (v : Z) (s : Layout) : Layout :=
  mkLayout (aio_file_ s) (length_ s) (options_compress s) v (superblock_ s)
    (fly_writes_ s) (fly_reads_ s) (block_index_ s) (block_offset_index_ s)
    (hole_list_ s) (cb_trace s).
Definition set_superblock_ (v : SuperBlock) (s : Layout) : Layout :=
  mkLayout (aio_file_ s) (length_ s) (options_compress s) (offset_ s) v
    (fly_writes_ s) (fly_reads_ s) (block_index_ s) (block_offset_index_ s)
    (hole_list_ s) (cb_trace s).
Definition set_fly_writes_ (v : Z) (s : Layout) : Layout :=
  mkLayout (aio_file_ s) (length_ s) (options_compress s) (offset_ s) (superblock_ s)
    v (fly_reads_ s) (block_index_ s) (block_offset_index_ s)
    (hole_list_ s) (cb_trace s).
Definition set_fly_reads_ (v : Z) (s : Layout) : Layout :=
  mkLayout (aio_file_ s) (length_ s) (options_compress s) (offset_ s) (superblock_ s)
    (fly_writes_ s) v (block_index_ s) (block_offset_index_ s)
    (hole_list_ s) (cb_trace s).
Definition set_block_index_ (v : gmap Z BlockMeta) (s : Layout) : Layout :=
  mkLayout (aio_file_ s) (length_ s) (options_compress s) (offset_ s) (superblock_ s)
    (fly_writes_ s) (fly_reads_ s) v (block_offset_index_ s)
    (hole_list_ s) (cb_trace s).
Definition set_block_offset_index_ (v : gmap Z MetaRef) (s : Layout) : Layout :=
  mkLayout (aio_file_ s) (length_ s) (options_compress s) (offset_ s) (superblock_ s)
    (fly_writes_ s) (fly_reads_ s) (block_index_ s) v
    (hole_list_ s) (cb_trace s).
Definition set_hole_list_ (v : list Hole) (s : Layout) : Layout :=
  mkLayout (aio_file_ s) (length_ s) (options_compress s) (offset_ s) (superblock_ s)
    (fly_writes_ s) (fly_reads_ s) (block_index_ s) (block_offset_index_ s)
    v (cb_trace s).
Definition set_cb_trace (v : list (Callback * bool)) (s : Layout) : Layout :=
  mkLayout (aio_file_ s) (length_ s) (options_compress s) (offset_ s) (superblock_ s)
    (fly_writes_ s) (fly_reads_ s) (block_index_ s) (block_offset_index_ s)
    (hole_list_ s) v.

(** [cb->exec(status)] *)
Definition exec_cb (cb : Callback) (status : bool) (s : Layout) : Layout :=
  set_cb_trace ((cb, status) :: cb_trace s) s.

(** Modelled from the spec: the constructor [SuperBlock()] is declared in
    [layout.h], which is not part of [src/]; the fixed header fields are taken
    as given and a fresh superblock has no index block. *)
Definition SuperBlock_new (magic major minor : Z) : SuperBlock :=
  mkSuper magic major minor kNoCompress None 0.

(** [Layout::Layout(aio_file, length, options)] *)
Definition Layout_new (sb : SuperBlock) (aio_file : AIOFile) (length : Z)
    (options : Compress) : Layout :=
  mkLayout aio_file length options 0 sb 0 0 ∅ ∅ [] [].

(** ** The hole allocator *)

(** [Layout::get_hole], on the list. *)
Fixpoint hole_list_get (size : Z) (l : list Hole) : option (Z * list Hole) :=
  match l with
  | [] => None
  | h :: t =>
      if decide (hole_size h > size) then
        Some (hole_offset h,
              mkHole (add64 (hole_offset h) size) (hole_size h - size) :: t)
      else if decide (hole_size h = size) then
        Some (hole_offset h, t)
      else
        match hole_list_get size t with
        | Some (off, t') => Some (off, h :: t')
        | None => None
        end
  end.

(** [bool Layout::get_hole(size_t size, uint64_t& offset)] *)
Definition get_hole (size : Z) (s : Layout) : option Z * Layout :=
  match hole_list_get size (hole_list_ s) with
  | Some (off, l') => (Some off, set_hole_list_ l' s)
  | None => (None, s)
  end.

(** [Layout::get_offset] *)
Definition get_offset (size : Z) (s : Layout) : Z * Layout :=
  match get_hole size s with
  | (Some off, s') => (off, s')
  | (None, s') =>
      let offset := offset_ s' in
      let s1 := set_offset_ (add64 (offset_ s') size) s' in
      let s2 := if decide (offset_ s1 > length_ s1) then set_length_ (offset_ s1) s1 else s1 in
      (offset, s2)
  end.

Definition half (n : nat) : nat := (n / 2)%nat.
Arguments half : simpl never.

Lemma half_lt (n : nat) : (0 < n)%nat -> (half n < n)%nat.
Proof. intros Hn. unfold half. apply Nat.div_lt; lia. Qed.

(** The binary search of [Layout::add_hole].  Iterators into the hole list
    are positions; [first] and [prev] are the variables of the same name and
    the result is the final value of [prev]. *)
Equations? bsearch (l : list Hole) (off : Z) (first prev count : nat) : nat
  by wf count lt :=
  bsearch l off first prev 0%nat := prev;
  bsearch l off first prev (S c) :=
    let step := half (S c) in
    let it := (first + step)%nat in
    match l !! it with
    | Some h =>
        if decide (hole_offset h < off)
        then bsearch l off (S it) it (S c - (step + 1))%nat
        else bsearch l off first prev step
    | None => prev
    end.
Proof. all: pose proof (half_lt (S c)); lia. Qed.

(** The part of [Layout::add_hole] that runs under [hole_list_mtx_], on a
    list that is not empty: the binary search and what follows it. *)
Definition hole_list_add_search (hole : Hole) (l : list Hole) : option (list Hole) :=
  let prev := bsearch l (hole_offset hole) 0 0 (length l) in
  (* assert(prev != hole_list_.end()) *)
  p ← l !! prev;
  if decide (prev = 0%nat /\ hole_offset p > hole_offset hole) then
    guard (add64 (hole_offset hole) (hole_size hole) <= hole_offset p);;
    if decide (add64 (hole_offset hole) (hole_size hole) = hole_offset p) then
      Some (mkHole (hole_offset hole) (add64 (hole_size p) (hole_size hole)) :: drop 1 l)
    else
      Some (hole :: l)
  else
    guard (hole_offset p < hole_offset hole);;
    guard (add64 (hole_offset p) (hole_size p) <= hole_offset hole);;
    let front := take prev l in
    let back := drop (S prev) l in
    (* [front'] is what precedes [prev] after the merge or the insertion *)
    let '(front', prev') :=
      if decide (add64 (hole_offset p) (hole_size p) = hole_offset hole)
      then (front, mkHole (hole_offset p) (add64 (hole_size p) (hole_size hole)))
      else (front ++ [p], hole) in
    match back with
    | next :: back' =>
        if decide (add64 (hole_offset prev') (hole_size prev') = hole_offset next)
        then Some (front' ++ mkHole (hole_offset prev')
                               (add64 (hole_size prev') (hole_size next)) :: back')
        else Some (front' ++ prev' :: back)
    | [] => Some (front' ++ [prev'])
    end.

(** The part of [Layout::add_hole] that runs under [hole_list_mtx_]. *)
Definition hole_list_add (hole : Hole) (l : list Hole) : option (list Hole) :=
  match l with
  | [] => Some [hole]
  | _ :: _ => hole_list_add_search hole l
  end.

(** [Layout::add_hole] *)
Definition add_hole (offset size : Z) (s : Layout) : option Layout :=
  if decide (add64 offset size = offset_ s) then
    Some (set_offset_ offset s)
  else
    l' ← hole_list_add (mkHole offset size) (hole_list_ s);
    Some (set_hole_list_ l' s).

(** ** Buffers and compression *)

(** [Layout::alloc_aligned_buffer]: [assert(size)], then a buffer of
    [PAGE_ROUND_UP(size)] bytes.  [posix_memalign] is taken to succeed.  The
    contents of fresh memory are unspecified in the code and zero here, so
    that the bytes of a page after the record written into it are zero in
    this model only: the properties of Parts II and III describe a page on
    disk by the bytes that were written into its buffer, and by which pages
    are copies of one another, never by the bytes that follow. *)
Definition alloc_aligned_buffer (size : Z) : option (list byte) :=
  guard (size ≠ 0);;
  Some (zeros (PAGE_ROUND_UP size)).

(** Modelled from the spec: [Slice::resize] ([util/slice.h]) is not part of
    [src/]; it sets the size of the slice and leaves its memory in place. *)
Definition slice_resize (n : Z) (buf : list byte) : list byte :=
  take (Z.to_nat n) buf ++ zeros (n - zlen buf).

(** Writing [out] at the start of [buffer]. *)
Definition fill_buffer (buffer out : list byte) : list byte :=
  take (length buffer) (out ++ drop (length out) buffer).

(** [Layout::compress_data]; [None] is the result [false], on which every
    caller asserts. *)
Definition compress_data `{Snappy} (opt : Compress) (input_buffer : list byte)
    (input_size : Z) : option (list byte * Z) :=
  match opt with
  | kNoCompress => Some (input_buffer, input_size)
  | kSnappyCompress =>
      let max_size := MaxCompressedLength input_size in
      buffer ← alloc_aligned_buffer max_size;
      let out := RawCompress (take (Z.to_nat input_size) input_buffer) in
      Some (fill_buffer buffer out, zlen out)
  | kOtherCompress _ => None
  end.

(** [Layout::uncompress_data]; [None] is the result [false] or a failed
    assertion: every caller asserts on [false]. *)
Definition uncompress_data `{Snappy} (opt : Compress) (input_buffer : list byte)
    (input_size output_size : Z) : option (list byte) :=
  match opt with
  | kNoCompress =>
      guard (input_size = output_size);;
      Some input_buffer
  | kSnappyCompress =>
      buffer ← alloc_aligned_buffer output_size;
      out ← RawUncompress (take (Z.to_nat input_size) input_buffer);
      Some (fill_buffer buffer out)
  | kOtherCompress _ => None
  end.

(** ** Synchronous file access *)

(** [Layout::read_data]: the buffer is filled when the read succeeds. *)
Definition read_data (status : bool) (offset : Z) (buffer : list byte) (s : Layout)
    : bool * list byte * Layout :=
  let s1 := set_fly_reads_ (fly_reads_ s + 1) s in
  let buffer' := if status then aio_read offset (zlen buffer) (aio_file_ s1) else buffer in
  let s2 := set_fly_reads_ (fly_reads_ s1 - 1) s1 in
  (status, buffer', s2).

(** [Layout::write_data] *)
Definition write_data (status : bool) (offset : Z) (buffer : list byte) (s : Layout)
    : bool * Layout :=
  let s1 := set_fly_writes_ (fly_writes_ s + 1) s in
  let s2 := if status then set_aio_file_ (aio_write offset buffer (aio_file_ s1)) s1 else s1 in
  let s3 := set_fly_writes_ (fly_writes_ s2 - 1) s2 in
  (status, s3).

(** [Layout::truncate] *)
Definition truncate (s : Layout) : Layout :=
  if decide (offset_ s < length_ s) then
    set_length_ (offset_ s) (set_aio_file_ (aio_truncate (offset_ s) (aio_file_ s)) s)
  else s.

(** ** The block index *)

(** [Layout::get_block_meta] *)
Definition get_block_meta (bid : Z) (s : Layout) : option BlockMeta :=
  block_index_ s !! bid.

(** [Layout::set_block_meta] *)
Definition set_block_meta (bid : Z) (meta : BlockMeta) (s : Layout) : option Layout :=
  match block_index_ s !! bid with
  | None =>
      let s1 := set_block_index_ (<[bid := meta]> (block_index_ s)) s in
      Some (set_block_offset_index_
              (<[meta_offset meta := RefBlock bid]> (block_offset_index_ s1)) s1)
  | Some p =>
      let offset := meta_offset p in
      let size := PAGE_ROUND_UP (meta_compressed_size p) in
      let s1 := set_block_offset_index_ (delete (meta_offset p) (block_offset_index_ s)) s in
      let s2 := set_block_index_ (<[bid := meta]> (block_index_ s1)) s1 in
      let s3 := set_block_offset_index_
                  (<[meta_offset meta := RefBlock bid]> (block_offset_index_ s2)) s2 in
      add_hole offset size s3
  end.

(** [Layout::del_block_meta] *)
Definition del_block_meta (bid : Z) (s : Layout) : option Layout :=
  match block_index_ s !! bid with
  | Some p =>
      let s1 := set_block_index_ (delete bid (block_index_ s)) s in
      let offset := meta_offset p in
      let size := PAGE_ROUND_UP (meta_compressed_size p) in
      let s2 := set_block_offset_index_ (delete (meta_offset p) (block_offset_index_ s1)) s1 in
      add_hole offset size s2
  | None => Some s
  end.

(** [Layout::delete_block] *)
Definition delete_block (bid : Z) (s : Layout) : option Layout :=
  match get_block_meta bid s with
  | None => Some s
  | Some _ => del_block_meta bid s
  end.

(** ** Reading and writing blocks *)

(** [Layout::read_block]; the inner [None] is the result [false]. *)
Definition read_block `{Snappy} (status : bool) (meta : BlockMeta) (s : Layout)
    : option (option Block * Layout) :=
  compressed_data ← alloc_aligned_buffer (meta_compressed_size meta);
  let '(ok, compressed_data, s1) := read_data status (meta_offset meta) compressed_data s in
  if negb ok then Some (None, s1)
  else
    inflated_data ← uncompress_data (options_compress s1) compressed_data
                      (meta_compressed_size meta) (meta_inflated_size meta);
    Some (Some (mkBlock inflated_data (meta_inflated_size meta)), s1).


(** The request record that [async_write] hands to the file together with
    its completion callback. *)
Record AsyncWriteReq := mkReq {
  req_bid : Z;
  req_cb : Callback;
  req_meta : BlockMeta;
  req_buffer : list byte
}.

(** [Layout::async_write], up to the submission of the write.  The result is
    the request that is now in flight. *)
Definition async_write `{Snappy} (bid : Z) (block : Block) (cb : Callback) (s : Layout)
    : option (AsyncWriteReq * Layout) :=
  guard (blk_limit block = PAGE_ROUND_UP (blk_size block));;
  let inflated_size := blk_size block in
  '(buffer, compressed_size) ← compress_data (options_compress s) (blk_buf block) (blk_size block);
  let buffer := slice_resize (PAGE_ROUND_UP compressed_size) buffer in
  let '(offset, s1) := get_offset (zlen buffer) s in
  let meta := mkMeta offset inflated_size compressed_size (meta_crc BlockMeta_new) in
  let s2 := set_fly_writes_ (fly_writes_ s1 + 1) s1 in
  Some (mkReq bid cb meta buffer, s2).

(** [Layout::handle_async_write] *)
Definition handle_async_write (req : AsyncWriteReq) (status : bool) (s : Layout)
    : option Layout :=
  let s1 := set_fly_writes_ (fly_writes_ s - 1) s in
  s2 ← (if status then set_block_meta (req_bid req) (req_meta req) s1
        else add_hole (meta_offset (req_meta req))
               (PAGE_ROUND_UP (meta_compressed_size (req_meta req))) s1);
  Some (exec_cb (req_cb req) status s2).

(** The file completes an in-flight write: on success the buffer is on disk;
    then [aio_complete_handler] runs the completion callback. *)
Definition complete_async_write (req : AsyncWriteReq) (status : bool) (s : Layout)
    : option Layout :=
  let s1 := if status
            then set_aio_file_ (aio_write (meta_offset (req_meta req)) (req_buffer req)
                                  (aio_file_ s)) s
            else s in
  handle_async_write req status s1.

(** ** Serialization of the metadata *)

(** [Layout::write_block_meta]; [None] is the result [false]. *)
Definition write_block_meta (meta : BlockMeta) (w : Block) : option Block :=
  w ← writeUInt64 (meta_offset meta) w;
  w ← writeUInt32 (meta_inflated_size meta) w;
  w ← writeUInt32 (meta_compressed_size meta) w;
  writeUInt16 (meta_crc meta) w.

(** [Layout::read_block_meta]; the fields read before a failure stay
    assigned, the record is returned with the flag. *)
Definition read_block_meta (meta : BlockMeta) (r : BlockReader)
    : bool * BlockMeta * BlockReader :=
  match readUInt64 r with
  | None => (false, meta, r)
  | Some (v, r) =>
  let meta := mkMeta v (meta_inflated_size meta) (meta_compressed_size meta) (meta_crc meta) in
  match readUInt32 r with
  | None => (false, meta, r)
  | Some (v, r) =>
  let meta := mkMeta (meta_offset meta) v (meta_compressed_size meta) (meta_crc meta) in
  match readUInt32 r with
  | None => (false, meta, r)
  | Some (v, r) =>
  let meta := mkMeta (meta_offset meta) (meta_inflated_size meta) v (meta_crc meta) in
  match readUInt16 r with
  | None => (false, meta, r)
  | Some (v, r) =>
  (true, mkMeta (meta_offset meta) (meta_inflated_size meta) (meta_compressed_size meta) v, r)
  end end end end.

(** [Layout::write_superblock] *)
Definition write_superblock (sb : SuperBlock) (w : Block) : option Block :=
  w ← writeUInt64 (magic_number sb) w;
  w ← writeUInt8 (major_version sb) w;
  w ← writeUInt8 (minor_version sb) w;
  w ← writeUInt8 (Z_of_Compress (compress sb)) w;
  w ← match index_block_meta sb with
      | Some m => w ← writeBool true w; write_block_meta m w
      | None => writeBool false w
      end;
  writeUInt16 (sb_crc sb) w.

(** [Layout::read_superblock]: the fields of [superblock_] are assigned as
    they are read. *)
Definition read_superblock (r : BlockReader) (sb : SuperBlock) : bool * SuperBlock :=
  match readUInt64 r with
  | None => (false, sb)
  | Some (v, r) =>
  let sb := mkSuper v (major_version sb) (minor_version sb) (compress sb)
              (index_block_meta sb) (sb_crc sb) in
  match readUInt8 r with
  | None => (false, sb)
  | Some (v, r) =>
  let sb := mkSuper (magic_number sb) v (minor_version sb) (compress sb)
              (index_block_meta sb) (sb_crc sb) in
  match readUInt8 r with
  | None => (false, sb)
  | Some (v, r) =>
  let sb := mkSuper (magic_number sb) (major_version sb) v (compress sb)
              (index_block_meta sb) (sb_crc sb) in
  match readUInt8 r with
  | None => (false, sb)
  | Some (c, r) =>
  let sb := mkSuper (magic_number sb) (major_version sb) (minor_version sb)
              (Compress_of_Z c) (index_block_meta sb) (sb_crc sb) in
  match readBool r with
  | None => (false, sb)
  | Some (has_index_block_meta, r) =>
  let '(ok, sb, r) :=
    if has_index_block_meta then
      let '(ok, m, r) := read_block_meta BlockMeta_new r in
      (ok, mkSuper (magic_number sb) (major_version sb) (minor_version sb)
             (compress sb) (Some m) (sb_crc sb), r)
    else (true, sb, r) in
  if negb ok then (false, sb)
  else
  match readUInt16 r with
  | None => (false, sb)
  | Some (v, r) =>
  (true, mkSuper (magic_number sb) (major_version sb) (minor_version sb)
           (compress sb) (index_block_meta sb) v)
  end end end end end end.

(** The entries of a [std::map], in the order in which its iterators visit
    them: by increasing key. *)
Definition key_le {V} (x y : Z * V) : Prop := x.1 <= y.1.

Global Instance key_le_dec {V} (x y : Z * V) : Decision (key_le x y).
Proof. unfold key_le. apply _. Defined.

Definition map_entries {V} (m : gmap Z V) : list (Z * V) :=
  merge_sort key_le (map_to_list m).

(** [Layout::get_index_size] *)
Definition get_index_size (s : Layout) : Z :=
  4 + Z.of_nat (size (block_index_ s)) * (8 + BLOCK_META_SIZE).

Fixpoint write_index_entries (es : list (Z * BlockMeta)) (w : Block) : option Block :=
  match es with
  | [] => Some w
  | (bid, m) :: es =>
      w ← writeUInt64 bid w;
      w ← write_block_meta m w;
      write_index_entries es w
  end.

(** [Layout::write_index] *)
Definition write_index (s : Layout) (w : Block) : option Block :=
  w ← writeUInt32 (Z.of_nat (size (block_index_ s))) w;
  write_index_entries (map_entries (block_index_ s)) w.

(** The loop of [Layout::read_index]: entries read before a failure stay in
    the index. *)
Fixpoint read_index_entries (n : nat) (r : BlockReader) (idx : gmap Z BlockMeta)
    : bool * gmap Z BlockMeta :=
  match n with
  | O => (true, idx)
  | S n =>
      match readUInt64 r with
      | None => (false, idx)
      | Some (bid, r) =>
          let '(ok, meta, r) := read_block_meta BlockMeta_new r in
          if ok then read_index_entries n r (<[bid := meta]> idx)
          else (false, idx)
      end
  end.

(** [Layout::read_index] *)
Definition read_index (r : BlockReader) (s : Layout) : option (bool * Layout) :=
  guard (size (block_index_ s) = 0%nat);;
  match readUInt32 r with
  | None => Some (false, s)
  | Some (n, r) =>
      let '(ok, idx) := read_index_entries (Z.to_nat n) r (block_index_ s) in
      Some (ok, set_block_index_ idx s)
  end.

(** ** Superblocks and the index block *)

(** [Layout::flush_superblock] *)
Definition flush_superblock (st1 st2 : bool) (s : Layout) : option (bool * Layout) :=
  buffer ← alloc_aligned_buffer SUPER_BLOCK_SIZE;
  block ← write_superblock (superblock_ s) (mkBlock buffer 0);
  let buffer := blk_buf block in
  let '(ok, s1) := write_data st1 0 buffer s in
  if negb ok then Some (false, s1)
  else
    let '(ok, s2) := write_data st2 SUPER_BLOCK_SIZE buffer s1 in
    if negb ok then Some (false, s2)
    else Some (true, s2).

(** [Layout::load_2nd_superblock] *)
Definition load_2nd_superblock (st : bool) (s : Layout) : option (bool * Layout) :=
  buffer ← alloc_aligned_buffer SUPER_BLOCK_SIZE;
  let '(ok, buffer, s1) := read_data st SUPER_BLOCK_SIZE buffer s in
  if negb ok then Some (false, s1)
  else
    let '(ok, sb) := read_superblock (mkReader (mkBlock buffer SUPER_BLOCK_SIZE) 0)
                       (superblock_ s1) in
    Some (ok, set_superblock_ sb s1).

(** [Layout::load_superblock] *)
Definition load_superblock (st1 st2 : bool) (s : Layout) : option (bool * Layout) :=
  buffer ← alloc_aligned_buffer SUPER_BLOCK_SIZE;
  let '(ok, buffer, s1) := read_data st1 0 buffer s in
  if negb ok then load_2nd_superblock st2 s1
  else
    let '(ok, sb) := read_superblock (mkReader (mkBlock buffer SUPER_BLOCK_SIZE) 0)
                       (superblock_ s1) in
    let s2 := set_superblock_ sb s1 in
    if negb ok then load_2nd_superblock st2 s2
    else Some (true, s2).

(** [Layout::load_index] *)
Definition load_index `{Snappy} (st : bool) (s : Layout) : option (bool * Layout) :=
  meta ← index_block_meta (superblock_ s);
  '(r, s1) ← read_block st meta s;
  match r with
  | None => Some (false, s1)
  | Some block => read_index (mkReader block 0) s1
  end.

(** [Layout::flush_index] *)
Definition flush_index `{Snappy} (st : bool) (s : Layout) : option (bool * Layout) :=
  let size := get_index_size s in
  inflated_data ← alloc_aligned_buffer size;
  block ← write_index s (mkBlock inflated_data 0);
  guard (blk_size block = size);;
  let inflated_data := blk_buf block in
  '(compressed_data, compressed_size) ← compress_data (options_compress s) inflated_data size;
  let compressed_data := slice_resize (PAGE_ROUND_UP compressed_size) compressed_data in
  let '(offset, s1) := get_offset (zlen compressed_data) s in
  let '(ok, s2) := write_data st offset compressed_data s1 in
  if negb ok then
    s3 ← add_hole offset (PAGE_ROUND_UP size) s2;
    Some (false, s3)
  else
    s3 ← match index_block_meta (superblock_ s2) with
         | Some m => add_hole (meta_offset m) (PAGE_ROUND_UP (meta_compressed_size m)) s2
         | None =>
             let sb := superblock_ s2 in
             Some (set_superblock_
                     (mkSuper (magic_number sb) (major_version sb) (minor_version sb)
                        (compress sb) (Some BlockMeta_new) (sb_crc sb)) s2)
         end;
    m ← index_block_meta (superblock_ s3);
    let s4 := set_block_offset_index_
                (<[offset := RefIndex]> (delete (meta_offset m) (block_offset_index_ s3))) s3 in
    let sb := superblock_ s4 in
    Some (true,
          set_superblock_
            (mkSuper (magic_number sb) (major_version sb) (minor_version sb) (compress sb)
               (Some (mkMeta offset size compressed_size (meta_crc m))) (sb_crc sb)) s4).

(** The outcomes of the three file writes of a flush. *)
Record FlushIO := mkFlushIO { io_index : bool; io_super1 : bool; io_super2 : bool }.

(** [Layout::flush_meta] *)
Definition flush_meta `{Snappy} (io : FlushIO) (s : Layout) : option (bool * Layout) :=
  '(ok, s1) ← flush_index (io_index io) s;
  if negb ok then Some (false, s1)
  else
    '(ok, s2) ← flush_superblock (io_super1 io) (io_super2 io) s1;
    if negb ok then Some (false, s2) else Some (true, s2).

(** [Layout::flush].  The loop [while (fly_writes_ > 0)] sleeps until the
    completions of the writes in flight have brought the counter down: the
    operation goes on only from a state with no write in flight. *)
Definition flush `{Snappy} (io : FlushIO) (s : Layout) : option (bool * Layout) :=
  guard (¬ fly_writes_ s > 0);;
  '(ok, s1) ← flush_meta io s;
  if negb ok then Some (false, s1)
  else Some (true, truncate s1).

(** ** Opening a layout *)

(** What a [BlockMeta*] of [block_offset_index_] points to. *)
Definition deref (s : Layout) (p : MetaRef) : option BlockMeta :=
  match p with
  | RefBlock bid => block_index_ s !! bid
  | RefIndex => index_block_meta (superblock_ s)
  end.

(** [Layout::init_block_offset_index] *)
Definition init_block_offset_index (s : Layout) : Layout :=
  let by_offset :=
    foldl (fun acc e => <[meta_offset e.2 := RefBlock e.1]> acc)
      (block_offset_index_ s) (map_entries (block_index_ s)) in
  let by_offset :=
    match index_block_meta (superblock_ s) with
    | Some m => <[meta_offset m := RefIndex]> by_offset
    | None => by_offset
    end in
  set_block_offset_index_ by_offset s.

(** The loop of [Layout::init_holes]; [prev] is [None] at the first entry. *)
Fixpoint init_holes_loop (es : list (Z * MetaRef)) (prev : option BlockMeta) (s : Layout)
    : option Layout :=
  match es with
  | [] => Some s
  | (_, p) :: es =>
      m ← deref s p;
      let last :=
        match prev with
        | None => SUPER_BLOCK_SIZE * 2
        | Some q => add64 (meta_offset q) (PAGE_ROUND_UP (meta_compressed_size q))
        end in
      s1 ← (if decide (meta_offset m > last)
            then add_hole last (meta_offset m - last) s
            else Some s);
      init_holes_loop es (Some m) s1
  end.

(** [Layout::init_holes] *)
Definition init_holes (s : Layout) : option Layout :=
  let es := map_entries (block_offset_index_ s) in
  s1 ← init_holes_loop es None s;
  match last es with
  | Some (_, p) =>
      m ← deref s1 p;
      Some (set_offset_ (add64 (meta_offset m) (PAGE_ROUND_UP (meta_compressed_size m))) s1)
  | None => Some (set_offset_ (SUPER_BLOCK_SIZE * 2) s1)
  end.

(** The outcomes of the file accesses of [init]: the two superblock copies
    (written when creating, read when opening) and the read of the index
    block. *)
Record InitIO := mkInitIO { io_sb1 : bool; io_sb2 : bool; io_idx : bool }.

(** [Layout::init]; [print_index_info] only logs and is left out. *)
Definition init `{Snappy} (create : bool) (io : InitIO) (s : Layout) : option (bool * Layout) :=
  if create then
    let sb := superblock_ s in
    let s0 := set_superblock_
                (mkSuper (magic_number sb) (major_version sb) (minor_version sb)
                   (options_compress s) None (sb_crc sb)) s in
    '(ok, s1) ← flush_superblock (io_sb1 io) (io_sb2 io) s0;
    if negb ok then Some (false, s1)
    else
      let s2 := set_offset_ (SUPER_BLOCK_SIZE * 2) s1 in
      let s3 := set_length_ (offset_ s2) s2 in
      Some (true, truncate s3)
  else
    if decide (length_ s < SUPER_BLOCK_SIZE * 2) then Some (false, s)
    else
      '(ok, s1) ← load_superblock (io_sb1 io) (io_sb2 io) s;
      if negb ok then Some (false, s1)
      else if decide (compress (superblock_ s1) ≠ options_compress s1) then Some (false, s1)
      else
        '(ok, s2) ← (match index_block_meta (superblock_ s1) with
                     | Some _ => load_index (io_idx io) s1
                     | None => Some (true, s1)
                     end);
        if negb ok then Some (false, s2)
        else
          s3 ← init_holes (init_block_offset_index s2);
          Some (true, truncate s3).

(** ** The engine with its writes in flight

    Between the submission of an asynchronous write and its completion the
    request belongs to the file.  A [System] is a layout together with the
    requests in flight; its steps are the public operations and the
    completions. *)
Record System := mkSys { sys_layout : Layout; sys_inflight : list AsyncWriteReq }.

Inductive Op :=
| OpAsyncWrite (bid : Z) (block : Block) (cb : Callback)
| OpComplete (i : nat) (status : bool)
| OpDelete (bid : Z)
| OpFlush (io : FlushIO).

Definition step `{Snappy} (op : Op) (w : System) : option System :=
  match op with
  | OpAsyncWrite bid block cb =>
      '(req, s) ← async_write bid block cb (sys_layout w);
      Some (mkSys s (sys_inflight w ++ [req]))
  | OpComplete i status =>
      req ← sys_inflight w !! i;
      s ← complete_async_write req status (sys_layout w);
      Some (mkSys s (delete i (sys_inflight w)))
  | OpDelete bid =>
      s ← delete_block bid (sys_layout w);
      Some (mkSys s (sys_inflight w))
  | OpFlush io =>
      '(_, s) ← flush io (sys_layout w);
      Some (mkSys s (sys_inflight w))
  end.

Fixpoint run `{Snappy} (ops : list Op) (w : System) : option System :=
  match ops with
  | [] => Some w
  | op :: ops => w' ← step op w; run ops w'
  end.

(** ** Extents, free space and the invariants of the layout *)

(** An extent of the file: offset and size. *)
Definition Extent : Type := Z * Z.

Definition ext_end (e : Extent) : Z := e.1 + e.2.

Definition ext_disjoint (a b : Extent) : Prop := ext_end a <= b.1 \/ ext_end b <= a.1.

Definition meta_extent (m : BlockMeta) : Extent :=
  (meta_offset m, PAGE_ROUND_UP (meta_compressed_size m)).

Definition hole_extent (h : Hole) : Extent := (hole_offset h, hole_size h).

Definition hole_end (h : Hole) : Z := hole_offset h + hole_size h.

Definition req_extent (r : AsyncWriteReq) : Extent := meta_extent (req_meta r).

Definition index_extents (s : Layout) : list Extent :=
  match index_block_meta (superblock_ s) with
  | Some m => [meta_extent m]
  | None => []
  end.

(** The live extents: one per entry of the block index, and the extent of
    the index block when the superblock has one. *)
Definition block_extents (idx : gmap Z BlockMeta) : list Extent :=
  (fun e => meta_extent e.2) <$> map_to_list idx.

Definition live_extents (s : Layout) : list Extent :=
  block_extents (block_index_ s) ++ index_extents s.

Definition total_size (l : list Extent) : Z := foldr (fun e n => e.2 + n) 0 l.

(** Space conservation, with the extents reserved for writes in flight
    counted apart. *)
Definition alloc_conserved (hi : Z) (holes : list Hole) (used : list Extent) : Prop :=
  total_size used + total_size (hole_extent <$> holes) + SUPER_BLOCK_SIZE * 2 = hi.

Definition space_conserved (s : Layout) (inflight : list Extent) : Prop :=
  alloc_conserved (offset_ s) (hole_list_ s) (live_extents s ++ inflight).

(** The hole list is sorted by offset, starts at or after [lo], its holes
    are not empty, and each hole starts strictly after the end of the one
    before it: the holes are disjoint and no two of them touch. *)
Fixpoint holes_sorted (lo : Z) (l : list Hole) : Prop :=
  match l with
  | [] => True
  | h :: t => lo <= hole_offset h /\ 0 < hole_size h /\ holes_sorted (hole_end h + 1) t
  end.

(** The bytes of the file that belong to some hole of the list. *)
Definition in_holes (l : list Hole) (x : Z) : Prop :=
  Exists (fun h => hole_offset h <= x < hole_end h) l.

Definition in_extent (e : Extent) (x : Z) : Prop := e.1 <= x < ext_end e.

Fixpoint pairwise_disjoint (l : list Extent) : Prop :=
  match l with
  | [] => True
  | e :: t => Forall (ext_disjoint e) t /\ pairwise_disjoint t
  end.

(** An extent of the data area below the end of the file. *)
Definition extent_ok (hi : Z) (e : Extent) : Prop :=
  SUPER_BLOCK_SIZE * 2 <= e.1 /\ 0 < e.2 /\ ext_end e <= hi.

(** The allocation invariant, on the end of the file [hi], the hole list and
    the extents in use: the holes are sorted, apart and inside the data area,
    the extents in use are inside the data area and pairwise disjoint, and no
    byte of an extent in use belongs to a hole. *)
Record alloc_inv (hi : Z) (holes : list Hole) (used : list Extent) : Prop := mkInv {
  inv_offset : SUPER_BLOCK_SIZE * 2 <= hi < U64_MOD;
  inv_holes : holes_sorted (SUPER_BLOCK_SIZE * 2) holes;
  inv_holes_end : Forall (fun h => hole_end h <= hi) holes;
  inv_used_ok : Forall (extent_ok hi) used;
  inv_used_disjoint : pairwise_disjoint used;
  inv_holes_free : forall e x, e ∈ used -> in_extent e x -> ~ in_holes holes x
}.

(** The allocation invariant of a layout whose writes in flight hold the
    extents [inflight]. *)
Definition layout_inv (s : Layout) (inflight : list Extent) : Prop :=
  alloc_inv (offset_ s) (hole_list_ s) (live_extents s ++ inflight).

(** What the allocator leaves alone: everything but the hole list, the end
    of the file and the cached length. *)
Definition same_contents (s s' : Layout) : Prop :=
  aio_file_ s' = aio_file_ s /\ options_compress s' = options_compress s /\
  superblock_ s' = superblock_ s /\ fly_writes_ s' = fly_writes_ s /\
  fly_reads_ s' = fly_reads_ s /\ block_index_ s' = block_index_ s /\
  block_offset_index_ s' = block_offset_index_ s /\ cb_trace s' = cb_trace s.

(** The hole list that the specification of [add_hole] describes: the new
    hole goes after its predecessor by offset, merged with the predecessor
    when the predecessor ends where it starts, and merged with the successor
    when the result ends where the successor starts. *)
Definition merge_succ (h : Hole) (post : list Hole) : list Hole :=
  match post with
  | n :: post' =>
      if decide (hole_end h = hole_offset n)
      then mkHole (hole_offset h) (hole_size h + hole_size n) :: post'
      else h :: post
  | [] => [h]
  end.

Definition merge_pred (p h : Hole) (post : list Hole) : list Hole :=
  if decide (hole_end p = hole_offset h)
  then merge_succ (mkHole (hole_offset p) (hole_size p + hole_size h)) post
  else p :: merge_succ h post.

Fixpoint insert_coalesce (h : Hole) (l : list Hole) : list Hole :=
  match l with
  | [] => [h]
  | p :: t =>
      if decide (hole_offset p < hole_offset h) then
        match t with
        | n :: _ =>
            if decide (hole_offset n < hole_offset h)
            then p :: insert_coalesce h t
            else merge_pred p h t
        | [] => merge_pred p h t
        end
      else merge_succ h l
  end.

(** The metadata that survives the fixed-width fields of the index block. *)
Definition meta_wire_ok (m : BlockMeta) : Prop :=
  0 <= meta_offset m < U64_MOD /\
  0 <= meta_inflated_size m < 4294967296 /\
  0 <= meta_compressed_size m < 4294967296 /\
  0 <= meta_crc m < 65536.

(** What is assumed of the codec: decompression inverts compression, and a
    compressed stream is never empty and never longer than the bound that the
    library announces. *)
Record SnappyLaws `{Snappy} : Prop := mkLaws {
  snappy_roundtrip : forall x, RawUncompress (RawCompress x) = Some x;
  snappy_nonempty : forall x, 0 < zlen (RawCompress x);
  snappy_bound : forall x, zlen (RawCompress x) <= MaxCompressedLength (zlen x)
}.

(** ** The bytes of the serialized metadata *)

Definition encode_meta (m : BlockMeta) : list byte :=
  le_encode 8 (meta_offset m) ++ le_encode 4 (meta_inflated_size m)
  ++ le_encode 4 (meta_compressed_size m) ++ le_encode 2 (meta_crc m).

Definition encode_entry (e : Z * BlockMeta) : list byte :=
  le_encode 8 e.1 ++ encode_meta e.2.

Definition encode_entries (es : list (Z * BlockMeta)) : list byte :=
  concat (encode_entry <$> es).

(** The payload of the index block: the count, then the entries by
    increasing block id. *)
Definition encode_index (idx : gmap Z BlockMeta) : list byte :=
  le_encode 4 (Z.of_nat (size idx)) ++ encode_entries (map_entries idx).

Definition encode_superblock (sb : SuperBlock) : list byte :=
  le_encode 8 (magic_number sb) ++ le_encode 1 (major_version sb)
  ++ le_encode 1 (minor_version sb) ++ le_encode 1 (Z_of_Compress (compress sb))
  ++ match index_block_meta sb with
     | Some m => le_encode 1 1 ++ encode_meta m
     | None => le_encode 1 0
     end
  ++ le_encode 2 (sb_crc sb).

(** The size that [compress_data] reports for a payload. *)
Definition compressed_size_of `{Snappy} (opt : Compress) (payload : list byte) : Z :=
  match opt with
  | kNoCompress => zlen payload
  | kSnappyCompress => zlen (RawCompress payload)
  | kOtherCompress _ => 0
  end.

(** The configured compression is one that [compress_data] supports, and
    the codec behaves when it is used. *)
Definition compress_ok `{Snappy} (opt : Compress) : Prop :=
  opt = kNoCompress \/ (opt = kSnappyCompress /\ SnappyLaws).

(** A block as [async_write] requires it: the buffer is the page round-up
    of the size. *)
Definition block_ok (b : Block) : Prop :=
  0 <= blk_size b /\ blk_limit b = PAGE_ROUND_UP (blk_size b).

(** A block whose contents are [d] and whose buffer goes on with [rest]. *)
Definition block_view (b : Block) (d rest : list byte) : Prop :=
  blk_buf b = d ++ rest /\ blk_size b = zlen d.

(** A reader that has consumed [pre] and has [rest] left to read. *)
Definition reader_view (r : BlockReader) (pre rest : list byte) : Prop :=
  (exists tail, blk_buf (rd_block r) = pre ++ rest ++ tail)
  /\ blk_size (rd_block r) = zlen (pre ++ rest)
  /\ rd_pos r = zlen pre.

Definition entry_wire_ok (e : Z * BlockMeta) : Prop :=
  0 <= e.1 < U64_MOD /\ meta_wire_ok e.2.

(** The index that the entries of an index block build, read in order. *)
Definition index_of_entries (idx : gmap Z BlockMeta) (es : list (Z * BlockMeta))
    : gmap Z BlockMeta :=
  foldl (fun acc e => <[e.1 := e.2]> acc) idx es.

(** The header fields of a superblock fit their fixed-width encodings, and
    its compression is one of the two the format knows. *)
Definition super_wire_ok (sb : SuperBlock) : Prop :=
  0 <= magic_number sb < U64_MOD /\ 0 <= major_version sb < 256
  /\ 0 <= minor_version sb < 256 /\ 0 <= sb_crc sb < 65536
  /\ (compress sb = kNoCompress \/ compress sb = kSnappyCompress).

(** The buffer from which [flush_index] compresses the index: the payload,
    padded with the rest of the page-aligned buffer. *)
Definition index_image (idx : gmap Z BlockMeta) : list byte :=
  encode_index idx
  ++ drop (length (encode_index idx)) (zeros (PAGE_ROUND_UP (zlen (encode_index idx)))).

(** The superblock with its index block set to [m]. *)
Definition with_index_meta (sb : SuperBlock) (m : option BlockMeta) : SuperBlock :=
  mkSuper (magic_number sb) (major_version sb) (minor_version sb) (compress sb) m (sb_crc sb).

(** The page that [flush_superblock] writes twice. *)
Definition superblock_image (sb : SuperBlock) : list byte :=
  encode_superblock sb
  ++ drop (length (encode_superblock sb)) (zeros (PAGE_ROUND_UP SUPER_BLOCK_SIZE)).





(** Whether the superblock copy at [off] parses: the flag that
    [read_superblock] returns on the page read from there. *)
Definition copy_valid (off : Z) (s : Layout) : bool :=
  (read_superblock
     (mkReader (mkBlock (aio_read off SUPER_BLOCK_SIZE (aio_file_ s)) SUPER_BLOCK_SIZE) 0)
     (superblock_ s)).1.




Definition all_ok_flush : FlushIO := mkFlushIO true true true.
Definition all_ok_init : InitIO := mkInitIO true true true.

(** ** A run-length codec

    The Snappy library is an external collaborator; the layout asks of it
    only what [SnappyLaws] states.  This lossless run-length codec stands for
    it where a property is evaluated on a concrete file: a header byte, then
    one pair (count, byte) for each run of at most 255 equal bytes. *)
Fixpoint rle_runs (l : list byte) : list (nat * byte) :=
  match l with
  | [] => []
  | x :: l' =>
      match rle_runs l' with
      | (n, y) :: r =>
          if Byte.eqb x y && Nat.ltb n 255 then (S n, y) :: r else (1%nat, x) :: (n, y) :: r
      | [] => [(1%nat, x)]
      end
  end.

Definition rle_flatten (rs : list (nat * byte)) : list byte :=
  flat_map (fun p => [byte_of_Z (Z.of_nat p.1); p.2]) rs.

Definition rle_expand (rs : list (nat * byte)) : list byte :=
  flat_map (fun p => replicate p.1 p.2) rs.

Fixpoint rle_parse (l : list byte) : option (list (nat * byte)) :=
  match l with
  | [] => Some []
  | n :: y :: r => rs ← rle_parse r; Some ((Z.to_nat (Z_of_byte n), y) :: rs)
  | _ => None
  end.

Definition rle_compress (l : list byte) : list byte := "001"%byte :: rle_flatten (rle_runs l).

Definition rle_uncompress (l : list byte) : option (list byte) :=
  match l with
  | _ :: l' => rle_expand <$> rle_parse l'
  | [] => None
  end.

Definition run_length_codec : Snappy :=
  {| RawCompress := rle_compress;
     RawUncompress := rle_uncompress;
     MaxCompressedLength := fun n => 1 + 2 * n |}.

(** ** A concrete file

    A data file created empty, with the magic number and the version of the
    example, and the operations on which the properties are evaluated. *)
Section Scenario.

#[local] Existing Instance run_length_codec.

Definition scenario_superblock : SuperBlock := SuperBlock_new 3405691582 0 1.

Definition scenario_new (f : AIOFile) (opt : Compress) : Layout :=
  Layout_new scenario_superblock f (file_len f) opt.

(** The layout after [init(create=true)] on an empty file. *)
Definition scenario_created (opt : Compress) : Layout :=
  match init true all_ok_init (scenario_new empty_file opt) with
  | Some (_, s) => s
  | None => scenario_new empty_file opt
  end.

(** A block of one page that holds the [n] bytes [v]. *)
Definition scenario_block (n : Z) (v : Z) : Block :=
  mkBlock (replicate (Z.to_nat n) (byte_of_Z v) ++ zeros (PAGE_ROUND_UP n - n)) n.

(** Blocks [0 .. n-1] of one byte each are written, and each write
    completes with success before the next begins. *)
Definition scenario_writes (n : nat) : list Op :=
  flat_map (fun i => [OpAsyncWrite (Z.of_nat i) (scenario_block 1 (Z.of_nat i)) 0;
                      OpComplete 0 true]) (seq 0 n).

(** 159 blocks are written and block 100 is deleted; the write of the
    index block fails in the [flush] that follows. *)
Definition scenario_ops : list Op :=
  scenario_writes 159 ++ [OpDelete 100].

Definition scenario_before_flush : option System :=
  run scenario_ops (mkSys (scenario_created kSnappyCompress) []).

Definition index_write_fails : FlushIO := mkFlushIO false true true.

Definition scenario_failed_flush : option (bool * Layout) :=
  w ← scenario_before_flush; flush index_write_fails (sys_layout w).

(** The same, as a run of the system. *)
Definition scenario_after_flush : option System :=
  run (scenario_ops ++ [OpFlush index_write_fails])
    (mkSys (scenario_created kSnappyCompress) []).

(** A layout with two holes, of one page and of three, below the end of
    the file. *)
Definition scenario_holes : Layout :=
  set_hole_list_ [mkHole 8192 4096; mkHole 20480 12288]
    (set_offset_ 40960 (scenario_created kNoCompress)).

(** A write in flight: the request that [async_write] builds for a block of
    three bytes, and the layout that it leaves. *)
Definition scenario_async_write : option (AsyncWriteReq * Layout) :=
  async_write 7 (scenario_block 3 65) 0 (scenario_created kNoCompress).

Definition scenario_request : AsyncWriteReq :=
  match scenario_async_write with
  | Some (req, _) => req
  | None => mkReq 7 0 BlockMeta_new []
  end.

Definition scenario_writing : Layout :=
  match scenario_async_write with
  | Some (_, s) => s
  | None => scenario_created kNoCompress
  end.

(** The layout once that write has completed with success: block 7 is
    stored. *)
Definition scenario_stored : Layout :=
  match complete_async_write scenario_request true scenario_writing with
  | Some s => s
  | None => scenario_writing
  end.


(** The layout once block 7 is stored and the metadata is flushed: the file
    holds the index block and a superblock that names it. *)
Definition scenario_flushed : Layout :=
  match flush all_ok_flush scenario_stored with
  | Some (_, s) => s
  | None => scenario_stored
  end.

End Scenario.

(** The idempotence of [flush] as the specification words it: a second
    [flush] right after a first leaves the same bytes on disk, the length of
    the file included. *)
Definition flush_idempotent_at `{Snappy} (s : Layout) : Prop :=
  forall s1 s2, flush all_ok_flush s = Some (true, s1) ->
    flush all_ok_flush s1 = Some (true, s2) ->
    file_eq (aio_file_ s1) (aio_file_ s2).



(** ** Asynchronous reads *)









(** A byte of the file is free: it belongs to a hole, or it lies at or
    after the end of the file. *)
Definition is_free (s : Layout) (x : Z) : Prop :=
  in_holes (hole_list_ s) x \/ offset_ s <= x.


(* ================================================================== *)
(** * Part II: properties                                              *)
(* ================================================================== *)

(** ** Arithmetic *)

Lemma add64_small (a b : Z) : 0 <= a + b < U64_MOD -> add64 a b = a + b.
Proof. intros Hab. unfold add64. apply Z.mod_small. exact Hab. Qed.

Lemma add64_range (a b : Z) : 0 <= add64 a b < U64_MOD.
Proof. unfold add64. apply Z.mod_pos_bound. reflexivity. Qed.

Lemma PAGE_ROUND_UP_ge (x : Z) : x <= PAGE_ROUND_UP x.
Proof.
  unfold PAGE_ROUND_UP, PAGE_SIZE.
  pose proof (Z.div_mod (x + 4096 - 1) 4096 ltac:(lia)) as Hd.
  pose proof (Z.mod_pos_bound (x + 4096 - 1) 4096 ltac:(lia)) as Hm.
  lia.
Qed.


Lemma PAGE_ROUND_UP_pos (x : Z) : 0 < x -> 0 < PAGE_ROUND_UP x.
Proof. intros Hx. pose proof (PAGE_ROUND_UP_ge x). lia. Qed.

Lemma PAGE_ROUND_UP_nonneg (x : Z) : 0 <= x -> 0 <= PAGE_ROUND_UP x.
Proof. intros Hx. pose proof (PAGE_ROUND_UP_ge x). lia. Qed.

Lemma zlen_app {A} (l1 l2 : list A) : zlen (l1 ++ l2) = zlen l1 + zlen l2.
Proof. unfold zlen. rewrite length_app. lia. Qed.

Lemma zlen_nonneg {A} (l : list A) : 0 <= zlen l.
Proof. unfold zlen. lia. Qed.


(** ** First fit: [get_hole] *)

Lemma hole_list_get_none (size : Z) (l : list Hole) :
  Forall (fun g => hole_size g < size) l -> hole_list_get size l = None.
Proof.
  induction 1 as [|g l Hg _ IH]; [reflexivity|]. simpl.
  destruct (decide (hole_size g > size)); [lia|].
  destruct (decide (hole_size g = size)); [lia|].
  rewrite IH. reflexivity.
Qed.

Lemma hole_list_get_first (size : Z) (pre : list Hole) (h : Hole) (post : list Hole) :
  Forall (fun g => hole_size g < size) pre ->
  size <= hole_size h ->
  hole_list_get size (pre ++ h :: post) =
    Some (hole_offset h,
          pre ++ (if decide (hole_size h = size) then post
                  else mkHole (add64 (hole_offset h) size) (hole_size h - size) :: post)).
Proof.
  intros Hpre Hh. induction Hpre as [|g pre Hg _ IH]; simpl.
  - destruct (decide (hole_size h > size)) as [Hgt|Hle].
    + destruct (decide (hole_size h = size)); [lia|reflexivity].
    + destruct (decide (hole_size h = size)); [reflexivity|lia].
  - destruct (decide (hole_size g > size)); [lia|].
    destruct (decide (hole_size g = size)); [lia|].
    rewrite IH. reflexivity.
Qed.

(** C4.  [get_hole(size)] is first fit over the hole list.  When [h] is the
    first hole of the list whose size is at least [size], the result is the
    offset of [h]; [h] leaves the list when its size is exactly [size], and
    otherwise stays with its offset advanced by [size] and its size decreased
    by [size].  When every hole is smaller than [size], the result is none and
    the layout is unchanged. *)
Theorem get_hole_first_fit (size : Z) (s : Layout) :
  (forall pre h post,
      hole_list_ s = pre ++ h :: post ->
      Forall (fun g => hole_size g < size) pre ->
      size <= hole_size h ->
      0 <= size -> 0 <= hole_offset h -> hole_end h < U64_MOD ->
      get_hole size s =
        (Some (hole_offset h),
         set_hole_list_
           (pre ++ (if decide (hole_size h = size) then post
                    else mkHole (hole_offset h + size) (hole_size h - size) :: post)) s))
  /\ (Forall (fun g => hole_size g < size) (hole_list_ s) -> get_hole size s = (None, s)).
Proof.
  split.
  - intros pre h post Hl Hpre Hh Hsz Hoff Hend. unfold get_hole.
    rewrite Hl, (hole_list_get_first size pre h post Hpre Hh).
    rewrite add64_small; [reflexivity|]. unfold hole_end in Hend. lia.
  - intros Hall. unfold get_hole. rewrite (hole_list_get_none size _ Hall). reflexivity.
Qed.

(** ** Deleting a block that is not in the index *)

(** C10.  For a block id that the block index does not hold, [delete_block]
    returns normally and leaves the whole state as it was: both views of the
    index, the hole list, the end of the file and the file itself. *)
Theorem delete_block_absent_noop (bid : Z) (s : Layout) :
  block_index_ s !! bid = None -> delete_block bid s = Some s.
Proof. intros Hnone. unfold delete_block, get_block_meta. rewrite Hnone. reflexivity. Qed.

(** ** The binary search and the coalescing insertion of [add_hole] *)

Lemma bsearch_split (l : list Hole) (off : Z) (k : nat) :
  (forall i h, l !! i = Some h -> (hole_offset h < off <-> (i < k)%nat)) ->
  forall count first prev,
    (first <= k <= first + count)%nat -> (first + count <= length l)%nat ->
    prev = Nat.pred first ->
    bsearch l off first prev count = Nat.pred k.
Proof.
  intros Hsplit count. induction count as [count IH] using lt_wf_ind.
  intros first prev Hk Hlen Hprev. destruct count as [|c].
  - simp bsearch. subst prev. f_equal. lia.
  - simp bsearch. cbn zeta.
    pose proof (half_lt (S c) ltac:(lia)) as Hstep.
    destruct (l !! (first + half (S c))%nat) as [h|] eqn:Hit.
    + pose proof (Hsplit _ _ Hit) as Hh.
      destruct (decide (hole_offset h < off)) as [Hlt|Hge].
      * apply IH; [lia| |lia|reflexivity]. apply Hh in Hlt. lia.
      * apply IH; [exact Hstep| |lia|exact Hprev].
        assert (~ (first + half (S c) < k)%nat) by (intros Hc; apply Hge, Hh, Hc). lia.
    + apply lookup_ge_None_1 in Hit. lia.
Qed.

Lemma holes_sorted_weaken (lo lo' : Z) (l : list Hole) :
  lo' <= lo -> holes_sorted lo l -> holes_sorted lo' l.
Proof. destruct l; simpl; [tauto|]. intros Hle (H1 & H2 & H3). repeat split; [lia|lia|exact H3]. Qed.

Lemma holes_sorted_lower (lo : Z) (l : list Hole) :
  holes_sorted lo l -> Forall (fun g => lo <= hole_offset g /\ 0 < hole_size g) l.
Proof.
  revert lo. induction l as [|h t IH]; intros lo Hs; [constructor|].
  destruct Hs as (H1 & H2 & H3). constructor; [lia|].
  apply IH in H3. eapply Forall_impl; [exact H3|]. unfold hole_end. simpl. intros g Hg. lia.
Qed.

Lemma holes_sorted_app (lo : Z) (l1 l2 : list Hole) :
  holes_sorted lo (l1 ++ l2) ->
  holes_sorted lo l1 /\ holes_sorted lo l2 /\
  Forall (fun g => Forall (fun g' => hole_end g < hole_offset g') l2) l1.
Proof.
  revert lo. induction l1 as [|h t IH]; intros lo Hs; simpl in *.
  - repeat split; [exact Hs|constructor].
  - destruct Hs as (H1 & H2 & H3). destruct (IH _ H3) as (Ha & Hb & Hc).
    repeat split; try assumption.
    + eapply holes_sorted_weaken; [|exact Hb]. unfold hole_end. lia.
    + constructor; [|exact Hc].
      apply holes_sorted_lower in Hb. eapply Forall_impl; [exact Hb|]. simpl. intros g Hg. lia.
Qed.

(** A hole list splits around a new hole that overlaps none of its holes. *)
Lemma holes_split (lo : Z) (hole : Hole) (l : list Hole) :
  holes_sorted lo l -> 0 < hole_size hole ->
  Forall (fun g => hole_end g <= hole_offset hole \/ hole_end hole <= hole_offset g) l ->
  exists pre post, l = pre ++ post /\
    Forall (fun g => hole_end g <= hole_offset hole) pre /\
    Forall (fun g => hole_end hole <= hole_offset g) post.
Proof.
  intros Hs Hpos. revert lo Hs. induction l as [|h t IH]; intros lo Hs Hdis.
  - exists [], []. repeat split; constructor.
  - destruct Hs as (H1 & H2 & H3). inversion Hdis as [|? ? Hh Ht]; subst.
    destruct Hh as [Hbefore|Hafter].
    + destruct (IH _ H3 Ht) as (pre & post & -> & Hpre & Hpost).
      exists (h :: pre), post. repeat split; [constructor; assumption|assumption].
    + exists [], (h :: t). repeat split; [constructor|].
      constructor; [exact Hafter|].
      apply holes_sorted_lower in H3. eapply Forall_impl; [exact H3|].
      unfold hole_end in *. simpl. intros g Hg. lia.
Qed.

Lemma insert_coalesce_snoc (hole p : Hole) (pre post : list Hole) :
  Forall (fun g => hole_offset g < hole_offset hole) (pre ++ [p]) ->
  Forall (fun g => ~ hole_offset g < hole_offset hole) post ->
  insert_coalesce hole (pre ++ p :: post) = pre ++ merge_pred p hole post.
Proof.
  intros Hpre Hpost. induction pre as [|q pre IH]; simpl in *.
  - inversion Hpre; subst. destruct (decide (hole_offset p < hole_offset hole)); [|lia].
    destruct post as [|n post]; [reflexivity|]. inversion Hpost; subst.
    destruct (decide (hole_offset n < hole_offset hole)); [lia|reflexivity].
  - inversion Hpre as [|? ? Hq Hrest]; subst.
    destruct (decide (hole_offset q < hole_offset hole)); [|lia].
    destruct (pre ++ p :: post) as [|n rest] eqn:Heq.
    + destruct pre; discriminate.
    + assert (hole_offset n < hole_offset hole) as Hn.
      { destruct pre as [|r pre]; simpl in *; inversion Heq; subst;
          inversion Hrest; subst; assumption. }
      destruct (decide (hole_offset n < hole_offset hole)); [|lia].
      rewrite IH by exact Hrest. reflexivity.
Qed.

(** The code of [add_hole] computes the coalescing insertion, and none of
    its assertions fails, when the hole list is sorted and the new hole
    overlaps no hole of the list. *)
Lemma hole_list_add_search_correct (hole : Hole) (pre post : list Hole) :
  pre ++ post ≠ [] ->
  holes_sorted 0 (pre ++ post) ->
  Forall (fun g => hole_end g < U64_MOD) (pre ++ post) ->
  0 <= hole_offset hole -> 0 < hole_size hole -> hole_end hole < U64_MOD ->
  Forall (fun g => hole_end g <= hole_offset hole) pre ->
  Forall (fun g => hole_end hole <= hole_offset g) post ->
  hole_list_add_search hole (pre ++ post) = Some (insert_coalesce hole (pre ++ post)).
Proof.
  intros Hne Hs Hb Hoff Hsz Hend Hpre Hpost.
  pose proof (holes_sorted_lower _ _ Hs) as Hlow.
  assert (Hoffs : forall i h, (pre ++ post) !! i = Some h ->
            (hole_offset h < hole_offset hole <-> (i < length pre)%nat)).
  { intros i h Hi. apply lookup_app_Some in Hi as [Hi|[Hge Hi]].
    - pose proof (lookup_lt_Some _ _ _ Hi).
      assert (h ∈ pre ++ post) as Hin by (apply elem_of_app; left; eapply list_elem_of_lookup_2; eauto).
      rewrite Forall_forall in Hlow, Hpre. specialize (Hlow _ Hin).
      assert (h ∈ pre) as Hin' by (eapply list_elem_of_lookup_2; eauto).
      specialize (Hpre _ Hin'). unfold hole_end in *. split; intros; lia.
    - assert (h ∈ post) as Hin' by (eapply list_elem_of_lookup_2; eauto).
      rewrite Forall_forall in Hpost. specialize (Hpost _ Hin').
      unfold hole_end in *. split; intros; lia. }
  pose proof (bsearch_split _ _ _ Hoffs (length (pre ++ post)) 0%nat 0%nat) as Hbs.
  specialize (Hbs ltac:(rewrite length_app; lia) ltac:(lia) eq_refl).
  unfold hole_list_add_search. cbn zeta. rewrite Hbs. clear Hbs Hoffs.
  destruct pre as [|p pre _] using rev_ind.
  - (* the new hole goes before every hole *)
    destruct post as [|n post]; [done|]. simpl in *.
    inversion Hpost as [|? ? Hn _]; subst. inversion Hb as [|? ? Hnb _]; subst.
    destruct Hs as (Hn0 & Hnsz & _). unfold hole_end in *.
    rewrite (add64_small (hole_offset hole)) by lia.
    destruct (decide (0%nat = 0%nat /\ hole_offset n > hole_offset hole)) as [_|Hc]; [|lia].
    rewrite option_guard_True by lia. simpl.
    destruct (decide (hole_offset n < hole_offset hole)); [lia|].
    destruct (decide (hole_offset hole + hole_size hole = hole_offset n)); [|reflexivity].
    rewrite add64_small by lia. rewrite drop_0. do 3 f_equal. lia.
  - (* [p] is the predecessor of the new hole *)
    rewrite <- (assoc_L (++)) in *. simpl in *.
    rewrite length_app. simpl. replace (Nat.pred (length pre + 1)) with (length pre) by lia.
    rewrite list_lookup_middle by reflexivity. simpl.
    apply Forall_app in Hpre as [Hpre Hp]. inversion Hp as [|? ? Hpend _]; subst.
    apply holes_sorted_app in Hs as (_ & Hs2 & _).
    apply Forall_app in Hb as [_ Hb2]. apply Forall_app in Hlow as [Hlow1 Hlow2].
    inversion Hlow2 as [|? ? [Hp0 Hpsz] Hlow3]; subst.
    inversion Hb2 as [|? ? Hpb Hb3]; subst.
    unfold hole_end in *.
    destruct (decide (length pre = 0%nat /\ hole_offset p > hole_offset hole)) as [[_ Hc]|_]; [lia|].
    rewrite option_guard_True by lia. simpl.
    rewrite (add64_small (hole_offset p)) by lia.
    rewrite option_guard_True by lia. simpl.
    rewrite take_app_length.
    replace (S (length pre)) with (length (pre ++ [p])) by (rewrite length_app; simpl; lia).
    replace (pre ++ p :: post) with ((pre ++ [p]) ++ post) by (rewrite <- (assoc_L (++)); reflexivity).
    rewrite drop_app_length. rewrite <- (assoc_L (++)). simpl.
    rewrite insert_coalesce_snoc.
    2:{ apply Forall_app. split.
        - rewrite Forall_forall in Hpre, Hlow1 |- *. intros g Hg.
          specialize (Hpre _ Hg). specialize (Hlow1 _ Hg). lia.
        - constructor; [lia|constructor]. }
    2:{ eapply Forall_impl; [exact Hpost|]. simpl. intros g Hg. lia. }
    unfold merge_pred, merge_succ, hole_end.
    destruct (decide (hole_offset p + hole_size p = hole_offset hole)) as [Hm|Hm].
    + simpl. rewrite (add64_small (hole_size p)) by lia.
      destruct post as [|n post]; [reflexivity|].
      inversion Hpost as [|? ? Hn _]; subst. inversion Hb3 as [|? ? Hnb _]; subst.
      inversion Hlow3 as [|? ? [Hn0 Hnsz] _]; subst. simpl.
      rewrite (add64_small (hole_offset p)) by lia.
      destruct (decide (hole_offset p + (hole_size p + hole_size hole) = hole_offset n)); [|reflexivity].
      rewrite add64_small by lia. reflexivity.
    + destruct post as [|n post]; [rewrite <- (assoc_L (++)); reflexivity|].
      inversion Hpost as [|? ? Hn _]; subst. inversion Hb3 as [|? ? Hnb _]; subst.
      inversion Hlow3 as [|? ? [Hn0 Hnsz] _]; subst. simpl.
      rewrite (add64_small (hole_offset hole)) by lia.
      destruct (decide (hole_offset hole + hole_size hole = hole_offset n)).
      * rewrite add64_small by lia. rewrite <- (assoc_L (++)). reflexivity.
      * rewrite <- (assoc_L (++)). reflexivity.
Qed.

Lemma hole_list_add_correct (hole : Hole) (l : list Hole) :
  holes_sorted 0 l ->
  Forall (fun g => hole_end g < U64_MOD) l ->
  0 <= hole_offset hole -> 0 < hole_size hole -> hole_end hole < U64_MOD ->
  Forall (fun g => hole_end g <= hole_offset hole \/ hole_end hole <= hole_offset g) l ->
  hole_list_add hole l = Some (insert_coalesce hole l).
Proof.
  intros Hs Hb Hoff Hsz Hend Hdis.
  destruct l as [|x rest] eqn:Hl; [reflexivity|].
  unfold hole_list_add. rewrite <- Hl in *.
  destruct (holes_split 0 hole l Hs Hsz Hdis) as (pre & post & Heq & Hpre & Hpost).
  rewrite Heq in *. apply hole_list_add_search_correct; try assumption.
  rewrite Hl. discriminate.
Qed.


(** ** The coalescing insertion keeps the hole list well formed *)

#[local] Arguments merge_succ : simpl never.
#[local] Arguments merge_pred : simpl never.

Lemma total_size_app (l1 l2 : list Extent) :
  total_size (l1 ++ l2) = total_size l1 + total_size l2.
Proof. induction l1 as [|e l1 IH]; simpl; [reflexivity|]. rewrite IH. lia. Qed.

Lemma total_size_perm (l1 l2 : list Extent) : l1 ≡ₚ l2 -> total_size l1 = total_size l2.
Proof. induction 1; simpl; lia. Qed.

Lemma total_size_holes_cons (h : Hole) (l : list Hole) :
  total_size (hole_extent <$> h :: l) = hole_size h + total_size (hole_extent <$> l).
Proof. reflexivity. Qed.

Lemma in_holes_cons (h : Hole) (l : list Hole) (x : Z) :
  in_holes (h :: l) x <-> (hole_offset h <= x < hole_end h) \/ in_holes l x.
Proof. unfold in_holes. apply Exists_cons. Qed.

Lemma in_holes_nil (x : Z) : ~ in_holes [] x.
Proof. unfold in_holes. intros H. inversion H. Qed.

Lemma in_holes_app (l1 l2 : list Hole) (x : Z) :
  in_holes (l1 ++ l2) x <-> in_holes l1 x \/ in_holes l2 x.
Proof. unfold in_holes. apply Exists_app. Qed.

Lemma merge_succ_sorted (lo : Z) (h : Hole) (post : list Hole) :
  lo <= hole_offset h -> 0 < hole_size h ->
  holes_sorted lo post ->
  Forall (fun g => hole_end h <= hole_offset g) post ->
  holes_sorted lo (merge_succ h post).
Proof.
  intros Hlo Hsz Hs Hpost. unfold merge_succ.
  destruct post as [|n post]; simpl; [unfold hole_end; lia|].
  destruct Hs as (Hn1 & Hn2 & Hn3). inversion Hpost as [|? ? Hn _]; subst.
  destruct (decide (hole_end h = hole_offset n)) as [Heq|Hne]; simpl.
  - repeat split; [lia|lia|].
    eapply holes_sorted_weaken; [|exact Hn3]. unfold hole_end in *. simpl. lia.
  - repeat split; [lia|lia| |lia|exact Hn3]. unfold hole_end in *. lia.
Qed.

Lemma merge_succ_props (h : Hole) (post : list Hole) :
  0 <= hole_size h -> Forall (fun g => 0 <= hole_size g) post ->
  (forall x, in_holes (merge_succ h post) x <-> in_holes (h :: post) x)
  /\ total_size (hole_extent <$> merge_succ h post) = hole_size h + total_size (hole_extent <$> post)
  /\ (forall hi, hole_end h <= hi -> Forall (fun g => hole_end g <= hi) post ->
        Forall (fun g => hole_end g <= hi) (merge_succ h post)).
Proof.
  intros Hsz Hpost. unfold merge_succ. destruct post as [|n post].
  - repeat split; try tauto. intros hi Hh _. constructor; [exact Hh|constructor].
  - inversion Hpost as [|? ? Hn Hrest]; subst.
    destruct (decide (hole_end h = hole_offset n)) as [Heq|Hne].
    + repeat split.
      * rewrite !in_holes_cons. unfold hole_end in *. simpl. intuition lia.
      * rewrite !in_holes_cons. unfold hole_end in *. simpl. intuition lia.
      * rewrite !total_size_holes_cons. simpl. lia.
      * intros hi Hh Hall. inversion Hall; subst. constructor; [|assumption].
        unfold hole_end in *. simpl. lia.
    + repeat split; try tauto. intros hi Hh Hall. constructor; assumption.
Qed.

Lemma merge_pred_sorted (lo : Z) (p h : Hole) (post : list Hole) :
  lo <= hole_offset p -> 0 < hole_size p -> 0 < hole_size h ->
  hole_end p <= hole_offset h ->
  holes_sorted (hole_end p + 1) post ->
  Forall (fun g => hole_end h <= hole_offset g) post ->
  holes_sorted lo (merge_pred p h post).
Proof.
  intros Hlo Hp Hh Hph Hs Hpost. unfold merge_pred.
  destruct (decide (hole_end p = hole_offset h)) as [Heq|Hne].
  - apply merge_succ_sorted; simpl; [lia|lia| |].
    + eapply holes_sorted_weaken; [|exact Hs]. unfold hole_end. lia.
    + eapply Forall_impl; [exact Hpost|]. unfold hole_end in *. simpl. intros g Hg. lia.
  - simpl. repeat split; [lia|lia|].
    apply merge_succ_sorted; [lia|lia|exact Hs|exact Hpost].
Qed.

Lemma merge_pred_props (p h : Hole) (post : list Hole) :
  0 <= hole_size p -> 0 <= hole_size h -> Forall (fun g => 0 <= hole_size g) post ->
  (forall x, in_holes (merge_pred p h post) x <-> in_holes (h :: p :: post) x)
  /\ total_size (hole_extent <$> merge_pred p h post)
     = hole_size h + total_size (hole_extent <$> p :: post)
  /\ (forall hi, hole_end h <= hi -> Forall (fun g => hole_end g <= hi) (p :: post) ->
        Forall (fun g => hole_end g <= hi) (merge_pred p h post)).
Proof.
  intros Hp Hh Hpost. unfold merge_pred.
  destruct (decide (hole_end p = hole_offset h)) as [Heq|Hne].
  - destruct (merge_succ_props (mkHole (hole_offset p) (hole_size p + hole_size h)) post)
      as (Hreg & Hsum & Hend); [simpl; lia|exact Hpost|].
    repeat split.
    + intros Hx. apply Hreg in Hx. revert Hx. rewrite !in_holes_cons.
      unfold hole_end in *. simpl. intuition lia.
    + intros Hx. apply Hreg. revert Hx. rewrite !in_holes_cons.
      unfold hole_end in *. simpl. intuition lia.
    + rewrite Hsum, !total_size_holes_cons. simpl. lia.
    + intros hi Hhi Hall. inversion Hall; subst. apply Hend; [|assumption].
      unfold hole_end in *. simpl. lia.
  - destruct (merge_succ_props h post Hh Hpost) as (Hreg & Hsum & Hend).
    split; [|split].
    + intros x. rewrite in_holes_cons, Hreg, !in_holes_cons. tauto.
    + rewrite !total_size_holes_cons, Hsum. lia.
    + intros hi Hhi Hall. inversion Hall; subst. constructor; [assumption|].
      apply Hend; assumption.
Qed.

Lemma insert_coalesce_sorted (hole : Hole) (l : list Hole) (lo : Z) :
  holes_sorted lo l -> lo <= hole_offset hole -> 0 < hole_size hole ->
  Forall (fun g => hole_end g <= hole_offset hole \/ hole_end hole <= hole_offset g) l ->
  holes_sorted lo (insert_coalesce hole l).
Proof.
  revert lo. induction l as [|p t IH]; intros lo Hs Hlo Hsz Hdis.
  - simpl. unfold hole_end. lia.
  - destruct Hs as (Hp1 & Hp2 & Hp3). inversion Hdis as [|? ? Hp Ht]; subst.
    assert (Hafter : ~ hole_offset p < hole_offset hole ->
              Forall (fun g => hole_end hole <= hole_offset g) (p :: t)).
    { intros Hnlt. constructor; [unfold hole_end in *; lia|].
      apply holes_sorted_lower in Hp3. eapply Forall_impl; [exact Hp3|].
      unfold hole_end in *. simpl. intros g Hg. lia. }
    assert (Hafter' : forall n t', t = n :: t' -> ~ hole_offset n < hole_offset hole ->
              Forall (fun g => hole_end hole <= hole_offset g) t).
    { intros n t' -> Hnlt. destruct Hp3 as (Hn1 & Hn2 & Hn3).
      inversion Ht as [|? ? Hn Ht']; subst.
      constructor; [unfold hole_end in *; lia|].
      apply holes_sorted_lower in Hn3. eapply Forall_impl; [exact Hn3|].
      unfold hole_end in *. simpl. intros g Hg. lia. }
    simpl. destruct (decide (hole_offset p < hole_offset hole)) as [Hlt|Hnlt].
    + assert (hole_end p <= hole_offset hole) as Hpe by (unfold hole_end in *; lia).
      destruct t as [|n t'].
      * apply merge_pred_sorted; try assumption; constructor.
      * destruct (decide (hole_offset n < hole_offset hole)) as [Hnl|Hnl].
        -- simpl. repeat split; [lia|lia|].
           apply IH; try assumption. destruct Hp3 as (Hn1 & _). lia.
        -- apply merge_pred_sorted; try assumption. eapply Hafter'; eauto.
    + apply merge_succ_sorted; [lia|lia| |apply Hafter; assumption].
      simpl. repeat split; assumption.
Qed.

Lemma insert_coalesce_props (hole : Hole) (l : list Hole) :
  0 <= hole_size hole -> Forall (fun g => 0 <= hole_size g) l ->
  (forall x, in_holes (insert_coalesce hole l) x <-> in_holes (hole :: l) x)
  /\ total_size (hole_extent <$> insert_coalesce hole l)
     = hole_size hole + total_size (hole_extent <$> l)
  /\ (forall hi, hole_end hole <= hi -> Forall (fun g => hole_end g <= hi) l ->
        Forall (fun g => hole_end g <= hi) (insert_coalesce hole l)).
Proof.
  intros Hsz Hall. induction l as [|p t IH].
  - simpl. repeat split; try tauto. intros hi Hh _. constructor; [exact Hh|constructor].
  - inversion Hall as [|? ? Hp Ht]; subst. specialize (IH Ht).
    destruct IH as (IHreg & IHsum & IHend).
    assert (Hrec : (forall x, in_holes (p :: insert_coalesce hole t) x <-> in_holes (hole :: p :: t) x)
      /\ total_size (hole_extent <$> p :: insert_coalesce hole t)
         = hole_size hole + total_size (hole_extent <$> p :: t)
      /\ (forall hi, hole_end hole <= hi -> Forall (fun g => hole_end g <= hi) (p :: t) ->
            Forall (fun g => hole_end g <= hi) (p :: insert_coalesce hole t))).
    { split; [|split].
      - intros x. rewrite in_holes_cons, IHreg, !in_holes_cons. tauto.
      - rewrite !total_size_holes_cons, IHsum. lia.
      - intros hi Hh Hb. inversion Hb; subst. constructor; [assumption|]. apply IHend; assumption. }
    simpl. destruct (decide (hole_offset p < hole_offset hole)).
    + destruct t as [|n t'].
      * apply merge_pred_props; assumption.
      * destruct (decide (hole_offset n < hole_offset hole)).
        -- exact Hrec.
        -- apply merge_pred_props; assumption.
    + apply merge_succ_props; assumption.
Qed.

(** ** First fit keeps the hole list well formed *)

Lemma hole_list_get_props (size lo : Z) (l l' : list Hole) (off : Z) :
  0 <= lo -> 0 < size ->
  holes_sorted lo l -> Forall (fun g => hole_end g < U64_MOD) l ->
  hole_list_get size l = Some (off, l') ->
  holes_sorted lo l'
  /\ lo <= off
  /\ (forall x, in_holes l' x -> in_holes l x)
  /\ (forall x, off <= x < off + size -> in_holes l x /\ ~ in_holes l' x)
  /\ total_size (hole_extent <$> l') + size = total_size (hole_extent <$> l)
  /\ (forall hi, Forall (fun g => hole_end g <= hi) l ->
        off + size <= hi /\ Forall (fun g => hole_end g <= hi) l').
Proof.
  intros Hlo Hsz. revert lo l' Hlo. induction l as [|h t IH]; intros lo l' Hlo Hs Hb Hget;
    [discriminate|].
  destruct Hs as (Hh1 & Hh2 & Hh3). inversion Hb as [|? ? Hhb Htb]; subst.
  pose proof (holes_sorted_lower _ _ Hh3) as Hlow.
  assert (Hnot : forall x, x < hole_end h -> ~ in_holes t x).
  { intros x Hx Hin. unfold in_holes in Hin. rewrite Exists_exists in Hin.
    destruct Hin as (g & Hg & Hgx). rewrite Forall_forall in Hlow.
    specialize (Hlow _ Hg). lia. }
  simpl in Hget. unfold hole_end in *.
  destruct (decide (hole_size h > size)) as [Hgt|Hngt].
  - inversion Hget; subst; clear Hget. rewrite add64_small by lia.
    repeat split.
    + simpl. lia.
    + simpl. lia.
    + unfold hole_end. simpl. eapply holes_sorted_weaken; [|exact Hh3]. lia.
    + lia.
    + intros x. rewrite !in_holes_cons. unfold hole_end. simpl. intuition lia.
    + rewrite in_holes_cons. unfold hole_end. lia.
    + rewrite in_holes_cons. unfold hole_end. simpl. intros [Hx|Hx]; [lia|].
      apply (Hnot x); [unfold hole_end; lia|exact Hx].
    + rewrite !total_size_holes_cons. simpl. lia.
    + inversion H; subst. unfold hole_end in *. lia.
    + inversion H; subst. constructor; [|assumption]. unfold hole_end in *. simpl. lia.
  - destruct (decide (hole_size h = size)) as [Heq|Hne].
    + inversion Hget; subst; clear Hget. repeat split.
      * eapply holes_sorted_weaken; [|exact Hh3]. unfold hole_end. lia.
      * lia.
      * intros x Hx. rewrite in_holes_cons. tauto.
      * rewrite in_holes_cons. unfold hole_end. lia.
      * intros Hx. apply (Hnot x); [unfold hole_end; lia|exact Hx].
      * rewrite !total_size_holes_cons. lia.
      * inversion H; subst. unfold hole_end in *. lia.
      * inversion H; subst. assumption.
    + destruct (hole_list_get (hole_size h + (size - hole_size h)) t) as [[off' t']|] eqn:Hrec.
      2:{ replace (hole_size h + (size - hole_size h)) with size in Hrec by lia.
          rewrite Hrec in Hget. discriminate. }
      replace (hole_size h + (size - hole_size h)) with size in Hrec by lia.
      rewrite Hrec in Hget. inversion Hget; subst; clear Hget.
      destruct (IH (hole_offset h + hole_size h + 1) t' ltac:(lia) Hh3 Htb Hrec)
        as (Hs' & Hoff' & Hsub & Hrange & Hsum & Hends).
      repeat split.
      * simpl. lia.
      * simpl. lia.
      * exact Hs'.
      * lia.
      * intros x. rewrite !in_holes_cons. intros [Hx|Hx]; [tauto|right; apply Hsub, Hx].
      * rewrite in_holes_cons. right. apply (Hrange x). lia.
      * rewrite in_holes_cons. intros [Hx|Hx]; [unfold hole_end in Hx; lia|].
        apply (Hrange x); [lia|exact Hx].
      * rewrite !total_size_holes_cons. lia.
      * inversion H; subst. apply Hends. assumption.
      * inversion H; subst. constructor; [assumption|]. apply Hends. assumption.
Qed.

(** ** The allocator keeps the allocation invariant *)

Lemma ext_disjoint_sym (a b : Extent) : ext_disjoint a b -> ext_disjoint b a.
Proof. unfold ext_disjoint. tauto. Qed.

Lemma pairwise_disjoint_perm (l1 l2 : list Extent) :
  l1 ≡ₚ l2 -> pairwise_disjoint l1 -> pairwise_disjoint l2.
Proof.
  induction 1 as [|e l1 l2 Hp IH|a b l|l1 l2 l3 _ IH1 _ IH2]; simpl.
  - tauto.
  - intros [Hall Hrest]. split; [|apply IH, Hrest]. rewrite <- Hp. exact Hall.
  - intros [Hb [Ha Hl]]. inversion Hb as [|? ? Hba Hbl]; subst.
    repeat split; try assumption. constructor; [apply ext_disjoint_sym, Hba|exact Ha].
  - intros H. apply IH2, IH1, H.
Qed.

Lemma pairwise_disjoint_app (l1 l2 : list Extent) :
  pairwise_disjoint (l1 ++ l2) ->
  pairwise_disjoint l1 /\ pairwise_disjoint l2.
Proof.
  induction l1 as [|e l1 IH]; simpl; [tauto|].
  intros [Hall Hrest]. apply Forall_app in Hall as [Ha Hb]. destruct (IH Hrest). tauto.
Qed.

Lemma alloc_inv_perm (hi : Z) (holes : list Hole) (u1 u2 : list Extent) :
  u1 ≡ₚ u2 -> alloc_inv hi holes u1 -> alloc_inv hi holes u2.
Proof.
  intros Hp [H1 H2 H3 H4 H5 H6]. split; try assumption.
  - rewrite <- Hp. exact H4.
  - eapply pairwise_disjoint_perm; eassumption.
  - intros e x He. apply H6. rewrite Hp. exact He.
Qed.

Lemma alloc_conserved_perm (hi : Z) (holes : list Hole) (u1 u2 : list Extent) :
  u1 ≡ₚ u2 -> alloc_conserved hi holes u1 -> alloc_conserved hi holes u2.
Proof. unfold alloc_conserved. intros Hp. rewrite (total_size_perm _ _ Hp). tauto. Qed.

(** Two extents that are not empty and share no byte are disjoint. *)
Lemma ext_disjoint_points (a b : Extent) :
  0 < a.2 -> 0 < b.2 ->
  (forall x, in_extent a x -> in_extent b x -> False) -> ext_disjoint a b.
Proof.
  unfold ext_disjoint, in_extent, ext_end. intros Ha Hb Hno.
  destruct (decide (a.1 + a.2 <= b.1)) as [|H1]; [left; assumption|].
  destruct (decide (b.1 + b.2 <= a.1)) as [|H2]; [right; assumption|].
  exfalso. apply (Hno (Z.max a.1 b.1)); lia.
Qed.

Lemma holes_sorted_nonneg (lo : Z) (l : list Hole) :
  holes_sorted lo l -> Forall (fun g => 0 <= hole_size g) l.
Proof.
  intros Hs. apply holes_sorted_lower in Hs. eapply Forall_impl; [exact Hs|].
  simpl. intros g Hg. lia.
Qed.

(** Taking an extent out of a hole. *)
Lemma alloc_from_hole (hi size off : Z) (holes holes' : list Hole) (used : list Extent) :
  alloc_inv hi holes used -> 0 < size ->
  hole_list_get size holes = Some (off, holes') ->
  alloc_inv hi holes' ((off, size) :: used)
  /\ (alloc_conserved hi holes used -> alloc_conserved hi holes' ((off, size) :: used)).
Proof.
  intros [H1 H2 H3 H4 H5 H6] Hsz Hget.
  assert (Hb : Forall (fun g => hole_end g < U64_MOD) holes).
  { eapply Forall_impl; [exact H3|]. simpl. intros g Hg. lia. }
  destruct (hole_list_get_props size (SUPER_BLOCK_SIZE * 2) holes holes' off
              ltac:(unfold SUPER_BLOCK_SIZE; lia) Hsz H2 Hb Hget)
    as (Hs' & Hoff & Hsub & Hrange & Hsum & Hends).
  destruct (Hends hi H3) as [Hend Hends'].
  split.
  - split; try assumption.
    + constructor; [|exact H4]. unfold extent_ok, ext_end. simpl. lia.
    + simpl. split; [|exact H5].
      rewrite Forall_forall. intros e He.
      rewrite Forall_forall in H4. destruct (H4 _ He) as (_ & Hepos & _).
      apply ext_disjoint_points; [simpl; lia|exact Hepos|].
      intros x Hx Hex. apply (H6 e x He Hex). apply Hrange.
      unfold in_extent, ext_end in Hx. simpl in Hx. lia.
    + intros e x He Hex Hin. apply elem_of_cons in He as [->|He].
      * unfold in_extent, ext_end in Hex. simpl in Hex.
        apply (Hrange x); [lia|exact Hin].
      * apply (H6 e x He Hex). apply Hsub, Hin.
  - unfold alloc_conserved. simpl. lia.
Qed.

(** Taking an extent at the end of the file. *)
Lemma alloc_from_tail (hi size : Z) (holes : list Hole) (used : list Extent) :
  alloc_inv hi holes used -> 0 < size -> hi + size < U64_MOD ->
  alloc_inv (hi + size) holes ((hi, size) :: used)
  /\ (alloc_conserved hi holes used -> alloc_conserved (hi + size) holes ((hi, size) :: used)).
Proof.
  intros [H1 H2 H3 H4 H5 H6] Hsz Hfit. split.
  - split.
    + lia.
    + exact H2.
    + eapply Forall_impl; [exact H3|]. simpl. intros g Hg. lia.
    + constructor; [unfold extent_ok, ext_end; simpl; lia|].
      eapply Forall_impl; [exact H4|]. unfold extent_ok. intros e He. lia.
    + simpl. split; [|exact H5]. eapply Forall_impl; [exact H4|].
      unfold extent_ok, ext_disjoint, ext_end. simpl. intros e He. lia.
    + intros e x He Hex Hin. apply elem_of_cons in He as [->|He].
      * unfold in_extent, ext_end in Hex. simpl in Hex.
        unfold in_holes in Hin. rewrite Exists_exists in Hin.
        destruct Hin as (g & Hg & Hgx). rewrite Forall_forall in H3.
        specialize (H3 _ Hg). lia.
      * apply (H6 e x He Hex Hin).
  - unfold alloc_conserved. simpl. lia.
Qed.

(** Giving an extent in use back: to the end of the file when it ends
    there, to the hole list otherwise. *)
Lemma release_extent (hi : Z) (holes : list Hole) (e : Extent) (used : list Extent) :
  alloc_inv hi holes (e :: used) ->
  (ext_end e = hi ->
     alloc_inv e.1 holes used
     /\ (alloc_conserved hi holes (e :: used) -> alloc_conserved e.1 holes used))
  /\ (ext_end e ≠ hi ->
     hole_list_add (mkHole e.1 e.2) holes = Some (insert_coalesce (mkHole e.1 e.2) holes)
     /\ alloc_inv hi (insert_coalesce (mkHole e.1 e.2) holes) used
     /\ (alloc_conserved hi holes (e :: used) ->
         alloc_conserved hi (insert_coalesce (mkHole e.1 e.2) holes) used)).
Proof.
  intros [H1 H2 H3 H4 H5 H6].
  inversion H4 as [|? ? (He1 & He2 & He3) H4']; subst.
  destruct H5 as [H5e H5'].
  pose proof (holes_sorted_lower _ _ H2) as Hlow.
  assert (Hhd : Forall (fun g => hole_end g <= e.1 \/ ext_end e <= hole_offset g) holes).
  { rewrite Forall_forall in Hlow |- *. intros g Hg. destruct (Hlow _ Hg) as [Hg1 Hg2].
    destruct (ext_disjoint_points (hole_extent g) e) as [Hd|Hd];
      [simpl; lia|lia| |left; exact Hd|right; exact Hd].
    intros x Hgx Hex. apply (H6 e x); [left|exact Hex|].
    unfold in_holes. rewrite Exists_exists. exists g. split; [exact Hg|].
    unfold in_extent, ext_end, hole_extent, hole_end in *. simpl in *. lia. }
  unfold ext_end in *. split.
  - intros Hend. split.
    + split.
      * lia.
      * exact H2.
      * rewrite Forall_forall in Hhd, H3, Hlow |- *. intros g Hg.
        specialize (Hhd _ Hg). specialize (H3 _ Hg). specialize (Hlow _ Hg).
        unfold hole_end in *. lia.
      * rewrite Forall_forall in H4', H5e |- *. intros u Hu.
        specialize (H4' _ Hu). specialize (H5e _ Hu).
        unfold extent_ok, ext_disjoint, ext_end in *. lia.
      * exact H5'.
      * intros u x Hu. apply H6. right. exact Hu.
    + unfold alloc_conserved. simpl. lia.
  - intros Hne.
    assert (Hnn : Forall (fun g => 0 <= hole_size g) holes) by (eapply holes_sorted_nonneg; eauto).
    destruct (insert_coalesce_props (mkHole e.1 e.2) holes ltac:(simpl; lia) Hnn)
      as (Hreg & Hsum & Hends).
    split; [|split].
    + apply hole_list_add_correct; cbn [hole_offset hole_size].
      * eapply holes_sorted_weaken; [|exact H2]. unfold SUPER_BLOCK_SIZE. lia.
      * eapply Forall_impl; [exact H3|]. cbn beta. intros g Hg. lia.
      * unfold SUPER_BLOCK_SIZE in *. lia.
      * lia.
      * unfold hole_end. cbn [hole_offset hole_size]. lia.
      * exact Hhd.
    + split.
      * lia.
      * apply insert_coalesce_sorted; cbn [hole_offset hole_size]; [exact H2|lia|lia|exact Hhd].
      * apply Hends; [unfold hole_end; simpl; lia|exact H3].
      * exact H4'.
      * exact H5'.
      * intros u x Hu Hux Hin. apply Hreg in Hin. apply in_holes_cons in Hin as [Hin|Hin].
        -- rewrite Forall_forall in H5e, H4'. specialize (H5e _ Hu). specialize (H4' _ Hu).
           unfold hole_end, in_extent, ext_disjoint, ext_end, extent_ok in *. simpl in *. lia.
        -- apply (H6 u x); [right; exact Hu|exact Hux|exact Hin].
    + unfold alloc_conserved. rewrite Hsum. simpl. lia.
Qed.



Lemma same_contents_live (s s' : Layout) :
  same_contents s s' -> live_extents s' = live_extents s.
Proof.
  intros (_ & _ & Hsb & _ & _ & Hidx & _). unfold live_extents, index_extents.
  rewrite Hidx, Hsb. reflexivity.
Qed.

(** [get_offset] reserves an extent that was free. *)
Lemma get_offset_inv (size : Z) (s s' : Layout) (off : Z) (used : list Extent) :
  alloc_inv (offset_ s) (hole_list_ s) used -> 0 < size ->
  offset_ s + size < U64_MOD ->
  get_offset size s = (off, s') ->
  alloc_inv (offset_ s') (hole_list_ s') ((off, size) :: used)
  /\ (alloc_conserved (offset_ s) (hole_list_ s) used ->
      alloc_conserved (offset_ s') (hole_list_ s') ((off, size) :: used))
  /\ same_contents s s'
  /\ offset_ s <= offset_ s'.
Proof.
  intros Hinv Hsz Hfit. unfold get_offset, get_hole.
  destruct (hole_list_get size (hole_list_ s)) as [[o l']|] eqn:Hget.
  - intros Heq. inversion Heq; subst; clear Heq. simpl.
    destruct (alloc_from_hole _ _ _ _ _ _ Hinv Hsz Hget) as [Ha Hb].
    split; [exact Ha|]. split; [exact Hb|]. split; [|lia].
    unfold same_contents. simpl. tauto.
  - cbn zeta. pose proof (inv_offset _ _ _ Hinv) as Hhi.
    destruct (alloc_from_tail _ size _ _ Hinv Hsz Hfit) as [Ha Hb].
    destruct (decide (offset_ (set_offset_ (add64 (offset_ s) size) s)
                      > length_ (set_offset_ (add64 (offset_ s) size) s)));
      intros Heq; inversion Heq; subst; clear Heq; simpl;
      rewrite add64_small by (unfold SUPER_BLOCK_SIZE in *; lia);
      (split; [exact Ha|]; split; [exact Hb|]; split; [|lia];
       unfold same_contents; simpl; tauto).
Qed.

(** [add_hole] on an extent in use succeeds and frees it. *)
Lemma add_hole_inv (off size : Z) (s : Layout) (used : list Extent) :
  alloc_inv (offset_ s) (hole_list_ s) ((off, size) :: used) ->
  exists s', add_hole off size s = Some s'
    /\ alloc_inv (offset_ s') (hole_list_ s') used
    /\ (alloc_conserved (offset_ s) (hole_list_ s) ((off, size) :: used) ->
        alloc_conserved (offset_ s') (hole_list_ s') used)
    /\ same_contents s s'
    /\ length_ s' = length_ s
    /\ offset_ s' <= offset_ s.
Proof.
  intros Hinv. pose proof (inv_offset _ _ _ Hinv) as Hhi.
  pose proof (inv_used_ok _ _ _ Hinv) as Hok.
  inversion Hok as [|? ? (He1 & He2 & He3) _]; subst.
  unfold ext_end in He3. simpl in *.
  destruct (release_extent _ _ _ _ Hinv) as [Htail Hmid]. unfold ext_end in *. simpl in *.
  unfold add_hole. rewrite add64_small by (unfold SUPER_BLOCK_SIZE in *; lia).
  destruct (decide (off + size = offset_ s)) as [Heq|Hne].
  - destruct (Htail Heq) as [Ha Hb]. eexists. split; [reflexivity|]. simpl.
    split; [exact Ha|]. split; [exact Hb|]. split; [|lia].
    unfold same_contents. simpl. tauto.
  - destruct (Hmid Hne) as (Hadd & Ha & Hb). rewrite Hadd. simpl.
    eexists. split; [reflexivity|]. simpl.
    split; [exact Ha|]. split; [exact Hb|]. split; [|lia].
    unfold same_contents. simpl. tauto.
Qed.

(** What [add_hole] frees: after the call the free bytes are those that
    were free before and those of the extent. *)
Lemma add_hole_region (off size : Z) (s s' : Layout) (used : list Extent) :
  alloc_inv (offset_ s) (hole_list_ s) ((off, size) :: used) ->
  add_hole off size s = Some s' ->
  forall x, is_free s' x <-> is_free s x \/ off <= x < off + size.
Proof.
  intros Hinv Hadd x. pose proof (inv_offset _ _ _ Hinv) as Hhi.
  pose proof (inv_used_ok _ _ _ Hinv) as Hok.
  inversion Hok as [|? ? (He1 & He2 & He3) _]; subst.
  unfold ext_end in He3. cbn [fst snd] in *.
  destruct (release_extent _ _ _ _ Hinv) as [_ Hmid]. unfold ext_end in Hmid.
  cbn [fst snd] in Hmid.
  unfold add_hole in Hadd. rewrite add64_small in Hadd by (unfold SUPER_BLOCK_SIZE in *; lia).
  unfold is_free.
  destruct (decide (off + size = offset_ s)) as [Heq|Hne].
  - inversion Hadd; subst s'. cbn [hole_list_ offset_ set_offset_]. intuition lia.
  - destruct (Hmid Hne) as (Hlist & _ & _). rewrite Hlist in Hadd. cbn in Hadd.
    inversion Hadd; subst s'. cbn [hole_list_ offset_ set_hole_list_].
    assert (Hnn : Forall (fun g => 0 <= hole_size g) (hole_list_ s))
      by (eapply holes_sorted_nonneg; exact (inv_holes _ _ _ Hinv)).
    destruct (insert_coalesce_props (mkHole off size) (hole_list_ s) ltac:(simpl; lia) Hnn)
      as (Hreg & _ & _).
    rewrite Hreg, in_holes_cons. unfold hole_end. cbn [hole_offset hole_size]. intuition lia.
Qed.

(** What [get_hole] takes from the hole list: exactly the bytes of the
    extent that it hands out. *)
Lemma hole_list_get_region (size lo : Z) (l l' : list Hole) (off : Z) :
  0 <= lo -> 0 < size ->
  holes_sorted lo l -> Forall (fun g => hole_end g < U64_MOD) l ->
  hole_list_get size l = Some (off, l') ->
  forall x, in_holes l' x <-> in_holes l x /\ ~ (off <= x < off + size).
Proof.
  intros Hlo Hsz. revert lo l' Hlo. induction l as [|h t IH]; intros lo l' Hlo Hs Hb Hget;
    [discriminate|].
  destruct Hs as (Hh1 & Hh2 & Hh3). inversion Hb as [|? ? Hhb Htb]; subst.
  pose proof (holes_sorted_lower _ _ Hh3) as Hlow.
  assert (Hnot : forall x, in_holes t x -> hole_end h < x).
  { intros x Hin. unfold in_holes in Hin. rewrite Exists_exists in Hin.
    destruct Hin as (g & Hg & Hgx). rewrite Forall_forall in Hlow.
    specialize (Hlow _ Hg). lia. }
  simpl in Hget. unfold hole_end in *. intros x. specialize (Hnot x).
  destruct (decide (hole_size h > size)) as [Hgt|Hngt].
  - inversion Hget; subst; clear Hget. rewrite add64_small by lia.
    rewrite !in_holes_cons. unfold hole_end. simpl. intuition lia.
  - destruct (decide (hole_size h = size)) as [Heq|Hne].
    + inversion Hget; subst; clear Hget.
      rewrite in_holes_cons. unfold hole_end. intuition lia.
    + destruct (hole_list_get size t) as [[off' t']|] eqn:Hrec; [|discriminate].
      inversion Hget; subst; clear Hget.
      destruct (hole_list_get_props size (hole_offset h + hole_size h + 1) t t' off
                  ltac:(lia) Hsz Hh3 Htb Hrec) as (_ & Hoff & _).
      specialize (IH (hole_offset h + hole_size h + 1) t' ltac:(lia) Hh3 Htb eq_refl x).
      rewrite !in_holes_cons. unfold hole_end. intuition lia.
Qed.

(** What [get_offset] reserves: the bytes that are free afterwards are those
    that were free, less those of the extent that it returns. *)
Lemma get_offset_region (size : Z) (s s' : Layout) (off : Z) (used : list Extent) :
  alloc_inv (offset_ s) (hole_list_ s) used -> 0 < size ->
  offset_ s + size < U64_MOD ->
  get_offset size s = (off, s') ->
  forall x, (is_free s' x <-> is_free s x /\ ~ (off <= x < off + size))
            /\ (off <= x < off + size -> is_free s x).
Proof.
  intros Hinv Hsz Hfit. unfold get_offset, get_hole, is_free.
  pose proof (inv_offset _ _ _ Hinv) as Hhi.
  pose proof (inv_holes_end _ _ _ Hinv) as Hends.
  assert (Hbelow : forall x, in_holes (hole_list_ s) x -> x < offset_ s).
  { intros x Hin. unfold in_holes in Hin. rewrite Exists_exists in Hin.
    destruct Hin as (g & Hg & Hgx). rewrite Forall_forall in Hends.
    specialize (Hends _ Hg). lia. }
  destruct (hole_list_get size (hole_list_ s)) as [[o l']|] eqn:Hget.
  - intros Heq x. inversion Heq; subst; clear Heq. cbn [hole_list_ offset_ set_hole_list_].
    assert (Hb : Forall (fun g => hole_end g < U64_MOD) (hole_list_ s)).
    { eapply Forall_impl; [exact Hends|]. simpl. intros g Hg. lia. }
    destruct (hole_list_get_props size (SUPER_BLOCK_SIZE * 2) _ _ _
                ltac:(unfold SUPER_BLOCK_SIZE; lia) Hsz (inv_holes _ _ _ Hinv) Hb Hget)
      as (_ & _ & _ & Hrange & _ & Hhi').
    destruct (Hhi' _ Hends) as [Hend _].
    rewrite (hole_list_get_region size (SUPER_BLOCK_SIZE * 2) _ _ _
               ltac:(unfold SUPER_BLOCK_SIZE; lia) Hsz (inv_holes _ _ _ Hinv) Hb Hget x).
    specialize (Hbelow x). specialize (Hrange x). intuition lia.
  - cbn zeta.
    destruct (decide (offset_ (set_offset_ (add64 (offset_ s) size) s)
                      > length_ (set_offset_ (add64 (offset_ s) size) s)));
      intros Heq x; inversion Heq; subst; clear Heq; simpl;
      rewrite add64_small by (unfold SUPER_BLOCK_SIZE in *; lia);
      specialize (Hbelow x); intuition lia.
Qed.

(** ** The operations keep the allocation invariant *)

Lemma block_extents_insert (idx : gmap Z BlockMeta) (bid : Z) (m : BlockMeta) :
  idx !! bid = None -> block_extents (<[bid := m]> idx) ≡ₚ meta_extent m :: block_extents idx.
Proof.
  intros Hnone. unfold block_extents. rewrite (map_to_list_insert idx bid m Hnone).
  reflexivity.
Qed.

Lemma block_extents_delete (idx : gmap Z BlockMeta) (bid : Z) (m : BlockMeta) :
  idx !! bid = Some m -> block_extents idx ≡ₚ meta_extent m :: block_extents (delete bid idx).
Proof.
  intros Hsome. unfold block_extents. rewrite <- (map_to_list_delete idx bid m Hsome).
  reflexivity.
Qed.

Lemma block_extents_overwrite (idx : gmap Z BlockMeta) (bid : Z) (m : BlockMeta) :
  block_extents (<[bid := m]> idx) ≡ₚ meta_extent m :: block_extents (delete bid idx).
Proof.
  rewrite <- (insert_delete_eq idx). apply block_extents_insert. apply lookup_delete_eq.
Qed.

(** [set_block_meta] installs the metadata of a completed write: the extent
    of the write becomes live and the extent that the block had before, if
    any, is given back. *)
Lemma set_block_meta_inv (bid : Z) (meta : BlockMeta) (s : Layout) (inflight : list Extent) :
  layout_inv s (meta_extent meta :: inflight) ->
  exists s', set_block_meta bid meta s = Some s'
    /\ layout_inv s' inflight
    /\ (space_conserved s (meta_extent meta :: inflight) -> space_conserved s' inflight)
    /\ block_index_ s' = <[bid := meta]> (block_index_ s)
    /\ superblock_ s' = superblock_ s /\ aio_file_ s' = aio_file_ s
    /\ options_compress s' = options_compress s /\ fly_writes_ s' = fly_writes_ s
    /\ cb_trace s' = cb_trace s /\ length_ s' = length_ s /\ offset_ s' <= offset_ s.
Proof.
  unfold layout_inv, space_conserved, set_block_meta, live_extents. intros Hinv.
  destruct (block_index_ s !! bid) as [p|] eqn:Hp.
  - set (s3 := set_block_offset_index_ _ _).
    assert (Hperm : block_extents (block_index_ s) ++ index_extents s ++ meta_extent meta :: inflight
              ≡ₚ meta_extent p :: (block_extents (block_index_ s3) ++ index_extents s3) ++ inflight).
    { subst s3. simpl. rewrite (block_extents_overwrite (block_index_ s) bid meta).
      rewrite (block_extents_delete _ _ _ Hp). unfold index_extents. simpl.
      rewrite <- !(assoc_L (++)). simpl. solve_Permutation. }
    rewrite <- (assoc_L (++)) in Hinv.
    destruct (add_hole_inv (meta_offset p) (PAGE_ROUND_UP (meta_compressed_size p)) s3
                ((block_extents (block_index_ s3) ++ index_extents s3) ++ inflight))
      as (s' & Hadd & Hinv' & Hcons' & Hsame & Hlen & Hoff).
    { eapply alloc_inv_perm; [exact Hperm|]. exact Hinv. }
    exists s'. split; [exact Hadd|].
    destruct Hsame as (Hf & Ho & Hsb & Hfw & Hfr & Hidx & Hbo & Hcb).
    assert (Hlive : block_extents (block_index_ s') ++ index_extents s'
                    = block_extents (block_index_ s3) ++ index_extents s3).
    { unfold index_extents. rewrite Hidx, Hsb. reflexivity. }
    rewrite Hlive. split; [exact Hinv'|]. split.
    + intros Hc. apply Hcons'. eapply alloc_conserved_perm; [exact Hperm|].
      rewrite <- (assoc_L (++)) in Hc. exact Hc.
    + rewrite Hidx, Hsb, Hf, Ho, Hfw, Hcb, Hlen. subst s3. simpl. repeat split; try reflexivity. exact Hoff.
  - eexists. split; [reflexivity|]. simpl.
    assert (Hperm : block_extents (block_index_ s) ++ index_extents s ++ meta_extent meta :: inflight
              ≡ₚ (block_extents (<[bid:=meta]> (block_index_ s)) ++ index_extents s) ++ inflight).
    { rewrite (block_extents_insert _ _ _ Hp). rewrite <- !(assoc_L (++)). simpl. solve_Permutation. }
    rewrite <- (assoc_L (++)) in Hinv. unfold index_extents in *. simpl.
    split; [eapply alloc_inv_perm; [exact Hperm|exact Hinv]|]. split.
    + intros Hc. eapply alloc_conserved_perm; [exact Hperm|].
      rewrite <- (assoc_L (++)) in Hc. exact Hc.
    + repeat split; (reflexivity || lia).
Qed.


(** ** Fixed-width integers *)

Lemma Z_of_byte_of_Z (x : Z) : Z_of_byte (byte_of_Z x) = x mod 256.
Proof.
  unfold Z_of_byte, byte_of_Z.
  pose proof (Z.mod_pos_bound x 256 ltac:(lia)) as Hm.
  destruct (Byte.of_N (Z.to_N (x mod 256))) as [b|] eqn:Hb.
  - simpl. apply Byte.to_of_N in Hb. rewrite Hb. lia.
  - apply Byte.of_N_None_iff in Hb. lia.
Qed.

Lemma length_le_encode (n : nat) (v : Z) : length (le_encode n v) = n.
Proof. revert v. induction n as [|n IH]; intros v; simpl; [reflexivity|]. rewrite IH. reflexivity. Qed.

Lemma zlen_le_encode (n : nat) (v : Z) : zlen (le_encode n v) = Z.of_nat n.
Proof. unfold zlen. rewrite length_le_encode. reflexivity. Qed.

Lemma le_decode_encode (n : nat) (v : Z) :
  le_decode (le_encode n v) = v mod 256 ^ Z.of_nat n.
Proof.
  revert v. induction n as [|n IH]; intros v.
  - simpl. rewrite Z.mod_1_r. reflexivity.
  - cbn [le_encode le_decode]. rewrite IH, Z_of_byte_of_Z.
    rewrite Nat2Z.inj_succ, Z.pow_succ_r by lia.
    rewrite Z.rem_mul_r by lia. reflexivity.
Qed.

Lemma le_decode_encode_small (n : nat) (v : Z) :
  0 <= v < 256 ^ Z.of_nat n -> le_decode (le_encode n v) = v.
Proof. intros Hv. rewrite le_decode_encode. apply Z.mod_small. exact Hv. Qed.

(** ** Block writers append, block readers consume *)

Lemma write_bytes_view (bs : list byte) (b : Block) (d rest : list byte) :
  block_view b d rest -> (length bs <= length rest)%nat ->
  exists b', write_bytes bs b = Some b' /\ block_view b' (d ++ bs) (drop (length bs) rest).
Proof.
  intros [Hbuf Hsize] Hfit. unfold write_bytes, blk_limit.
  rewrite Hbuf, Hsize. unfold zlen. rewrite length_app.
  destruct (decide (Z.of_nat (length d) + Z.of_nat (length bs)
                    <= Z.of_nat (length d + length rest))) as [_|Hc]; [|lia].
  eexists. split; [reflexivity|]. unfold block_view. simpl. split.
  - rewrite Nat2Z.id, take_app_length.
    replace (Z.to_nat (Z.of_nat (length d) + Z.of_nat (length bs)))
      with (length d + length bs)%nat by lia.
    rewrite drop_app_add'; [|reflexivity]. rewrite <- (assoc_L (++)). reflexivity.
  - unfold zlen. rewrite length_app. lia.
Qed.

Lemma write_uint_view (n : nat) (v : Z) (b : Block) (d rest : list byte) :
  block_view b d rest -> (n <= length rest)%nat ->
  exists b', write_bytes (le_encode n v) b = Some b'
    /\ block_view b' (d ++ le_encode n v) (drop n rest).
Proof.
  intros Hv Hfit.
  destruct (write_bytes_view (le_encode n v) b d rest Hv) as (b' & Hw & Hv');
    [rewrite length_le_encode; exact Hfit|].
  rewrite length_le_encode in Hv'. eauto.
Qed.

(** Reduce a bind of the option monad whose first component is known. *)
Ltac obind := cbn [mbind option_bind mret option_ret].

Lemma write_block_meta_view (m : BlockMeta) (b : Block) (d rest : list byte) :
  block_view b d rest -> (18 <= length rest)%nat ->
  exists b', write_block_meta m b = Some b'
    /\ block_view b' (d ++ encode_meta m) (drop 18 rest).
Proof.
  intros Hv Hfit. unfold write_block_meta, writeUInt64, writeUInt32, writeUInt16.
  destruct (write_uint_view 8 (meta_offset m) b d rest Hv ltac:(lia)) as (b1 & -> & Hv1).
  obind.
  destruct (write_uint_view 4 (meta_inflated_size m) b1 _ _ Hv1
              ltac:(rewrite length_drop; lia)) as (b2 & -> & Hv2). obind.
  destruct (write_uint_view 4 (meta_compressed_size m) b2 _ _ Hv2
              ltac:(rewrite !length_drop; lia)) as (b3 & -> & Hv3). obind.
  destruct (write_uint_view 2 (meta_crc m) b3 _ _ Hv3
              ltac:(rewrite !length_drop; lia)) as (b4 & -> & Hv4).
  exists b4. split; [reflexivity|]. rewrite !drop_drop in Hv4. simpl in Hv4.
  unfold encode_meta. rewrite !(assoc_L (++)). rewrite <- !(assoc_L (++)) in Hv4.
  rewrite <- !(assoc_L (++)). exact Hv4.
Qed.

Lemma length_encode_meta (m : BlockMeta) : length (encode_meta m) = 18%nat.
Proof. unfold encode_meta. rewrite !length_app, !length_le_encode. reflexivity. Qed.

Lemma length_encode_entry (e : Z * BlockMeta) : length (encode_entry e) = 26%nat.
Proof. unfold encode_entry. rewrite length_app, length_le_encode, length_encode_meta. reflexivity. Qed.

Lemma length_encode_entries (es : list (Z * BlockMeta)) :
  length (encode_entries es) = (26 * length es)%nat.
Proof.
  unfold encode_entries. induction es as [|e es IH]; [reflexivity|].
  cbn [fmap list_fmap concat length]. rewrite length_app, length_encode_entry.
  change (concat (list_fmap _ _ encode_entry es)) with (concat (encode_entry <$> es)).
  rewrite IH. lia.
Qed.

Lemma write_index_entries_view (es : list (Z * BlockMeta)) (b : Block) (d rest : list byte) :
  block_view b d rest -> (26 * length es <= length rest)%nat ->
  exists b', write_index_entries es b = Some b'
    /\ block_view b' (d ++ encode_entries es) (drop (26 * length es) rest).
Proof.
  revert b d rest. induction es as [|[bid m] es IH]; intros b d rest Hv Hfit.
  - exists b. split; [reflexivity|]. unfold encode_entries. simpl.
    rewrite (right_id_L [] (++)), drop_0. exact Hv.
  - cbn [write_index_entries]. unfold writeUInt64. cbn [length] in Hfit.
    destruct (write_uint_view 8 bid b d rest Hv ltac:(lia)) as (b1 & -> & Hv1). obind.
    destruct (write_block_meta_view m b1 _ _ Hv1 ltac:(rewrite length_drop; lia))
      as (b2 & -> & Hv2). obind.
    destruct (IH b2 _ _ Hv2 ltac:(rewrite !length_drop; lia)) as (b3 & -> & Hv3).
    exists b3. split; [reflexivity|]. rewrite !drop_drop in Hv3.
    replace (26 * length ((bid, m) :: es))%nat with (8 + (18 + 26 * length es))%nat
      by (cbn [length]; lia).
    unfold encode_entries, encode_entry in *. cbn [fmap list_fmap concat fst snd] in *.
    rewrite <- !app_assoc in Hv3. rewrite <- !app_assoc. exact Hv3.
Qed.

Lemma length_map_entries {V} (m : gmap Z V) : length (map_entries m) = size m.
Proof.
  unfold map_entries. rewrite (Permutation_length (merge_sort_Permutation _ _)).
  apply length_map_to_list.
Qed.

Lemma length_encode_index (idx : gmap Z BlockMeta) :
  length (encode_index idx) = (4 + 26 * size idx)%nat.
Proof.
  unfold encode_index. rewrite length_app, length_le_encode, length_encode_entries,
    length_map_entries. reflexivity.
Qed.

Lemma write_index_view (s : Layout) (b : Block) (d rest : list byte) :
  block_view b d rest -> (4 + 26 * size (block_index_ s) <= length rest)%nat ->
  exists b', write_index s b = Some b'
    /\ block_view b' (d ++ encode_index (block_index_ s))
         (drop (4 + 26 * size (block_index_ s)) rest).
Proof.
  intros Hv Hfit. unfold write_index, writeUInt32.
  destruct (write_uint_view 4 (Z.of_nat (size (block_index_ s))) b d rest Hv ltac:(lia))
    as (b1 & -> & Hv1). obind.
  destruct (write_index_entries_view (map_entries (block_index_ s)) b1 _ _ Hv1)
    as (b2 & -> & Hv2); [rewrite length_drop, length_map_entries; lia|].
  exists b2. split; [reflexivity|]. rewrite drop_drop, length_map_entries in Hv2.
  unfold encode_index. rewrite <- app_assoc in Hv2. exact Hv2.
Qed.

Lemma length_encode_superblock (sb : SuperBlock) :
  (length (encode_superblock sb) <= 32)%nat.
Proof.
  unfold encode_superblock. destruct (index_block_meta sb);
    rewrite !length_app, ?length_encode_meta, !length_le_encode; lia.
Qed.

Lemma write_superblock_view (sb : SuperBlock) (b : Block) (d rest : list byte) :
  block_view b d rest -> (32 <= length rest)%nat ->
  exists b', write_superblock sb b = Some b'
    /\ block_view b' (d ++ encode_superblock sb)
         (drop (length (encode_superblock sb)) rest).
Proof.
  intros Hv Hfit. unfold write_superblock, writeUInt64, writeUInt8, writeUInt16, writeBool.
  destruct (write_uint_view 8 (magic_number sb) b d rest Hv ltac:(lia)) as (b1 & -> & Hv1).
  obind.
  destruct (write_uint_view 1 (major_version sb) b1 _ _ Hv1
              ltac:(rewrite length_drop; lia)) as (b2 & -> & Hv2). obind.
  destruct (write_uint_view 1 (minor_version sb) b2 _ _ Hv2
              ltac:(rewrite !length_drop; lia)) as (b3 & -> & Hv3). obind.
  destruct (write_uint_view 1 (Z_of_Compress (compress sb)) b3 _ _ Hv3
              ltac:(rewrite !length_drop; lia)) as (b4 & -> & Hv4). obind.
  unfold encode_superblock. destruct (index_block_meta sb) as [m|].
  - destruct (write_uint_view 1 1 b4 _ _ Hv4
                ltac:(rewrite !length_drop; lia)) as (b5 & -> & Hv5). obind.
    destruct (write_block_meta_view m b5 _ _ Hv5
                ltac:(rewrite !length_drop; lia)) as (b6 & -> & Hv6). obind.
    destruct (write_uint_view 2 (sb_crc sb) b6 _ _ Hv6
                ltac:(rewrite !length_drop; lia)) as (b7 & -> & Hv7).
    exists b7. split; [reflexivity|]. rewrite !drop_drop in Hv7.
    rewrite !length_app, length_encode_meta, !length_le_encode.
    rewrite <- !app_assoc in Hv7. exact Hv7.
  - destruct (write_uint_view 1 0 b4 _ _ Hv4
                ltac:(rewrite !length_drop; lia)) as (b5 & -> & Hv5). obind.
    destruct (write_uint_view 2 (sb_crc sb) b5 _ _ Hv5
                ltac:(rewrite !length_drop; lia)) as (b6 & -> & Hv6).
    exists b6. split; [reflexivity|]. rewrite !drop_drop in Hv6.
    rewrite !length_app, !length_le_encode.
    rewrite <- !app_assoc in Hv6. exact Hv6.
Qed.

Lemma read_bytes_view (bs : list byte) (r : BlockReader) (pre rest : list byte) :
  reader_view r pre (bs ++ rest) ->
  exists r', read_bytes (zlen bs) r = Some (bs, r') /\ reader_view r' (pre ++ bs) rest.
Proof.
  intros ([tail Hbuf] & Hsize & Hpos). unfold read_bytes. rewrite Hsize, Hpos, Hbuf.
  destruct (decide (zlen pre + zlen bs <= zlen (pre ++ bs ++ rest))) as [_|Hc].
  2:{ rewrite !zlen_app in Hc. pose proof (zlen_nonneg rest). lia. }
  eexists. split.
  - f_equal. f_equal. unfold zlen. rewrite !Nat2Z.id.
    rewrite drop_app_length. rewrite <- app_assoc. apply take_app_length.
  - unfold reader_view. simpl. repeat split.
    + exists tail. rewrite Hbuf, <- !app_assoc. reflexivity.
    + rewrite Hsize, <- app_assoc. reflexivity.
    + rewrite zlen_app. reflexivity.
Qed.

Lemma read_uint_view (n : nat) (v : Z) (r : BlockReader) (pre rest : list byte) :
  reader_view r pre (le_encode n v ++ rest) ->
  exists r', read_uint (Z.of_nat n) r = Some (v mod 256 ^ Z.of_nat n, r')
    /\ reader_view r' (pre ++ le_encode n v) rest.
Proof.
  intros Hv. destruct (read_bytes_view _ _ _ _ Hv) as (r' & Hr & Hv').
  rewrite zlen_le_encode in Hr. unfold read_uint. rewrite Hr, le_decode_encode. eauto.
Qed.

Lemma read_block_meta_view (m m0 : BlockMeta) (r : BlockReader) (pre rest : list byte) :
  meta_wire_ok m ->
  reader_view r pre (encode_meta m ++ rest) ->
  exists r', read_block_meta m0 r = (true, m, r')
    /\ reader_view r' (pre ++ encode_meta m) rest.
Proof.
  intros (Ho & Hi & Hc & Hcrc) Hv. unfold encode_meta in *. rewrite <- !app_assoc in Hv.
  unfold read_block_meta, readUInt64, readUInt32, readUInt16.
  destruct (read_uint_view 8 _ _ _ _ Hv) as (r1 & Hr1 & Hv1).
  change (Z.of_nat 8) with 8 in Hr1. rewrite Hr1. cbn zeta.
  destruct (read_uint_view 4 _ _ _ _ Hv1) as (r2 & Hr2 & Hv2).
  change (Z.of_nat 4) with 4 in Hr2. rewrite Hr2. cbn zeta.
  destruct (read_uint_view 4 _ _ _ _ Hv2) as (r3 & Hr3 & Hv3).
  change (Z.of_nat 4) with 4 in Hr3. rewrite Hr3. cbn zeta.
  destruct (read_uint_view 2 _ _ _ _ Hv3) as (r4 & Hr4 & Hv4).
  change (Z.of_nat 2) with 2 in Hr4. rewrite Hr4. cbn zeta.
  exists r4. split.
  - cbn [meta_offset meta_inflated_size meta_compressed_size meta_crc].
    rewrite !Z.mod_small by (unfold U64_MOD in *; lia). destruct m; reflexivity.
  - rewrite <- !app_assoc in Hv4. exact Hv4.
Qed.

Lemma read_index_entries_view (es : list (Z * BlockMeta)) (r : BlockReader)
    (idx : gmap Z BlockMeta) (pre rest : list byte) :
  Forall entry_wire_ok es ->
  reader_view r pre (encode_entries es ++ rest) ->
  read_index_entries (length es) r idx = (true, index_of_entries idx es).
Proof.
  intros Hok. revert r idx pre. induction Hok as [|[bid m] es [Hbid Hm] _ IH];
    intros r idx pre Hv; [reflexivity|].
  unfold encode_entries, encode_entry in Hv. cbn [fmap list_fmap concat fst snd] in Hv.
  rewrite <- !app_assoc in Hv. cbn [length read_index_entries]. unfold readUInt64.
  destruct (read_uint_view 8 _ _ _ _ Hv) as (r1 & Hr1 & Hv1).
  change (Z.of_nat 8) with 8 in Hr1. rewrite Hr1.
  destruct (read_block_meta_view m BlockMeta_new _ _ _ Hm Hv1) as (r2 & Hr2 & Hv2).
  rewrite Hr2. cbn [fst snd] in Hbid.
  rewrite Z.mod_small by (unfold U64_MOD in *; lia).
  unfold index_of_entries. cbn [foldl fst snd]. eapply IH. exact Hv2.
Qed.

Lemma index_of_entries_lookup (es : list (Z * BlockMeta)) (idx : gmap Z BlockMeta)
    (k : Z) (v : BlockMeta) :
  NoDup es.*1 ->
  index_of_entries idx es !! k = Some v <->
  (k, v) ∈ es \/ ((k ∉ es.*1) /\ idx !! k = Some v).
Proof.
  unfold index_of_entries. revert idx. induction es as [|[k' v'] es IH]; intros idx Hnd.
  - simpl. split; [intros H; right; split; [apply not_elem_of_nil|exact H]|].
    intros [H|[_ H]]; [inversion H|exact H].
  - cbn [fmap list_fmap] in Hnd. apply NoDup_cons in Hnd as [Hnotin Hnd].
    cbn [foldl fst snd]. rewrite (IH _ Hnd). cbn [fmap list_fmap fst].
    rewrite elem_of_cons, not_elem_of_cons. split.
    + intros [Hin|[Hk Hl]]; [left; right; exact Hin|].
      destruct (decide (k' = k)) as [->|Hne].
      * rewrite lookup_insert_eq in Hl. inversion Hl; subst. left; left; reflexivity.
      * rewrite lookup_insert_ne in Hl by exact Hne. right. repeat split; congruence.
    + intros [[Heq|Hin]|[[Hne Hk] Hl]].
      * inversion Heq; subst. right. split; [exact Hnotin|apply lookup_insert_eq].
      * left. exact Hin.
      * right. split; [exact Hk|]. rewrite lookup_insert_ne by congruence. exact Hl.
Qed.

(** Reading the entries of an index block back gives the index. *)
Lemma index_of_entries_map_entries (idx : gmap Z BlockMeta) :
  index_of_entries ∅ (map_entries idx) = idx.
Proof.
  assert (Hp : map_entries idx ≡ₚ map_to_list idx) by apply merge_sort_Permutation.
  apply map_eq. intros k. apply option_eq. intros v.
  rewrite index_of_entries_lookup.
  - rewrite lookup_empty. rewrite Hp, elem_of_map_to_list. split; [|tauto].
    intros [H|[_ H]]; [exact H|discriminate].
  - rewrite Hp. apply NoDup_fst_map_to_list.
Qed.

(** ** Buffers *)

Lemma length_zeros (n : Z) : length (zeros n) = Z.to_nat n.
Proof. unfold zeros. apply length_replicate. Qed.

Lemma zlen_slice_resize (n : Z) (buf : list byte) : 0 <= n -> zlen (slice_resize n buf) = n.
Proof.
  intros Hn. unfold slice_resize, zlen. rewrite length_app, length_take, length_zeros.
  unfold zlen. lia.
Qed.

Lemma slice_resize_same (n : Z) (buf : list byte) : zlen buf = n -> slice_resize n buf = buf.
Proof.
  intros Hn. unfold slice_resize. rewrite take_ge by (unfold zlen in Hn; lia).
  replace (n - zlen buf) with 0 by lia. apply (right_id_L [] (++)).
Qed.

Lemma take_slice_resize (k n : Z) (buf : list byte) :
  0 <= k <= n -> k <= zlen buf ->
  take (Z.to_nat k) (slice_resize n buf) = take (Z.to_nat k) buf.
Proof.
  intros Hk Hlen. unfold slice_resize. unfold zlen in Hlen.
  rewrite take_app_le by (rewrite length_take; lia).
  rewrite take_take. f_equal. lia.
Qed.

Lemma alloc_aligned_buffer_ok (size : Z) :
  size ≠ 0 -> alloc_aligned_buffer size = Some (zeros (PAGE_ROUND_UP size)).
Proof.
  intros Hs. unfold alloc_aligned_buffer. rewrite option_guard_True by exact Hs. reflexivity.
Qed.

Lemma length_fill_buffer (buffer out : list byte) :
  length (fill_buffer buffer out) = length buffer.
Proof.
  unfold fill_buffer. rewrite length_take, length_app, length_drop. lia.
Qed.

Lemma take_fill_buffer (buffer out : list byte) :
  (length out <= length buffer)%nat -> take (length out) (fill_buffer buffer out) = out.
Proof.
  intros Hfit. unfold fill_buffer. rewrite take_take.
  rewrite Nat.min_l by exact Hfit. apply take_app_length.
Qed.

(** [compress_data] succeeds in the supported modes and reports the size
    given by [compressed_size_of]. *)
Lemma compress_data_ok `{Snappy} (opt : Compress) (buf : list byte) (size : Z) :
  compress_ok opt -> 0 <= size <= zlen buf ->
  exists cbuf, compress_data opt buf size
               = Some (cbuf, compressed_size_of opt (take (Z.to_nat size) buf))
    /\ take (Z.to_nat (compressed_size_of opt (take (Z.to_nat size) buf))) cbuf
       = match opt with
         | kSnappyCompress => RawCompress (take (Z.to_nat size) buf)
         | _ => take (Z.to_nat size) buf
         end
    /\ (opt = kNoCompress -> cbuf = buf).
Proof.
  intros [->|[-> Hlaws]] Hsize; unfold compress_data, compressed_size_of.
  - exists buf. assert (zlen (take (Z.to_nat size) buf) = size) as Hl.
    { unfold zlen in *. rewrite length_take. lia. }
    rewrite Hl. repeat split; reflexivity.
  - set (input := take (Z.to_nat size) buf).
    assert (zlen input = size) as Hl.
    { subst input. unfold zlen in *. rewrite length_take. lia. }
    pose proof (@snappy_nonempty _ Hlaws input) as Hne.
    pose proof (@snappy_bound _ Hlaws input) as Hb.
    rewrite Hl in Hb.
    rewrite alloc_aligned_buffer_ok by lia. obind.
    eexists. split; [reflexivity|]. split; [|discriminate].
    unfold zlen. rewrite Nat2Z.id. apply take_fill_buffer.
    rewrite length_zeros. pose proof (PAGE_ROUND_UP_ge (MaxCompressedLength size)).
    unfold zlen in *. lia.
Qed.

(** ** Writing a block *)

Lemma layout_inv_frame (s s' : Layout) (inflight : list Extent) :
  offset_ s' = offset_ s -> hole_list_ s' = hole_list_ s ->
  block_index_ s' = block_index_ s -> superblock_ s' = superblock_ s ->
  (layout_inv s inflight <-> layout_inv s' inflight)
  /\ (space_conserved s inflight <-> space_conserved s' inflight).
Proof.
  intros Ho Hh Hi Hs. unfold layout_inv, space_conserved, live_extents, index_extents.
  rewrite Ho, Hh, Hi, Hs. tauto.
Qed.

(** [async_write] reserves an extent for the compressed block and hands the
    request to the file. *)
Lemma async_write_inv `{Snappy} (bid : Z) (block : Block) (cb : Callback) (s : Layout)
    (inflight : list Extent) :
  let csize := compressed_size_of (options_compress s) (blk_data block) in
  layout_inv s inflight -> compress_ok (options_compress s) -> block_ok block ->
  0 < csize -> offset_ s + PAGE_ROUND_UP csize < U64_MOD ->
  exists req s' cbuf off,
    async_write bid block cb s = Some (req, s')
    /\ req = mkReq bid cb (mkMeta off (blk_size block) csize 0)
               (slice_resize (PAGE_ROUND_UP csize) cbuf)
    /\ compress_data (options_compress s) (blk_buf block) (blk_size block) = Some (cbuf, csize)
    /\ layout_inv s' (req_extent req :: inflight)
    /\ (space_conserved s inflight -> space_conserved s' (req_extent req :: inflight))
    /\ block_index_ s' = block_index_ s /\ superblock_ s' = superblock_ s
    /\ aio_file_ s' = aio_file_ s /\ options_compress s' = options_compress s
    /\ fly_writes_ s' = fly_writes_ s + 1 /\ cb_trace s' = cb_trace s
    /\ offset_ s <= offset_ s'.
Proof.
  intros csize Hinv Hc [Hsz Hlim] Hpos Hfit. unfold async_write.
  rewrite option_guard_True by exact Hlim. obind.
  pose proof (PAGE_ROUND_UP_ge (blk_size block)) as Hge.
  destruct (compress_data_ok (options_compress s) (blk_buf block) (blk_size block) Hc)
    as (cbuf & Hcd & _); [unfold blk_limit in *; lia|].
  fold (blk_data block) in Hcd. fold csize in Hcd. rewrite Hcd. obind. cbn beta iota.
  rewrite zlen_slice_resize by (apply PAGE_ROUND_UP_nonneg; lia).
  destruct (get_offset (PAGE_ROUND_UP csize) s) as [off s1] eqn:Hget.
  unfold layout_inv in Hinv.
  destruct (get_offset_inv _ _ _ _ _ Hinv (PAGE_ROUND_UP_pos _ Hpos) Hfit Hget)
    as (Hinv1 & Hcons1 & (Hf & Ho & Hsb & Hfw & Hfr & Hidx & Hbo & Hcb) & Hle).
  eexists _, _, cbuf, off. split; [reflexivity|]. split; [reflexivity|].
  split; [reflexivity|]. unfold layout_inv, space_conserved, live_extents, index_extents,
    req_extent, meta_extent. simpl. rewrite Hidx, Hsb.
  split.
  { eapply alloc_inv_perm; [|exact Hinv1]. unfold live_extents, index_extents. solve_Permutation. }
  split.
  { intros Hc0. eapply alloc_conserved_perm; [|apply Hcons1, Hc0].
    unfold live_extents, index_extents. solve_Permutation. }
  rewrite Hf, Ho, Hfw, Hcb. repeat split; (reflexivity || lia).
Qed.

(** [handle_async_write]: a failed write gives the reserved extent back, a
    successful one installs the metadata; the callback runs once. *)
Lemma handle_async_write_inv (req : AsyncWriteReq) (status : bool) (s : Layout)
    (inflight : list Extent) :
  layout_inv s (req_extent req :: inflight) ->
  exists s', handle_async_write req status s = Some s'
    /\ layout_inv s' inflight
    /\ (space_conserved s (req_extent req :: inflight) -> space_conserved s' inflight)
    /\ block_index_ s' = (if status then <[req_bid req := req_meta req]> (block_index_ s)
                          else block_index_ s)
    /\ superblock_ s' = superblock_ s /\ aio_file_ s' = aio_file_ s
    /\ options_compress s' = options_compress s
    /\ fly_writes_ s' = fly_writes_ s - 1
    /\ cb_trace s' = (req_cb req, status) :: cb_trace s
    /\ length_ s' = length_ s /\ offset_ s' <= offset_ s.
Proof.
  intros Hinv. unfold handle_async_write.
  set (s1 := set_fly_writes_ (fly_writes_ s - 1) s).
  destruct (layout_inv_frame s s1 (req_extent req :: inflight)) as [Hi Hc]; try reflexivity.
  apply Hi in Hinv. destruct status.
  - destruct (set_block_meta_inv (req_bid req) (req_meta req) s1 inflight Hinv)
      as (s2 & -> & Hinv2 & Hcons2 & Hidx & Hsb & Hf & Ho & Hfw & Hcb & Hlen & Hoff).
    obind. eexists. split; [reflexivity|].
    destruct (layout_inv_frame s2 (exec_cb (req_cb req) true s2) inflight) as [Hi' Hc'];
      try reflexivity.
    split; [apply Hi', Hinv2|]. split; [intros H0; apply Hc', Hcons2, Hc, H0|].
    simpl. rewrite Hidx, Hsb, Hf, Ho, Hfw, Hcb, Hlen. subst s1. simpl.
    repeat split; (reflexivity || exact Hoff).
  - unfold layout_inv, req_extent, meta_extent in Hinv.
    eapply alloc_inv_perm in Hinv; [|symmetry; apply Permutation_middle].
    destruct (add_hole_inv _ _ s1 _ Hinv)
      as (s2 & -> & Hinv2 & Hcons2 & (Hf & Ho & Hsb & Hfw & Hfr & Hidx & Hbo & Hcb) & Hlen & Hoff).
    obind. eexists. split; [reflexivity|].
    unfold layout_inv, space_conserved, live_extents, index_extents. simpl.
    rewrite Hidx, Hsb. split; [exact Hinv2|]. split.
    + intros H0. apply Hcons2. apply Hc in H0. unfold space_conserved in H0.
      eapply alloc_conserved_perm in H0; [|symmetry; apply Permutation_middle]. exact H0.
    + rewrite Hf, Ho, Hfw, Hcb, Hlen. subst s1. simpl. repeat split; (reflexivity || exact Hoff).
Qed.

(** ** Flushing the index block *)

Lemma get_index_size_encode (s : Layout) :
  get_index_size s = zlen (encode_index (block_index_ s)).
Proof.
  unfold get_index_size, BLOCK_META_SIZE, zlen. rewrite length_encode_index. lia.
Qed.

Lemma compressed_size_of_pos `{Snappy} (opt : Compress) (payload : list byte) :
  compress_ok opt -> 0 < zlen payload -> 0 < compressed_size_of opt payload.
Proof.
  intros [->|[-> Hlaws]] Hp; unfold compressed_size_of; [exact Hp|].
  apply (@snappy_nonempty _ Hlaws).
Qed.

(** The steps of [flush_index] up to the reservation of the extent. *)
Lemma flush_index_prepare `{Snappy} (s : Layout) :
  compress_ok (options_compress s) ->
  let payload := encode_index (block_index_ s) in
  let csize := compressed_size_of (options_compress s) payload in
  exists block cbuf,
    alloc_aligned_buffer (get_index_size s) = Some (zeros (PAGE_ROUND_UP (get_index_size s)))
    /\ write_index s (mkBlock (zeros (PAGE_ROUND_UP (get_index_size s))) 0) = Some block
    /\ blk_size block = get_index_size s
    /\ blk_buf block = index_image (block_index_ s)
    /\ compress_data (options_compress s) (blk_buf block) (get_index_size s) = Some (cbuf, csize)
    /\ take (Z.to_nat csize) cbuf
       = match options_compress s with
         | kSnappyCompress => RawCompress payload
         | _ => payload
         end
    /\ (options_compress s = kNoCompress -> cbuf = index_image (block_index_ s))
    /\ 0 < csize.
Proof.
  intros Hc payload csize.
  pose proof (get_index_size_encode s) as Hsz. fold payload in Hsz.
  assert (Hlen : length payload = (4 + 26 * size (block_index_ s))%nat)
    by apply length_encode_index.
  assert (Hpos : 0 < get_index_size s) by (rewrite Hsz; unfold zlen; lia).
  pose proof (PAGE_ROUND_UP_ge (get_index_size s)) as Hge.
  destruct (write_index_view s (mkBlock (zeros (PAGE_ROUND_UP (get_index_size s))) 0)
              [] (zeros (PAGE_ROUND_UP (get_index_size s)))) as (block & Hw & Hbuf & Hbs).
  { split; reflexivity. }
  { rewrite length_zeros. rewrite Hsz in *. unfold zlen in *. lia. }
  rewrite app_nil_l in Hbuf, Hbs. fold payload in Hbuf, Hbs.
  assert (Himg : blk_buf block = index_image (block_index_ s)).
  { rewrite Hbuf. unfold index_image. fold payload. rewrite Hlen, <- Hsz. reflexivity. }
  destruct (compress_data_ok (options_compress s) (blk_buf block) (get_index_size s) Hc)
    as (cbuf & Hcd & Htake & Hsame).
  { rewrite Hbuf, zlen_app. pose proof (zlen_nonneg (drop (4 + 26 * size (block_index_ s))
      (zeros (PAGE_ROUND_UP (get_index_size s))))). rewrite Hsz at 1 2. unfold zlen in *. lia. }
  assert (Hpay : take (Z.to_nat (get_index_size s)) (blk_buf block) = payload).
  { rewrite Hbuf, Hsz. unfold zlen. rewrite Nat2Z.id. apply take_app_length. }
  rewrite Hpay in Hcd, Htake.
  exists block, cbuf. split; [apply alloc_aligned_buffer_ok; lia|].
  split; [exact Hw|]. split; [rewrite Hbs, Hsz; reflexivity|]. split; [exact Himg|].
  split; [exact Hcd|]. split; [exact Htake|]. split.
  - intros Hno. rewrite <- Himg. apply Hsame, Hno.
  - apply compressed_size_of_pos; [exact Hc|]. unfold zlen. lia.
Qed.

(** [write_data] changes the file when it succeeds, and nothing else. *)
Lemma write_data_spec (st : bool) (off : Z) (buf : list byte) (s : Layout) :
  exists s', write_data st off buf s = (st, s')
    /\ aio_file_ s' = (if st then aio_write off buf (aio_file_ s) else aio_file_ s)
    /\ length_ s' = length_ s /\ options_compress s' = options_compress s
    /\ offset_ s' = offset_ s /\ superblock_ s' = superblock_ s
    /\ fly_writes_ s' = fly_writes_ s /\ fly_reads_ s' = fly_reads_ s
    /\ block_index_ s' = block_index_ s
    /\ block_offset_index_ s' = block_offset_index_ s
    /\ hole_list_ s' = hole_list_ s /\ cb_trace s' = cb_trace s.
Proof.
  unfold write_data. eexists. split; [reflexivity|].
  destruct st; simpl; repeat split; lia.
Qed.

Lemma get_offset_bound (size : Z) (s s' : Layout) (off : Z) :
  0 <= offset_ s -> 0 <= size -> offset_ s + size < U64_MOD ->
  get_offset size s = (off, s') -> offset_ s' <= offset_ s + size.
Proof.
  intros Hlo Hsz Hfit. unfold get_offset, get_hole.
  destruct (hole_list_get size (hole_list_ s)) as [[o l']|].
  - intros Heq. inversion Heq; subst. simpl. lia.
  - cbn zeta.
    destruct (decide (offset_ (set_offset_ (add64 (offset_ s) size) s)
                      > length_ (set_offset_ (add64 (offset_ s) size) s)));
      intros Heq; inversion Heq; subst; clear Heq; simpl;
      rewrite add64_small by lia; lia.
Qed.

(** A flush of the index block whose write succeeds: the index goes to a
    freshly reserved extent, the superblock in memory points to it, and the
    extent of the previous index block is given back. *)
Lemma flush_index_success `{Snappy} (s : Layout) (inflight : list Extent) :
  let payload := encode_index (block_index_ s) in
  let csize := compressed_size_of (options_compress s) payload in
  layout_inv s inflight -> compress_ok (options_compress s) ->
  offset_ s + PAGE_ROUND_UP csize < U64_MOD ->
  let crc := match index_block_meta (superblock_ s) with
             | Some m => meta_crc m
             | None => 0
             end in
  exists s' off cbuf,
    flush_index true s = Some (true, s')
    /\ superblock_ s' = with_index_meta (superblock_ s)
                          (Some (mkMeta off (zlen payload) csize crc))
    /\ aio_file_ s' = aio_write off (slice_resize (PAGE_ROUND_UP csize) cbuf) (aio_file_ s)
    /\ take (Z.to_nat csize) cbuf
       = match options_compress s with
         | kSnappyCompress => RawCompress payload
         | _ => payload
         end
    /\ (options_compress s = kNoCompress -> cbuf = index_image (block_index_ s))
    /\ Forall (ext_disjoint (off, PAGE_ROUND_UP csize)) (live_extents s ++ inflight)
    /\ SUPER_BLOCK_SIZE * 2 <= off /\ 0 < csize
    /\ layout_inv s' inflight
    /\ (space_conserved s inflight -> space_conserved s' inflight)
    /\ block_index_ s' = block_index_ s /\ options_compress s' = options_compress s
    /\ fly_writes_ s' = fly_writes_ s /\ cb_trace s' = cb_trace s
    /\ offset_ s' <= offset_ s + PAGE_ROUND_UP csize.
Proof.
  intros payload csize Hinv Hc Hfit crc.
  destruct (flush_index_prepare s Hc)
    as (block & cbuf & Halloc & Hw & Hbs & Himg & Hcd & Htake & Hsame & Hpos).
  fold payload in Hcd, Htake, Hpos. fold csize in Hcd, Htake, Hpos.
  unfold flush_index. rewrite Halloc. obind. rewrite Hw. obind.
  rewrite option_guard_True by exact Hbs. obind. rewrite Hcd. obind. cbn beta iota.
  rewrite zlen_slice_resize by (apply PAGE_ROUND_UP_nonneg, Z.lt_le_incl, Hpos).
  destruct (get_offset (PAGE_ROUND_UP csize) s) as [off s1] eqn:Hget.
  unfold layout_inv in Hinv.
  destruct (get_offset_inv _ _ _ _ _ Hinv (PAGE_ROUND_UP_pos _ Hpos) Hfit Hget)
    as (Hinv1 & Hcons1 & (Hf & Ho & Hsb & Hfw & Hfr & Hidx & Hbo & Hcb) & Hle).
  assert (Hbound : offset_ s1 <= offset_ s + PAGE_ROUND_UP csize).
  { pose proof (inv_offset _ _ _ Hinv) as Hhi. pose proof (PAGE_ROUND_UP_pos _ Hpos) as Hp.
    apply (get_offset_bound _ _ _ off); [unfold SUPER_BLOCK_SIZE in *; lia|lia|exact Hfit|exact Hget]. }
  destruct (write_data_spec true off (slice_resize (PAGE_ROUND_UP csize) cbuf) s1)
    as (s2 & -> & Hf2 & Hlen2 & Ho2 & Hoff2 & Hsb2 & Hfw2 & Hfr2 & Hidx2 & Hbo2 & Hh2 & Hcb2).
  cbn [negb]. cbn iota.
  assert (Hdisj : Forall (ext_disjoint (off, PAGE_ROUND_UP csize)) (live_extents s ++ inflight)).
  { destruct (inv_used_disjoint _ _ _ Hinv1) as [Hd _]. exact Hd. }
  assert (Hoffok : SUPER_BLOCK_SIZE * 2 <= off).
  { pose proof (inv_used_ok _ _ _ Hinv1) as Hok. inversion Hok as [|? ? (Ha & _) _]; subst.
    exact Ha. }
  rewrite Hsb2, Hsb.
  destruct (index_block_meta (superblock_ s)) as [m|] eqn:Hm.
  - (* the previous index block is given back *)
    destruct (add_hole_inv (meta_offset m) (PAGE_ROUND_UP (meta_compressed_size m)) s2
                (block_extents (block_index_ s) ++ (off, PAGE_ROUND_UP csize) :: inflight))
      as (s3 & -> & Hinv3 & Hcons3 & (Hf3 & Ho3 & Hsb3 & Hfw3 & Hfr3 & Hidx3 & Hbo3 & Hcb3)
          & Hlen3 & Hoff3).
    { rewrite Hoff2, Hh2. eapply alloc_inv_perm; [|exact Hinv1].
      unfold live_extents, index_extents. rewrite Hm. solve_Permutation. }
    obind. eexists _, off, cbuf.
    split; [rewrite Hsb3, Hsb2, Hsb, Hm; obind; reflexivity|]. simpl.
    rewrite ?Hsb3, ?Hsb2, ?Hsb, ?Hf3, ?Hf2, ?Hf, ?Hidx3, ?Hidx2, ?Hidx, ?Ho3, ?Ho2, ?Ho,
      ?Hfw3, ?Hfw2, ?Hfw, ?Hcb3, ?Hcb2, ?Hcb.
    subst crc.
    split; [unfold with_index_meta; rewrite get_index_size_encode; reflexivity|].
    split; [reflexivity|]. split; [exact Htake|]. split; [exact Hsame|].
    split; [exact Hdisj|]. split; [exact Hoffok|]. split; [exact Hpos|].
    unfold layout_inv, space_conserved, live_extents, index_extents, meta_extent. simpl.
    rewrite ?Hidx3, ?Hidx2, ?Hidx.
    split; [eapply alloc_inv_perm; [|exact Hinv3]; solve_Permutation|].
    split; [|repeat split; first [reflexivity|lia]].
    intros H0. eapply alloc_conserved_perm; [|apply Hcons3].
    + solve_Permutation.
    + rewrite Hoff2, Hh2. eapply alloc_conserved_perm; [|apply Hcons1, H0].
      unfold live_extents, index_extents. rewrite Hm. solve_Permutation.
  - obind. cbn [superblock_ set_superblock_ index_block_meta]. obind.
    eexists _, off, cbuf. split; [reflexivity|]. simpl.
    rewrite ?Hsb2, ?Hsb, ?Hf2, ?Hf, ?Hidx2, ?Hidx, ?Ho2, ?Ho, ?Hfw2, ?Hfw, ?Hcb2, ?Hcb,
      ?Hoff2, ?Hh2.
    subst crc.
    split; [unfold with_index_meta; rewrite get_index_size_encode; reflexivity|].
    split; [reflexivity|]. split; [exact Htake|]. split; [exact Hsame|].
    split; [exact Hdisj|]. split; [exact Hoffok|]. split; [exact Hpos|].
    unfold layout_inv, space_conserved, live_extents, index_extents, meta_extent. simpl.
    rewrite ?Hidx2, ?Hidx, ?Hoff2, ?Hh2.
    split.
    { eapply alloc_inv_perm; [|exact Hinv1]. unfold live_extents, index_extents.
      rewrite Hm. solve_Permutation. }
    split; [|repeat split; first [reflexivity|lia]].
    intros H0. eapply alloc_conserved_perm; [|apply Hcons1, H0].
    unfold live_extents, index_extents. rewrite Hm. solve_Permutation.
Qed.

(** A failed [write_data] leaves the layout as it was. *)
Lemma write_data_false (off : Z) (buf : list byte) (s : Layout) :
  write_data false off buf s = (false, s).
Proof.
  unfold write_data. cbn zeta. f_equal. destruct s. unfold set_fly_writes_. simpl.
  f_equal. lia.
Qed.

(** What [flush_index] does when the write of the index block fails: the
    extent it reserved has the page round-up of the compressed size, the
    extent it gives back has the page round-up of the inflated size. *)
Lemma flush_index_failure `{Snappy} (s : Layout) :
  let payload := encode_index (block_index_ s) in
  let csize := compressed_size_of (options_compress s) payload in
  compress_ok (options_compress s) ->
  flush_index false s =
    (let '(off, s1) := get_offset (PAGE_ROUND_UP csize) s in
     s3 ← add_hole off (PAGE_ROUND_UP (zlen payload)) s1; Some (false, s3)).
Proof.
  intros payload csize Hc.
  destruct (flush_index_prepare s Hc)
    as (block & cbuf & Halloc & Hw & Hbs & Himg & Hcd & Htake & Hsame & Hpos).
  fold payload in Hcd, Htake, Hpos. fold csize in Hcd, Htake, Hpos.
  unfold flush_index. rewrite Halloc. obind. rewrite Hw. obind.
  rewrite option_guard_True by exact Hbs. obind. rewrite Hcd. obind. cbn beta iota.
  rewrite zlen_slice_resize by (apply PAGE_ROUND_UP_nonneg, Z.lt_le_incl, Hpos).
  destruct (get_offset (PAGE_ROUND_UP csize) s) as [off s1].
  rewrite write_data_false. cbn [negb]. cbn iota.
  rewrite get_index_size_encode. reflexivity.
Qed.

(** When both sizes round up to the same number of pages, a failed flush of
    the index block gives back exactly what it reserved. *)
Lemma flush_index_failure_inv `{Snappy} (s : Layout) (inflight : list Extent) :
  let payload := encode_index (block_index_ s) in
  let csize := compressed_size_of (options_compress s) payload in
  layout_inv s inflight -> compress_ok (options_compress s) ->
  offset_ s + PAGE_ROUND_UP csize < U64_MOD ->
  PAGE_ROUND_UP (zlen payload) = PAGE_ROUND_UP csize ->
  exists s', flush_index false s = Some (false, s')
    /\ layout_inv s' inflight
    /\ (space_conserved s inflight -> space_conserved s' inflight)
    /\ superblock_ s' = superblock_ s /\ block_index_ s' = block_index_ s
    /\ aio_file_ s' = aio_file_ s /\ options_compress s' = options_compress s
    /\ fly_writes_ s' = fly_writes_ s /\ cb_trace s' = cb_trace s.
Proof.
  intros payload csize Hinv Hc Hfit Heq.
  rewrite (flush_index_failure s Hc). fold payload. fold csize. rewrite Heq.
  assert (Hpos : 0 < csize).
  { apply compressed_size_of_pos; [exact Hc|]. subst payload. unfold zlen.
    rewrite length_encode_index. lia. }
  destruct (get_offset (PAGE_ROUND_UP csize) s) as [off s1] eqn:Hget.
  destruct (get_offset_inv _ _ _ _ _ Hinv (PAGE_ROUND_UP_pos _ Hpos) Hfit Hget)
    as (Hinv1 & Hcons1 & (Hf & Ho & Hsb & Hfw & Hfr & Hidx & Hbo & Hcb) & Hle).
  destruct (add_hole_inv _ _ _ _ Hinv1)
    as (s3 & -> & Hinv3 & Hcons3 & (Hf3 & Ho3 & Hsb3 & Hfw3 & Hfr3 & Hidx3 & Hbo3 & Hcb3) & _).
  obind. exists s3. split; [reflexivity|].
  unfold layout_inv, space_conserved, live_extents, index_extents.
  rewrite Hsb3, Hsb, Hidx3, Hidx, Hf3, Hf, Ho3, Ho, Hfw3, Hfw, Hcb3, Hcb.
  split; [exact Hinv3|]. split; [intros H0; apply Hcons3, Hcons1, H0|].
  repeat split; reflexivity.
Qed.

(** ** Flushing the superblock, truncating, flushing *)

Lemma length_superblock_image (sb : SuperBlock) :
  zlen (superblock_image sb) = SUPER_BLOCK_SIZE.
Proof.
  unfold superblock_image, zlen. pose proof (length_encode_superblock sb).
  rewrite length_app, length_drop, length_zeros.
  change (PAGE_ROUND_UP SUPER_BLOCK_SIZE) with 4096. unfold SUPER_BLOCK_SIZE. lia.
Qed.

Lemma flush_superblock_spec (st1 st2 : bool) (s : Layout) :
  exists s', flush_superblock st1 st2 s = Some (st1 && st2, s')
    /\ aio_file_ s' =
         (if st1 then
            if st2 then aio_write SUPER_BLOCK_SIZE (superblock_image (superblock_ s))
                          (aio_write 0 (superblock_image (superblock_ s)) (aio_file_ s))
            else aio_write 0 (superblock_image (superblock_ s)) (aio_file_ s)
          else aio_file_ s)
    /\ length_ s' = length_ s /\ options_compress s' = options_compress s
    /\ offset_ s' = offset_ s /\ superblock_ s' = superblock_ s
    /\ fly_writes_ s' = fly_writes_ s /\ fly_reads_ s' = fly_reads_ s
    /\ block_index_ s' = block_index_ s
    /\ block_offset_index_ s' = block_offset_index_ s
    /\ hole_list_ s' = hole_list_ s /\ cb_trace s' = cb_trace s.
Proof.
  unfold flush_superblock. rewrite alloc_aligned_buffer_ok by discriminate. obind.
  destruct (write_superblock_view (superblock_ s)
              (mkBlock (zeros (PAGE_ROUND_UP SUPER_BLOCK_SIZE)) 0) []
              (zeros (PAGE_ROUND_UP SUPER_BLOCK_SIZE))) as (block & -> & Hbuf & Hbs).
  { split; reflexivity. }
  { rewrite length_zeros. change (PAGE_ROUND_UP SUPER_BLOCK_SIZE) with 4096. lia. }
  obind. rewrite app_nil_l in Hbuf. fold (superblock_image (superblock_ s)) in Hbuf.
  rewrite Hbuf.
  destruct (write_data_spec st1 0 (superblock_image (superblock_ s)) s)
    as (s1 & -> & Hf1 & Hl1 & Ho1 & Hoff1 & Hsb1 & Hfw1 & Hfr1 & Hi1 & Hbo1 & Hh1 & Hcb1).
  destruct st1; cbn [negb andb]; cbn iota.
  - destruct (write_data_spec st2 SUPER_BLOCK_SIZE (superblock_image (superblock_ s)) s1)
      as (s2 & -> & Hf2 & Hl2 & Ho2 & Hoff2 & Hsb2 & Hfw2 & Hfr2 & Hi2 & Hbo2 & Hh2 & Hcb2).
    exists s2. split; [destruct st2; reflexivity|].
    rewrite Hf2, Hf1, Hl2, Hl1, Ho2, Ho1, Hoff2, Hoff1, Hsb2, Hsb1, Hfw2, Hfw1, Hfr2, Hfr1,
      Hi2, Hi1, Hbo2, Hbo1, Hh2, Hh1, Hcb2, Hcb1.
    destruct st2; repeat split; reflexivity.
  - exists s1. split; [reflexivity|].
    rewrite Hf1, Hl1, Ho1, Hoff1, Hsb1, Hfw1, Hfr1, Hi1, Hbo1, Hh1, Hcb1.
    repeat split; reflexivity.
Qed.

Lemma truncate_spec (s : Layout) :
  aio_file_ (truncate s)
    = (if decide (offset_ s < length_ s) then aio_truncate (offset_ s) (aio_file_ s)
       else aio_file_ s)
  /\ options_compress (truncate s) = options_compress s
  /\ offset_ (truncate s) = offset_ s /\ superblock_ (truncate s) = superblock_ s
  /\ fly_writes_ (truncate s) = fly_writes_ s /\ fly_reads_ (truncate s) = fly_reads_ s
  /\ block_index_ (truncate s) = block_index_ s
  /\ block_offset_index_ (truncate s) = block_offset_index_ s
  /\ hole_list_ (truncate s) = hole_list_ s /\ cb_trace (truncate s) = cb_trace s.
Proof.
  unfold truncate. destruct (decide (offset_ s < length_ s)); simpl; repeat split; reflexivity.
Qed.


(** ** Every step keeps the invariants *)

Lemma complete_async_write_inv (req : AsyncWriteReq) (status : bool) (s : Layout)
    (inflight : list Extent) :
  layout_inv s (req_extent req :: inflight) ->
  exists s', complete_async_write req status s = Some s'
    /\ layout_inv s' inflight
    /\ (space_conserved s (req_extent req :: inflight) -> space_conserved s' inflight)
    /\ block_index_ s' = (if status then <[req_bid req := req_meta req]> (block_index_ s)
                          else block_index_ s)
    /\ superblock_ s' = superblock_ s
    /\ aio_file_ s' = (if status
                       then aio_write (meta_offset (req_meta req)) (req_buffer req) (aio_file_ s)
                       else aio_file_ s)
    /\ options_compress s' = options_compress s
    /\ fly_writes_ s' = fly_writes_ s - 1
    /\ cb_trace s' = (req_cb req, status) :: cb_trace s
    /\ offset_ s' <= offset_ s.
Proof.
  intros Hinv. unfold complete_async_write.
  set (s1 := if status then set_aio_file_ _ s else s).
  assert (Hfr : offset_ s1 = offset_ s /\ hole_list_ s1 = hole_list_ s
                /\ block_index_ s1 = block_index_ s /\ superblock_ s1 = superblock_ s
                /\ options_compress s1 = options_compress s /\ fly_writes_ s1 = fly_writes_ s
                /\ cb_trace s1 = cb_trace s
                /\ aio_file_ s1 = (if status
                     then aio_write (meta_offset (req_meta req)) (req_buffer req) (aio_file_ s)
                     else aio_file_ s)).
  { subst s1. destruct status; simpl; repeat split; reflexivity. }
  destruct Hfr as (H1 & H2 & H3 & H4 & H5 & H6 & H7 & H8).
  destruct (layout_inv_frame s s1 (req_extent req :: inflight) H1 H2 H3 H4) as [Hi Hc].
  destruct (handle_async_write_inv req status s1 inflight (proj1 Hi Hinv))
    as (s' & Hh & Hinv' & Hcons' & Hidx & Hsb & Hf & Ho & Hfw & Hcb & Hlen & Hoff).
  exists s'. split; [exact Hh|]. split; [exact Hinv'|].
  split; [intros H0; apply Hcons', Hc, H0|].
  rewrite Hidx, Hsb, Hf, Ho, Hfw, Hcb, H3, H4, H5, H6, H7, H8.
  repeat split; try reflexivity. lia.
Qed.



(** ** The data file *)

Lemma length_aio_read (off n : Z) (f : AIOFile) : length (aio_read off n f) = Z.to_nat n.
Proof. unfold aio_read. rewrite length_fmap, length_seq. reflexivity. Qed.

Lemma aio_read_ext (off n : Z) (f g : AIOFile) :
  (forall i, off <= i < off + n -> file_data f i = file_data g i) ->
  aio_read off n f = aio_read off n g.
Proof.
  intros Hext. unfold aio_read. apply list_eq. intros k.
  rewrite !list_lookup_fmap. destruct (seq 0 (Z.to_nat n) !! k) as [j|] eqn:Hk; [|reflexivity].
  simpl. f_equal. apply lookup_seq in Hk as [-> Hlt]. apply Hext. lia.
Qed.

(** Reading back what was written. *)
Lemma aio_read_write_same (off : Z) (buf : list byte) (f : AIOFile) :
  aio_read off (zlen buf) (aio_write off buf f) = buf.
Proof.
  unfold aio_read, zlen. rewrite Nat2Z.id. apply list_eq. intros k.
  rewrite list_lookup_fmap. destruct (decide (k < length buf)%nat) as [Hlt|Hge].
  - rewrite lookup_seq_lt by exact Hlt. simpl. unfold zlen.
    destruct (decide (off <= off + Z.of_nat k < off + Z.of_nat (length buf))) as [_|Hc]; [|lia].
    replace (Z.to_nat (off + Z.of_nat k - off)) with k by lia.
    destruct (lookup_lt_is_Some_2 buf k Hlt) as [b Hb]. rewrite Hb. reflexivity.
  - rewrite lookup_seq_ge by lia. rewrite lookup_ge_None_2 by lia. reflexivity.
Qed.

(** A write does not change what lies outside its range. *)
Lemma aio_read_write_other (off n off' : Z) (buf : list byte) (f : AIOFile) :
  off + n <= off' \/ off' + zlen buf <= off ->
  aio_read off n (aio_write off' buf f) = aio_read off n f.
Proof.
  intros Hd. apply aio_read_ext. intros i Hi. simpl.
  destruct (decide (off' <= i < off' + zlen buf)) as [Hc|_]; [lia|reflexivity].
Qed.

(** A truncation does not change what lies below the new length. *)
Lemma aio_read_truncate (off n len : Z) (f : AIOFile) :
  off + n <= len -> aio_read off n (aio_truncate len f) = aio_read off n f.
Proof.
  intros Hd. apply aio_read_ext. intros i Hi. simpl.
  destruct (decide (i < len)) as [_|Hc]; [reflexivity|lia].
Qed.

Lemma aio_read_take (off n k : Z) (f : AIOFile) :
  0 <= k <= n -> take (Z.to_nat k) (aio_read off n f) = aio_read off k f.
Proof.
  intros Hk. unfold aio_read. rewrite <- fmap_take. f_equal.
  rewrite take_seq. f_equal. lia.
Qed.

(** ** Completion of an asynchronous write *)

(** The failure path of the completion handler: [add_hole] returns, and
    the bytes that are free afterwards are those that were free and those of
    the extent of the request. *)
Lemma handle_async_write_frees (req : AsyncWriteReq) (s : Layout) (inflight : list Extent) :
  layout_inv s (req_extent req :: inflight) ->
  exists s2,
    add_hole (meta_offset (req_meta req))
      (PAGE_ROUND_UP (meta_compressed_size (req_meta req)))
      (set_fly_writes_ (fly_writes_ s - 1) s) = Some s2
    /\ block_offset_index_ s2 = block_offset_index_ s
    /\ (forall x, is_free s2 x <-> is_free s x \/ in_extent (req_extent req) x)
    /\ (ext_end (req_extent req) <> offset_ s ->
        offset_ s2 = offset_ s
        /\ forall x, in_extent (req_extent req) x -> in_holes (hole_list_ s2) x)
    /\ (ext_end (req_extent req) = offset_ s ->
        offset_ s2 = meta_offset (req_meta req) /\ hole_list_ s2 = hole_list_ s).
Proof.
  intros Hinv. set (s1 := set_fly_writes_ (fly_writes_ s - 1) s).
  unfold layout_inv, req_extent, meta_extent in Hinv.
  eapply alloc_inv_perm in Hinv; [|symmetry; apply Permutation_middle].
  change (offset_ s) with (offset_ s1) in Hinv.
  change (hole_list_ s) with (hole_list_ s1) in Hinv.
  destruct (add_hole_inv _ _ s1 _ Hinv) as (s2 & Hadd & _).
  pose proof (add_hole_region _ _ s1 s2 _ Hinv Hadd) as Hreg.
  pose proof (inv_used_ok _ _ _ Hinv) as Hok.
  inversion Hok as [|? ? (He1 & He2 & He3) _]; subst.
  unfold ext_end in He3. cbn [fst snd] in He1, He2, He3.
  exists s2. split; [exact Hadd|].
  unfold req_extent, meta_extent, in_extent, ext_end. cbn [fst snd].
  change (offset_ s1) with (offset_ s) in *.
  assert (Hsame : is_free s1 = is_free s) by reflexivity.
  split.
  { unfold add_hole in Hadd. destruct (decide _) in Hadd; [inversion Hadd; reflexivity|].
    destruct (hole_list_add _ _) in Hadd; inversion Hadd; reflexivity. }
  split; [intros x; rewrite <- Hsame; apply Hreg|].
  unfold add_hole in Hadd.
  rewrite add64_small in Hadd by (unfold SUPER_BLOCK_SIZE in *;
    pose proof (inv_offset _ _ _ Hinv); change (offset_ s1) with (offset_ s) in *; lia).
  change (offset_ s1) with (offset_ s) in Hadd.
  split.
  - intros Hne. destruct (decide _) as [Heq|_] in Hadd; [contradiction|].
    assert (Ho : offset_ s2 = offset_ s).
    { destruct (hole_list_add _ _) in Hadd; inversion Hadd; reflexivity. }
    split; [exact Ho|]. intros x Hx.
    destruct (proj2 (Hreg x) (or_intror Hx)) as [Hin|Hge]; [exact Hin|]. lia.
  - intros Heq. destruct (decide _) as [_|Hne] in Hadd; [|contradiction].
    inversion Hadd; subst s2. split; reflexivity.
Qed.



(** ** Loading the superblock *)

(** Whether a superblock copy parses depends on the page alone. *)
Lemma read_superblock_flag (r : BlockReader) (sb sb' : SuperBlock) :
  (read_superblock r sb).1 = (read_superblock r sb').1.
Proof.
  unfold read_superblock.
  destruct (readUInt64 r) as [[v1 r1]|]; [|reflexivity]. cbn zeta.
  destruct (readUInt8 r1) as [[v2 r2]|]; [|reflexivity]. cbn zeta.
  destruct (readUInt8 r2) as [[v3 r3]|]; [|reflexivity]. cbn zeta.
  destruct (readUInt8 r3) as [[v4 r4]|]; [|reflexivity]. cbn zeta.
  destruct (readBool r4) as [[hb r5]|]; [|reflexivity].
  destruct hb.
  - destruct (read_block_meta BlockMeta_new r5) as [[ok m] r6].
    destruct ok; cbn; [|reflexivity].
    destruct (readUInt16 r6) as [[v5 r7]|]; reflexivity.
  - cbn. destruct (readUInt16 r5) as [[v5 r7]|]; reflexivity.
Qed.

Lemma read_data_spec (st : bool) (off : Z) (buffer : list byte) (s : Layout) :
  read_data st off buffer s
  = (st, if st then aio_read off (zlen buffer) (aio_file_ s) else buffer, s).
Proof.
  unfold read_data. cbn zeta. f_equal. destruct s. unfold set_fly_reads_. simpl.
  f_equal. lia.
Qed.

Lemma zlen_superblock_buffer : zlen (zeros (PAGE_ROUND_UP SUPER_BLOCK_SIZE)) = SUPER_BLOCK_SIZE.
Proof. reflexivity. Qed.

Lemma load_2nd_superblock_spec (st : bool) (s : Layout) :
  load_2nd_superblock st s
  = Some (st && copy_valid SUPER_BLOCK_SIZE s,
          if st
          then set_superblock_
                 (read_superblock
                    (mkReader (mkBlock (aio_read SUPER_BLOCK_SIZE SUPER_BLOCK_SIZE (aio_file_ s))
                                 SUPER_BLOCK_SIZE) 0) (superblock_ s)).2 s
          else s).
Proof.
  unfold load_2nd_superblock.
  rewrite alloc_aligned_buffer_ok by discriminate. obind.
  rewrite read_data_spec, zlen_superblock_buffer. destruct st; cbn [negb andb]; cbn iota.
  - unfold copy_valid. destruct (read_superblock _ (superblock_ s)) as [ok sb]. reflexivity.
  - reflexivity.
Qed.

Lemma copy_valid_set_superblock (off : Z) (sb : SuperBlock) (s : Layout) :
  copy_valid off (set_superblock_ sb s) = copy_valid off s.
Proof. unfold copy_valid. simpl. apply read_superblock_flag. Qed.

(** C6.  [load_superblock] reads the copy at offset 0 first and takes it when
    the read succeeds and the page parses; otherwise it falls back to the copy
    at [SUPER_BLOCK_SIZE].  It returns [true] exactly when one of the two
    copies can be read and parsed, and [false] when both fail. *)
Theorem load_superblock_fallback (st1 st2 : bool) (s : Layout) :
  let page off := mkReader (mkBlock (aio_read off SUPER_BLOCK_SIZE (aio_file_ s))
                              SUPER_BLOCK_SIZE) 0 in
  exists s',
    load_superblock st1 st2 s
    = Some ((st1 && copy_valid 0 s) || (st2 && copy_valid SUPER_BLOCK_SIZE s), s')
    /\ (if st1 && copy_valid 0 s
        then s' = set_superblock_ (read_superblock (page 0) (superblock_ s)).2 s
        else if st2
             then exists sb0,
                    s' = set_superblock_ (read_superblock (page SUPER_BLOCK_SIZE) sb0).2 s
             else superblock_ s'
                  = (if st1 then (read_superblock (page 0) (superblock_ s)).2
                     else superblock_ s)).
Proof.
  intros page. unfold load_superblock.
  rewrite alloc_aligned_buffer_ok by discriminate. obind.
  rewrite read_data_spec, zlen_superblock_buffer. destruct st1; cbn [negb andb]; cbn iota.
  - assert (Hv : copy_valid 0 s = (read_superblock (page 0) (superblock_ s)).1) by reflexivity.
    rewrite Hv. fold (page 0).
    destruct (read_superblock (page 0) (superblock_ s)) as [ok sb] eqn:Hparse.
    cbn [fst snd]. destruct ok; cbn [negb orb]; cbn iota.
    + eexists. split; reflexivity.
    + rewrite load_2nd_superblock_spec, copy_valid_set_superblock.
      eexists. split; [reflexivity|]. destruct st2.
      * exists sb. reflexivity.
      * reflexivity.
  - cbn [orb]. rewrite load_2nd_superblock_spec.
    eexists. split; [reflexivity|]. destruct st2.
    + exists (superblock_ s). reflexivity.
    + reflexivity.
Qed.

(** ** Rebuilding the hole list when a layout is opened *)






(** ** Reading the metadata back *)

Lemma Compress_of_Z_of_Compress (c : Compress) :
  c = kNoCompress \/ c = kSnappyCompress ->
  Compress_of_Z (Z_of_Compress c mod 256 ^ Z.of_nat 1) = c.
Proof. intros [->| ->]; reflexivity. Qed.

(** A superblock with an index block reads back as it was written. *)
Lemma read_superblock_view (sb sb0 : SuperBlock) (im : BlockMeta) (r : BlockReader)
    (pre rest : list byte) :
  super_wire_ok sb -> index_block_meta sb = Some im -> meta_wire_ok im ->
  reader_view r pre (encode_superblock sb ++ rest) ->
  read_superblock r sb0 = (true, sb).
Proof.
  intros (Hmag & Hmaj & Hmin & Hcrc & Hcomp) Him Hwire Hv.
  unfold encode_superblock in Hv. rewrite Him in Hv. rewrite <- !app_assoc in Hv.
  unfold read_superblock, readUInt64, readUInt8, readUInt16, readBool.
  destruct (read_uint_view 8 _ _ _ _ Hv) as (r1 & Hr1 & Hv1).
  change (Z.of_nat 8) with 8 in Hr1. rewrite Hr1. cbn zeta.
  destruct (read_uint_view 1 _ _ _ _ Hv1) as (r2 & Hr2 & Hv2).
  change (Z.of_nat 1) with 1 in Hr2 at 1. rewrite Hr2. cbn zeta.
  destruct (read_uint_view 1 _ _ _ _ Hv2) as (r3 & Hr3 & Hv3).
  change (Z.of_nat 1) with 1 in Hr3 at 1. rewrite Hr3. cbn zeta.
  destruct (read_uint_view 1 _ _ _ _ Hv3) as (r4 & Hr4 & Hv4).
  change (Z.of_nat 1) with 1 in Hr4 at 1. rewrite Hr4. cbn zeta.
  destruct (read_uint_view 1 _ _ _ _ Hv4) as (r5 & Hr5 & Hv5).
  change (Z.of_nat 1) with 1 in Hr5 at 1. rewrite Hr5.
  change (negb (1 mod 256 ^ Z.of_nat 1 =? 0)) with true. cbn iota.
  destruct (read_block_meta_view im BlockMeta_new _ _ _ Hwire Hv5) as (r6 & Hr6 & Hv6).
  rewrite Hr6. cbn [negb]. cbn iota.
  destruct (read_uint_view 2 _ _ _ _ Hv6) as (r7 & Hr7 & Hv7).
  change (Z.of_nat 2) with 2 in Hr7 at 1. rewrite Hr7.
  cbn [magic_number major_version minor_version compress index_block_meta sb_crc].
  rewrite (Compress_of_Z_of_Compress _ Hcomp).
  rewrite !Z.mod_small by (unfold U64_MOD in *; simpl; lia).
  destruct sb; simpl in *. subst. reflexivity.
Qed.



(** A block whose data is [data] is read from the start as [data]. *)
Lemma reader_view_start (blk : Block) (data : list byte) :
  blk_data blk = data -> blk_size blk = zlen data ->
  reader_view (mkReader blk 0) [] (data ++ []).
Proof.
  intros Hdata Hsize. unfold reader_view. cbn [rd_block rd_pos].
  rewrite app_nil_l, app_nil_r. split; [|split; [exact Hsize|reflexivity]].
  exists (drop (Z.to_nat (blk_size blk)) (blk_buf blk)).
  rewrite <- Hdata. unfold blk_data. symmetry. apply take_drop.
Qed.

(** [read_index] on a block that holds the payload of an index gives that
    index. *)
Lemma read_index_ok (blk : Block) (s : Layout) (idx : gmap Z BlockMeta) :
  block_index_ s = ∅ ->
  blk_data blk = encode_index idx -> blk_size blk = zlen (encode_index idx) ->
  (forall bid m, idx !! bid = Some m -> entry_wire_ok (bid, m)) ->
  Z.of_nat (size idx) < 4294967296 ->
  read_index (mkReader blk 0) s = Some (true, set_block_index_ idx s).
Proof.
  intros Hempty Hdata Hsize Hwire Hcount. unfold read_index.
  rewrite Hempty, map_size_empty. rewrite option_guard_True by reflexivity. obind.
  pose proof (reader_view_start blk _ Hdata Hsize) as Hv. unfold encode_index in Hv.
  rewrite <- app_assoc in Hv. unfold readUInt32.
  destruct (read_uint_view 4 _ _ _ _ Hv) as (r1 & Hr1 & Hv1).
  change (Z.of_nat 4) with 4 in Hr1 at 1. rewrite Hr1.
  rewrite Z.mod_small by (simpl; lia). rewrite Nat2Z.id, <- (length_map_entries idx).
  erewrite read_index_entries_view; [|
    |exact Hv1].
  - rewrite index_of_entries_map_entries. reflexivity.
  - rewrite Forall_forall. intros [bid m] Hin. apply Hwire.
    apply elem_of_map_to_list. unfold map_entries in Hin.
    rewrite merge_sort_Permutation in Hin. exact Hin.
Qed.

(** ** The offset index of a layout that is opened *)

Global Instance key_le_trans {V} : Transitive (@key_le V).
Proof. unfold key_le. intros x y z Hxy Hyz. lia. Qed.

Global Instance key_le_total {V} : Total (@key_le V).
Proof. unfold key_le. intros x y. lia. Qed.













(** ** Opening a layout on the file of a flushed one *)

Lemma load_superblock_first (sb : SuperBlock) (im : BlockMeta) (s : Layout) (st2 : bool) :
  super_wire_ok sb -> index_block_meta sb = Some im -> meta_wire_ok im ->
  aio_read 0 SUPER_BLOCK_SIZE (aio_file_ s) = superblock_image sb ->
  load_superblock true st2 s = Some (true, set_superblock_ sb s).
Proof.
  intros Hwire Him Hmw Hread. unfold load_superblock.
  rewrite alloc_aligned_buffer_ok by discriminate. obind.
  rewrite read_data_spec, zlen_superblock_buffer. cbn [negb]. cbn iota.
  rewrite Hread.
  rewrite (read_superblock_view sb (superblock_ s) im _ []
             (drop (length (encode_superblock sb)) (zeros (PAGE_ROUND_UP SUPER_BLOCK_SIZE)))
             Hwire Him Hmw).
  - reflexivity.
  - unfold reader_view. cbn [rd_block rd_pos blk_buf blk_size]. rewrite app_nil_l.
    split; [exists []; rewrite app_nil_r; reflexivity|].
    split; [symmetry; apply length_superblock_image|reflexivity].
Qed.


(** ** A flush whose writes all succeed *)

Lemma flush_success `{Snappy} (s : Layout) :
  let payload := encode_index (block_index_ s) in
  let csize := compressed_size_of (options_compress s) payload in
  let crc := match index_block_meta (superblock_ s) with
             | Some m => meta_crc m
             | None => 0
             end in
  layout_inv s [] -> compress_ok (options_compress s) ->
  fly_writes_ s <= 0 ->
  offset_ s + PAGE_ROUND_UP csize < U64_MOD ->
  exists s3 off cbuf,
    flush all_ok_flush s = Some (true, s3)
    /\ superblock_ s3 = with_index_meta (superblock_ s)
                          (Some (mkMeta off (zlen payload) csize crc))
    /\ block_index_ s3 = block_index_ s /\ options_compress s3 = options_compress s
    /\ fly_writes_ s3 = fly_writes_ s
    /\ layout_inv s3 []
    /\ 0 < csize
    /\ Forall (ext_disjoint (off, PAGE_ROUND_UP csize)) (live_extents s)
    /\ take (Z.to_nat csize) cbuf
       = match options_compress s with
         | kSnappyCompress => RawCompress payload
         | _ => payload
         end
    /\ (options_compress s = kNoCompress -> cbuf = index_image (block_index_ s))
    /\ aio_read 0 SUPER_BLOCK_SIZE (aio_file_ s3) = superblock_image (superblock_ s3)
    /\ aio_read off (PAGE_ROUND_UP csize) (aio_file_ s3)
       = slice_resize (PAGE_ROUND_UP csize) cbuf
    /\ (forall e, e ∈ block_extents (block_index_ s) ->
          aio_read e.1 e.2 (aio_file_ s3) = aio_read e.1 e.2 (aio_file_ s))
    /\ SUPER_BLOCK_SIZE * 2 <= file_len (aio_file_ s3)
    /\ offset_ s3 <= offset_ s + PAGE_ROUND_UP csize.
Proof.
  intros payload csize crc Hinv Hc Hfly Hfit. unfold flush, flush_meta, all_ok_flush.
  cbn [io_index io_super1 io_super2].
  rewrite option_guard_True by lia. obind.
  destruct (flush_index_success s [] Hinv Hc Hfit)
    as (s1 & off & cbuf & -> & Hsb1 & Hf1 & Htake & Hsame & Hdisj & Hoff & Hpos & Hinv1
        & _ & Hi1 & Ho1 & Hfw1 & _ & Hbound1).
  fold payload in Hsb1, Htake. fold csize in Hsb1, Hf1, Htake, Hdisj, Hpos. fold crc in Hsb1.
  obind. cbn [negb]. cbn iota.
  destruct (flush_superblock_spec true true s1)
    as (s2 & -> & Hf2 & Hl2 & Ho2 & Hoff2 & Hsb2 & Hfw2 & Hfr2 & Hi2 & Hbo2 & Hh2 & Hcb2).
  obind. cbn [andb negb]. cbn iota.
  destruct (layout_inv_frame s1 s2 [] Hoff2 Hh2 Hi2 Hsb2) as [HiA _].
  destruct (truncate_spec s2) as (Hf3 & Ho3 & Hoff3 & Hsb3 & Hfw3 & _ & Hi3 & _ & Hh3 & _).
  destruct (layout_inv_frame s2 (truncate s2) [] Hoff3 Hh3 Hi3 Hsb3) as [HiB _].
  assert (Hinv3 : layout_inv (truncate s2) []) by (apply HiB, HiA, Hinv1).
  set (ibuf := slice_resize (PAGE_ROUND_UP csize) cbuf) in *.
  set (img := superblock_image (superblock_ s1)) in *.
  assert (Hzi : zlen ibuf = PAGE_ROUND_UP csize).
  { subst ibuf. apply zlen_slice_resize, PAGE_ROUND_UP_nonneg, Z.lt_le_incl, Hpos. }
  assert (Hzimg : zlen img = SUPER_BLOCK_SIZE) by apply length_superblock_image.
  (* reading below the end of the file, past the superblocks *)
  assert (Hread : forall o n, SUPER_BLOCK_SIZE * 2 <= o -> o + n <= offset_ s2 ->
            aio_read o n (aio_file_ (truncate s2))
            = aio_read o n (aio_write off ibuf (aio_file_ s))).
  { intros o n Hlo Hhi. rewrite Hf3, Hf2, Hf1.
    transitivity (aio_read o n (aio_write SUPER_BLOCK_SIZE img
                                  (aio_write 0 img (aio_write off ibuf (aio_file_ s))))).
    - destruct (decide (offset_ s2 < length_ s2)); [|reflexivity].
      apply aio_read_truncate. exact Hhi.
    - rewrite aio_read_write_other by (right; rewrite Hzimg; unfold SUPER_BLOCK_SIZE in *; lia).
      rewrite aio_read_write_other by (right; rewrite Hzimg; unfold SUPER_BLOCK_SIZE in *; lia).
      reflexivity. }
  pose proof (inv_offset _ _ _ Hinv3) as Hrange. rewrite Hoff3 in Hrange.
  pose proof (inv_used_ok _ _ _ Hinv3) as Hok3. rewrite app_nil_r in Hok3.
  assert (Hlive3 : live_extents (truncate s2)
                   = block_extents (block_index_ s) ++ [(off, PAGE_ROUND_UP csize)]).
  { unfold live_extents, index_extents. rewrite Hi3, Hi2, Hi1, Hsb3, Hsb2, Hsb1.
    reflexivity. }
  rewrite Hlive3, Forall_app, Forall_singleton in Hok3. destruct Hok3 as [Hokb Hoki].
  rewrite Hoff3 in Hokb, Hoki.
  exists (truncate s2), off, cbuf. split; [reflexivity|].
  rewrite Hsb3, Hsb2, Hi3, Hi2, Hi1, Ho3, Ho2, Ho1, Hfw3, Hfw2, Hfw1.
  split; [exact Hsb1|]. split; [reflexivity|]. split; [reflexivity|]. split; [reflexivity|].
  split; [exact Hinv3|]. split; [exact Hpos|].
  split; [rewrite app_nil_r in Hdisj; exact Hdisj|].
  split; [exact Htake|]. split; [exact Hsame|].
  split; [|split; [|split; [|split]]].
  - rewrite Hf3, Hf2, Hf1. fold img.
    transitivity (aio_read 0 SUPER_BLOCK_SIZE
                    (aio_write SUPER_BLOCK_SIZE img
                       (aio_write 0 img (aio_write off ibuf (aio_file_ s))))).
    + destruct (decide (offset_ s2 < length_ s2)); [|reflexivity].
      apply aio_read_truncate. unfold SUPER_BLOCK_SIZE in *. lia.
    + rewrite aio_read_write_other by (left; lia).
      rewrite <- Hzimg. apply aio_read_write_same.
  - destruct Hoki as (Hlo & _ & Hhi). unfold ext_end in Hhi. cbn [fst snd] in *.
    rewrite Hread by assumption. rewrite <- Hzi at 1. apply aio_read_write_same.
  - intros e He. rewrite Forall_forall in Hokb, Hdisj.
    destruct (Hokb e He) as (Hlo & _ & Hhi). unfold ext_end in Hhi.
    rewrite Hread by assumption.
    apply aio_read_write_other. rewrite Hzi.
    specialize (Hdisj e ltac:(apply elem_of_app; left; apply elem_of_app; left; exact He)).
    unfold ext_disjoint, ext_end in Hdisj. cbn [fst snd] in Hdisj.
    destruct Hdisj as [Hd|Hd]; [right; exact Hd|left; exact Hd].
  - rewrite Hf3, Hf2, Hf1. destruct (decide (offset_ s2 < length_ s2)).
    + simpl. lia.
    + simpl. rewrite Hzimg. unfold SUPER_BLOCK_SIZE. lia.
  - rewrite Hoff3, Hoff2. exact Hbound1.
Qed.


(** ** Write, flush, reopen, read *)

Lemma zlen_blk_data (b : Block) : block_ok b -> zlen (blk_data b) = blk_size b.
Proof.
  intros [Hsz Hlim]. unfold blk_data, zlen, blk_limit in *. rewrite length_take.
  pose proof (PAGE_ROUND_UP_ge (blk_size b)). unfold zlen in *. lia.
Qed.

Lemma block_extents_elem_of (idx : gmap Z BlockMeta) (bid : Z) (m : BlockMeta) :
  idx !! bid = Some m -> meta_extent m ∈ block_extents idx.
Proof.
  intros Hl. unfold block_extents. apply list_elem_of_fmap. exists (bid, m).
  split; [reflexivity|]. apply elem_of_map_to_list, Hl.
Qed.


(** ** Two flushes in a row *)

(** What [flush_superblock] leaves on disk when both writes succeed: the
    image of the superblock, twice. *)
Lemma flush_superblock_copies (s : Layout) :
  exists s', flush_superblock true true s = Some (true, s')
    /\ aio_read 0 SUPER_BLOCK_SIZE (aio_file_ s') = superblock_image (superblock_ s)
    /\ aio_read SUPER_BLOCK_SIZE SUPER_BLOCK_SIZE (aio_file_ s')
       = superblock_image (superblock_ s)
    /\ SUPER_BLOCK_SIZE * 2 <= file_len (aio_file_ s')
    /\ (forall o n, SUPER_BLOCK_SIZE * 2 <= o ->
          aio_read o n (aio_file_ s') = aio_read o n (aio_file_ s))
    /\ length_ s' = length_ s /\ options_compress s' = options_compress s
    /\ offset_ s' = offset_ s /\ superblock_ s' = superblock_ s
    /\ fly_writes_ s' = fly_writes_ s /\ fly_reads_ s' = fly_reads_ s
    /\ block_index_ s' = block_index_ s
    /\ block_offset_index_ s' = block_offset_index_ s
    /\ hole_list_ s' = hole_list_ s /\ cb_trace s' = cb_trace s.
Proof.
  destruct (flush_superblock_spec true true s) as (s' & Hfl & Hf & Hrest).
  exists s'. split; [exact Hfl|].
  pose proof (length_superblock_image (superblock_ s)) as Hz.
  set (img := superblock_image (superblock_ s)) in *.
  rewrite Hf. split; [|split; [|split; [|split; [|exact Hrest]]]].
  - rewrite aio_read_write_other by (left; lia).
    rewrite <- Hz. apply aio_read_write_same.
  - rewrite <- Hz at 2. apply aio_read_write_same.
  - simpl. rewrite Hz. unfold SUPER_BLOCK_SIZE. lia.
  - intros o n Ho.
    rewrite !aio_read_write_other by (right; rewrite Hz; unfold SUPER_BLOCK_SIZE in *; lia).
    reflexivity.
Qed.

(** The written part of a superblock page. *)
Lemma superblock_image_prefix (sb : SuperBlock) :
  take (length (encode_superblock sb)) (superblock_image sb) = encode_superblock sb.
Proof. unfold superblock_image. rewrite take_app_length. reflexivity. Qed.

(** The free bytes across a [flush_index] whose write succeeds: the extent
    of the new index block is taken from them, and the extent of the
    previous index block, when there is one, joins them. *)
Lemma flush_index_region `{Snappy} (s : Layout) (inflight : list Extent) :
  let payload := encode_index (block_index_ s) in
  let csize := compressed_size_of (options_compress s) payload in
  layout_inv s inflight -> compress_ok (options_compress s) ->
  offset_ s + PAGE_ROUND_UP csize < U64_MOD ->
  exists s' m',
    flush_index true s = Some (true, s')
    /\ index_block_meta (superblock_ s') = Some m'
    /\ meta_compressed_size m' = csize
    /\ forall x, is_free s' x <->
         (is_free s x /\ ~ in_extent (meta_extent m') x)
         \/ match index_block_meta (superblock_ s) with
            | Some m => in_extent (meta_extent m) x
            | None => False
            end.
Proof.
  intros payload csize Hinv Hc Hfit.
  destruct (flush_index_prepare s Hc)
    as (block & cbuf & Halloc & Hw & Hbs & Himg & Hcd & Htake & Hsame & Hpos).
  fold payload in Hcd, Htake, Hpos. fold csize in Hcd, Htake, Hpos.
  unfold flush_index. rewrite Halloc. obind. rewrite Hw. obind.
  rewrite option_guard_True by exact Hbs. obind. rewrite Hcd. obind. cbn beta iota.
  rewrite zlen_slice_resize by (apply PAGE_ROUND_UP_nonneg, Z.lt_le_incl, Hpos).
  destruct (get_offset (PAGE_ROUND_UP csize) s) as [off s1] eqn:Hget.
  unfold layout_inv in Hinv.
  destruct (get_offset_inv _ _ _ _ _ Hinv (PAGE_ROUND_UP_pos _ Hpos) Hfit Hget)
    as (Hinv1 & Hcons1 & (Hf & Ho & Hsb & Hfw & Hfr & Hidx & Hbo & Hcb) & Hle).
  pose proof (get_offset_region _ _ _ _ _ Hinv (PAGE_ROUND_UP_pos _ Hpos) Hfit Hget) as Hreg1.
  destruct (write_data_spec true off (slice_resize (PAGE_ROUND_UP csize) cbuf) s1)
    as (s2 & -> & Hf2 & Hlen2 & Ho2 & Hoff2 & Hsb2 & Hfw2 & Hfr2 & Hidx2 & Hbo2 & Hh2 & Hcb2).
  cbn [negb]. cbn iota.
  assert (Hfree2 : forall x, is_free s2 x <-> is_free s1 x).
  { intros x. unfold is_free. rewrite Hoff2, Hh2. reflexivity. }
  rewrite Hsb2, Hsb.
  destruct (index_block_meta (superblock_ s)) as [m|] eqn:Hm.
  - assert (Hinv2 : alloc_inv (offset_ s2) (hole_list_ s2)
                      ((meta_offset m, PAGE_ROUND_UP (meta_compressed_size m))
                       :: block_extents (block_index_ s)
                          ++ (off, PAGE_ROUND_UP csize) :: inflight)).
    { rewrite Hoff2, Hh2. eapply alloc_inv_perm; [|exact Hinv1].
      unfold live_extents, index_extents. rewrite Hm. solve_Permutation. }
    destruct (add_hole_inv _ _ s2 _ Hinv2) as (s3 & Hadd & _ & _ & (_ & _ & Hsb3 & _) & _).
    pose proof (add_hole_region _ _ s2 s3 _ Hinv2 Hadd) as Hreg3.
    rewrite Hadd. obind. rewrite Hsb3, Hsb2, Hsb, Hm. obind.
    eexists _, _. split; [reflexivity|].
    cbn [superblock_ set_superblock_ index_block_meta].
    split; [reflexivity|]. split; [reflexivity|].
    intros x. unfold meta_extent, in_extent, ext_end.
    cbn [meta_offset meta_compressed_size fst snd].
    change (is_free (set_superblock_ _ (set_block_offset_index_ _ s3)) x) with (is_free s3 x).
    rewrite Hreg3, Hfree2. destruct (Hreg1 x) as [Hiff _]. rewrite Hiff. reflexivity.
  - obind. cbn [superblock_ set_superblock_ index_block_meta]. obind.
    eexists _, _. split; [reflexivity|].
    cbn [superblock_ set_superblock_ set_block_offset_index_ index_block_meta].
    split; [reflexivity|]. split; [reflexivity|].
    intros x. unfold meta_extent, in_extent, ext_end.
    cbn [meta_offset meta_compressed_size fst snd].
    change (is_free (set_superblock_ _ (set_block_offset_index_ _ (set_superblock_ _ s2))) x)
      with (is_free s2 x).
    rewrite Hfree2. destruct (Hreg1 x) as [Hiff _]. rewrite Hiff. tauto.
Qed.

(** The free bytes, the conservation of space and the superblock pages
    across a [flush] whose writes succeed. *)
Lemma flush_region `{Snappy} (s : Layout) :
  let payload := encode_index (block_index_ s) in
  let csize := compressed_size_of (options_compress s) payload in
  layout_inv s [] -> compress_ok (options_compress s) ->
  fly_writes_ s <= 0 ->
  offset_ s + PAGE_ROUND_UP csize < U64_MOD ->
  exists s3 m',
    flush all_ok_flush s = Some (true, s3)
    /\ index_block_meta (superblock_ s3) = Some m'
    /\ (forall x, is_free s3 x <->
          (is_free s x /\ ~ in_extent (meta_extent m') x)
          \/ match index_block_meta (superblock_ s) with
             | Some m => in_extent (meta_extent m) x
             | None => False
             end)
    /\ (space_conserved s [] -> space_conserved s3 [])
    /\ take (length (encode_superblock (superblock_ s3)))
         (aio_read 0 SUPER_BLOCK_SIZE (aio_file_ s3))
       = encode_superblock (superblock_ s3)
    /\ aio_read SUPER_BLOCK_SIZE SUPER_BLOCK_SIZE (aio_file_ s3)
       = aio_read 0 SUPER_BLOCK_SIZE (aio_file_ s3).
Proof.
  intros payload csize Hinv Hc Hfly Hfit. unfold flush, flush_meta, all_ok_flush.
  cbn [io_index io_super1 io_super2].
  rewrite option_guard_True by lia. obind.
  destruct (flush_index_region s [] Hinv Hc Hfit) as (s1 & m' & Hfl & Hm' & _ & Hreg).
  destruct (flush_index_success s [] Hinv Hc Hfit)
    as (s1' & off & cbuf & Hfl' & _ & _ & _ & _ & _ & _ & _ & Hinv1 & Hcons1 & _).
  rewrite Hfl in Hfl'. inversion Hfl'; subst s1'; clear Hfl'.
  rewrite Hfl. obind. cbn [negb]. cbn iota.
  destruct (flush_superblock_copies s1)
    as (s2 & -> & Hr0 & Hr1 & Hlen & _ & Hl2 & Ho2 & Hoff2 & Hsb2 & Hfw2 & Hfr2 & Hi2 & Hbo2
        & Hh2 & Hcb2).
  obind. cbn [andb negb]. cbn iota.
  destruct (layout_inv_frame s1 s2 [] Hoff2 Hh2 Hi2 Hsb2) as [HiA HcA].
  destruct (truncate_spec s2) as (Hf3 & Ho3 & Hoff3 & Hsb3 & Hfw3 & _ & Hi3 & _ & Hh3 & _).
  destruct (layout_inv_frame s2 (truncate s2) [] Hoff3 Hh3 Hi3 Hsb3) as [HiB HcB].
  pose proof (inv_offset _ _ _ Hinv1) as Hrange. rewrite <- Hoff2 in Hrange.
  assert (Hread : forall o, o + SUPER_BLOCK_SIZE <= SUPER_BLOCK_SIZE * 2 ->
            aio_read o SUPER_BLOCK_SIZE (aio_file_ (truncate s2))
            = aio_read o SUPER_BLOCK_SIZE (aio_file_ s2)).
  { intros o Ho. rewrite Hf3. destruct (decide (offset_ s2 < length_ s2)); [|reflexivity].
    apply aio_read_truncate. lia. }
  exists (truncate s2), m'. split; [reflexivity|].
  split; [rewrite Hsb3, Hsb2; exact Hm'|].
  split.
  { intros x. rewrite <- (Hreg x). unfold is_free. rewrite Hoff3, Hh3, Hoff2, Hh2.
    reflexivity. }
  split; [intros H0; apply HcB, HcA, Hcons1, H0|].
  rewrite !Hread by (unfold SUPER_BLOCK_SIZE; lia).
  rewrite Hsb3, Hsb2, Hr0, Hr1.
  split; [apply superblock_image_prefix|reflexivity].
Qed.

(** A byte of an extent in use is not free. *)
Lemma live_not_free (s : Layout) (inflight : list Extent) (e : Extent) (x : Z) :
  layout_inv s inflight -> e ∈ live_extents s ++ inflight -> in_extent e x ->
  ~ is_free s x.
Proof.
  intros Hinv He Hx [Hin|Hge].
  - exact (inv_holes_free _ _ _ Hinv e x He Hx Hin).
  - pose proof (inv_used_ok _ _ _ Hinv) as Hok. rewrite Forall_forall in Hok.
    destruct (Hok e He) as (_ & _ & Hend). unfold in_extent in Hx. lia.
Qed.

(** The record of a superblock with an index block has 32 bytes, and the
    offset of the index block can be read off it. *)
Lemma length_encode_superblock_index (sb : SuperBlock) (m : BlockMeta) :
  length (encode_superblock (with_index_meta sb (Some m))) = 32%nat.
Proof.
  unfold encode_superblock, with_index_meta. cbn [index_block_meta].
  rewrite !length_app, length_encode_meta, !length_le_encode. reflexivity.
Qed.

Lemma encode_superblock_index_offset (sb : SuperBlock) (m1 m2 : BlockMeta) :
  0 <= meta_offset m1 < U64_MOD -> 0 <= meta_offset m2 < U64_MOD ->
  encode_superblock (with_index_meta sb (Some m1))
  = encode_superblock (with_index_meta sb (Some m2)) ->
  meta_offset m1 = meta_offset m2.
Proof.
  intros H1 H2. unfold encode_superblock, with_index_meta.
  cbn [magic_number major_version minor_version compress index_block_meta sb_crc].
  intros Heq. do 4 apply app_inv_head in Heq.
  rewrite <- !app_assoc in Heq. apply app_inv_head in Heq.
  unfold encode_meta in Heq. rewrite <- !app_assoc in Heq.
  apply app_inj_1 in Heq as [Heq _]; [|rewrite !length_le_encode; reflexivity].
  apply (f_equal le_decode) in Heq.
  rewrite !le_decode_encode_small in Heq by (unfold U64_MOD in *; simpl; lia).
  exact Heq.
Qed.

(** C9, as amended.  From a layout that satisfies its invariants, two calls
    of [flush] in a row whose writes succeed leave the block index as it
    was and store the same index block twice: same inflated size, same
    compressed size, same compressed bytes, those of the serialized index.
    The second call stores it in an extent of its own, apart from the extent
    of the first call and at another offset, and then gives the extent of
    the first call back: its bytes, in use after the first call, are free
    after the second, and the free bytes after the second call are those
    that were free after the first, less the new extent, plus the old one.
    After each call the invariants hold, no byte of the data area is lost,
    the first page of the file starts with the record of the superblock of
    the layout, which names the index block of that call, and the second
    page is a copy of the first.  The bytes of the blocks on disk are not
    touched; the first page of the file is not the same after the second
    call as after the first. *)
Theorem flush_twice_same_index_elsewhere `{Snappy} (s : Layout) :
  let csize := compressed_size_of (options_compress s) (encode_index (block_index_ s)) in
  layout_inv s [] -> compress_ok (options_compress s) -> fly_writes_ s <= 0 ->
  offset_ s + 2 * PAGE_ROUND_UP csize < U64_MOD ->
  exists s1 s2 m1 m2,
    flush all_ok_flush s = Some (true, s1)
    /\ flush all_ok_flush s1 = Some (true, s2)
    /\ index_block_meta (superblock_ s1) = Some m1
    /\ index_block_meta (superblock_ s2) = Some m2
    /\ block_index_ s1 = block_index_ s /\ block_index_ s2 = block_index_ s
    /\ meta_inflated_size m2 = meta_inflated_size m1
    /\ meta_compressed_size m1 = csize /\ meta_compressed_size m2 = csize
    /\ ext_disjoint (meta_extent m2) (meta_extent m1)
    /\ meta_offset m2 <> meta_offset m1
    /\ take (Z.to_nat csize)
         (aio_read (meta_offset m2) (PAGE_ROUND_UP csize) (aio_file_ s2))
       = take (Z.to_nat csize)
           (aio_read (meta_offset m1) (PAGE_ROUND_UP csize) (aio_file_ s1))
    /\ (forall e, e ∈ block_extents (block_index_ s) ->
          aio_read e.1 e.2 (aio_file_ s2) = aio_read e.1 e.2 (aio_file_ s1))
    /\ take (Z.to_nat csize)
         (aio_read (meta_offset m1) (PAGE_ROUND_UP csize) (aio_file_ s1))
       = match options_compress s with
         | kSnappyCompress => RawCompress (encode_index (block_index_ s))
         | _ => encode_index (block_index_ s)
         end
    /\ layout_inv s1 [] /\ layout_inv s2 []
    /\ (space_conserved s [] -> space_conserved s1 [] /\ space_conserved s2 [])
    /\ (forall x, in_extent (meta_extent m1) x -> ~ is_free s1 x /\ is_free s2 x)
    /\ (forall x, is_free s2 x <->
          (is_free s1 x /\ ~ in_extent (meta_extent m2) x) \/ in_extent (meta_extent m1) x)
    /\ take (length (encode_superblock (superblock_ s1)))
         (aio_read 0 SUPER_BLOCK_SIZE (aio_file_ s1))
       = encode_superblock (superblock_ s1)
    /\ aio_read SUPER_BLOCK_SIZE SUPER_BLOCK_SIZE (aio_file_ s1)
       = aio_read 0 SUPER_BLOCK_SIZE (aio_file_ s1)
    /\ take (length (encode_superblock (superblock_ s2)))
         (aio_read 0 SUPER_BLOCK_SIZE (aio_file_ s2))
       = encode_superblock (superblock_ s2)
    /\ aio_read SUPER_BLOCK_SIZE SUPER_BLOCK_SIZE (aio_file_ s2)
       = aio_read 0 SUPER_BLOCK_SIZE (aio_file_ s2)
    /\ aio_read 0 SUPER_BLOCK_SIZE (aio_file_ s2)
       <> aio_read 0 SUPER_BLOCK_SIZE (aio_file_ s1).
Proof.
  intros csize Hinv Hc Hfly Hfit.
  assert (Hpos0 : 0 < csize).
  { apply compressed_size_of_pos; [exact Hc|]. unfold zlen. rewrite length_encode_index. lia. }
  pose proof (PAGE_ROUND_UP_pos csize Hpos0) as Hpp0.
  destruct (flush_success s Hinv Hc Hfly) as (s1 & off1 & cbuf1 & Hfl1 & Hsb1 & Hi1 & Ho1
      & Hfw1 & Hinv1 & Hpos & _ & Htake1 & _ & _ & Hread1 & _ & _ & Hbound1).
  { fold csize. lia. }
  fold csize in Hsb1, Hpos, Htake1, Hread1, Hbound1.
  destruct (flush_region s Hinv Hc Hfly) as (s1' & m1' & Hfl1' & Hm1' & _ & Hcons1 & Hpre1 & Hcopy1).
  { fold csize. lia. }
  rewrite Hfl1 in Hfl1'. inversion Hfl1'; subst s1'; clear Hfl1'.
  assert (Hcs1 : compressed_size_of (options_compress s1) (encode_index (block_index_ s1))
                 = csize) by (rewrite Hi1, Ho1; reflexivity).
  destruct (flush_success s1 Hinv1) as (s2 & off2 & cbuf2 & Hfl2 & Hsb2 & Hi2 & Ho2
      & Hfw2 & Hinv2 & _ & Hdisj & Htake2 & _ & _ & Hread2 & Hframe2 & _ & _).
  { rewrite Ho1. exact Hc. }
  { lia. }
  { rewrite Hcs1. lia. }
  destruct (flush_region s1 Hinv1) as (s2' & m2' & Hfl2' & Hm2' & Hreg2 & Hcons2 & Hpre2 & Hcopy2).
  { rewrite Ho1. exact Hc. }
  { lia. }
  { rewrite Hcs1. lia. }
  rewrite Hfl2 in Hfl2'. inversion Hfl2'; subst s2'; clear Hfl2'.
  rewrite Hcs1 in Hsb2, Hdisj, Htake2, Hread2. rewrite Hi1 in Hsb2, Htake2.
  rewrite Ho1 in Htake2. rewrite Hi1 in Hi2, Hframe2.
  set (m1 := mkMeta off1 (zlen (encode_index (block_index_ s))) csize
               match index_block_meta (superblock_ s) with
               | Some m => meta_crc m
               | None => 0
               end) in *.
  assert (Hm1 : index_block_meta (superblock_ s1) = Some m1) by (rewrite Hsb1; reflexivity).
  rewrite Hm1 in Hsb2.
  set (m2 := mkMeta off2 (zlen (encode_index (block_index_ s))) csize (meta_crc m1)) in *.
  assert (Hm2 : index_block_meta (superblock_ s2) = Some m2) by (rewrite Hsb2; reflexivity).
  assert (Hm1e : m1' = m1) by congruence. subst m1'.
  assert (Hm2e : m2' = m2) by congruence. subst m2'.
  rewrite Hm1 in Hreg2.
  assert (Hd : ext_disjoint (meta_extent m2) (meta_extent m1)).
  { rewrite Forall_forall in Hdisj. apply Hdisj. unfold live_extents, index_extents.
    rewrite Hm1. apply elem_of_app. right. left. }
  pose proof (PAGE_ROUND_UP_pos csize Hpos) as Hpp.
  assert (Hne : meta_offset m2 <> meta_offset m1).
  { unfold ext_disjoint, ext_end, meta_extent in Hd.
    cbn [fst snd meta_offset meta_compressed_size m1 m2] in *. lia. }
  assert (Hlive1 : meta_extent m1 ∈ live_extents s1 ++ []).
  { unfold live_extents, index_extents. rewrite Hm1, app_nil_r.
    apply elem_of_app. right. left. }
  assert (Hlive2 : meta_extent m2 ∈ live_extents s2 ++ []).
  { unfold live_extents, index_extents. rewrite Hm2, app_nil_r.
    apply elem_of_app. right. left. }
  assert (Hr1 : 0 <= meta_offset m1 < U64_MOD).
  { pose proof (inv_used_ok _ _ _ Hinv1) as Hok. rewrite Forall_forall in Hok.
    destruct (Hok _ Hlive1) as (Ha & Hb & Hcc). pose proof (inv_offset _ _ _ Hinv1).
    unfold ext_end, meta_extent, SUPER_BLOCK_SIZE in *. cbn [fst snd] in *. lia. }
  assert (Hr2 : 0 <= meta_offset m2 < U64_MOD).
  { pose proof (inv_used_ok _ _ _ Hinv2) as Hok. rewrite Forall_forall in Hok.
    destruct (Hok _ Hlive2) as (Ha & Hb & Hcc). pose proof (inv_offset _ _ _ Hinv2).
    unfold ext_end, meta_extent, SUPER_BLOCK_SIZE in *. cbn [fst snd] in *. lia. }
  assert (Hz : zlen match options_compress s with
                    | kSnappyCompress => RawCompress (encode_index (block_index_ s))
                    | _ => encode_index (block_index_ s)
                    end = csize).
  { subst csize. unfold compressed_size_of.
    destruct Hc as [Hn|[Hs _]]; rewrite Hn || rewrite Hs; reflexivity. }
  assert (Hlen : forall cbuf : list byte,
            zlen (take (Z.to_nat csize) cbuf) = csize -> csize <= zlen cbuf).
  { intros cbuf Hl. unfold zlen in *. rewrite length_take in Hl. lia. }
  pose proof (PAGE_ROUND_UP_ge csize) as Hge.
  assert (Hbytes1 : take (Z.to_nat csize)
                      (aio_read (meta_offset m1) (PAGE_ROUND_UP csize) (aio_file_ s1))
                    = match options_compress s with
                      | kSnappyCompress => RawCompress (encode_index (block_index_ s))
                      | _ => encode_index (block_index_ s)
                      end).
  { cbn [meta_offset m1]. rewrite Hread1.
    rewrite (take_slice_resize csize _ cbuf1); [exact Htake1|lia|].
    apply Hlen. rewrite Htake1. exact Hz. }
  assert (Hbytes2 : take (Z.to_nat csize)
                      (aio_read (meta_offset m2) (PAGE_ROUND_UP csize) (aio_file_ s2))
                    = match options_compress s with
                      | kSnappyCompress => RawCompress (encode_index (block_index_ s))
                      | _ => encode_index (block_index_ s)
                      end).
  { cbn [meta_offset m2]. rewrite Hread2.
    rewrite (take_slice_resize csize _ cbuf2); [exact Htake2|lia|].
    apply Hlen. rewrite Htake2. exact Hz. }
  exists s1, s2, m1, m2.
  split; [exact Hfl1|]. split; [exact Hfl2|]. split; [exact Hm1|].
  split; [exact Hm2|]. split; [exact Hi1|]. split; [exact Hi2|].
  split; [reflexivity|]. split; [reflexivity|]. split; [reflexivity|].
  split; [exact Hd|]. split; [exact Hne|].
  split; [rewrite Hbytes1, Hbytes2; reflexivity|].
  split; [exact Hframe2|]. split; [exact Hbytes1|].
  split; [exact Hinv1|]. split; [exact Hinv2|].
  split; [intros H0; split; [apply Hcons1, H0|apply Hcons2, Hcons1, H0]|].
  split.
  { intros x Hx. split; [exact (live_not_free s1 [] _ x Hinv1 Hlive1 Hx)|].
    apply Hreg2. right. exact Hx. }
  split; [exact Hreg2|].
  split; [exact Hpre1|]. split; [exact Hcopy1|].
  split; [exact Hpre2|]. split; [exact Hcopy2|].
  intros Hsame. rewrite Hsame in Hpre2.
  assert (Hsb1' : superblock_ s1 = with_index_meta (superblock_ s) (Some m1)) by exact Hsb1.
  assert (Hsb2' : superblock_ s2 = with_index_meta (superblock_ s) (Some m2)).
  { rewrite Hsb2, Hsb1'. reflexivity. }
  rewrite Hsb1' in Hpre1. rewrite Hsb2' in Hpre2.
  rewrite length_encode_superblock_index in Hpre1, Hpre2.
  rewrite Hpre1 in Hpre2.
  apply Hne. symmetry. exact (encode_superblock_index_offset _ m1 m2 Hr1 Hr2 Hpre2).
Qed.

(** C9, as stated, fails on a data file that was just created: the first
    [flush] appends the index block to the file, the second appends another
    one after it, and the file is one page longer. *)
Lemma flush_twice_grows_fresh_file :
  ~ @flush_idempotent_at run_length_codec (scenario_created kNoCompress).
Proof.
  intros Hspec.
  pose (len2 := fun r : option (bool * Layout) =>
                  match r with
                  | Some (ok, s1) =>
                      match @flush run_length_codec all_ok_flush s1 with
                      | Some (ok', s2) =>
                          Some (ok, ok', file_len (aio_file_ s1), file_len (aio_file_ s2))
                      | None => None
                      end
                  | None => None
                  end).
  assert (Hrun : len2 (@flush run_length_codec all_ok_flush (scenario_created kNoCompress))
                 = Some (true, true, 12288, 16384)) by (vm_compute; reflexivity).
  unfold len2 in Hrun.
  destruct (@flush run_length_codec all_ok_flush (scenario_created kNoCompress))
    as [[ok s1]|] eqn:Hf1; [|discriminate].
  destruct (@flush run_length_codec all_ok_flush s1) as [[ok' s2]|] eqn:Hf2; [|discriminate].
  inversion Hrun as [[Hok Hok' Hl1 Hl2]]. subst ok ok'.
  destruct (Hspec s1 s2 Hf1 Hf2) as [Hlen _]. lia.
Qed.



(** The layout of a file that was just created satisfies the invariants:
    no block, no hole, and the end of the file right after the superblocks. *)
Lemma scenario_created_inv : layout_inv (scenario_created kNoCompress) [].
Proof.
  unfold layout_inv.
  replace (offset_ (scenario_created kNoCompress)) with 8192 by (vm_compute; reflexivity).
  replace (hole_list_ (scenario_created kNoCompress)) with (@nil Hole)
    by (vm_compute; reflexivity).
  replace (live_extents (scenario_created kNoCompress) ++ []) with (@nil Extent)
    by (vm_compute; reflexivity).
  constructor.
  - unfold SUPER_BLOCK_SIZE, U64_MOD. lia.
  - exact I.
  - constructor.
  - constructor.
  - exact I.
  - intros e x He. inversion He.
Qed.



(** ** The run-length codec satisfies the laws asked of the codec *)







(** ** The write of the index block fails

    When the write of the index block fails, [flush_index] hands to
    [add_hole] the page round-up of the inflated size of the index, and not
    that of its compressed size, which is what [get_offset] reserved.  Under
    compression the two differ as soon as the index has 158 entries.  The
    theorems below evaluate the layout on such a file: 159 blocks written,
    block 100 deleted, then the flush. *)
Section FailedIndexWrite.

#[local] Existing Instance run_length_codec.

(** C8.  On the file of the scenario the index is 4112 bytes long, 2797
    compressed, and [get_offset] reserves for it the page at 417792 that
    block 100 left.  [flush_index], its write failing, returns [false] and
    leaves the index record of the superblock alone; but the hole that it
    adds at 417792 is 8192 bytes long, the page round-up of the inflated
    size, where 4096 bytes were reserved, and space conservation, which held
    before the call, no longer holds after it. *)
Theorem flush_index_failure_releases_inflated_size :
  match scenario_before_flush with
  | Some w =>
      let s := sys_layout w in
      let csize := compressed_size_of (options_compress s) (encode_index (block_index_ s)) in
      get_index_size s = 4112 /\ csize = 2797
      /\ hole_list_ s = [mkHole 417792 4096]
      /\ (get_offset (PAGE_ROUND_UP csize) s).1 = 417792
      /\ space_conserved s []
      /\ match flush_index false s with
         | Some (ok, s') =>
             ok = false
             /\ index_block_meta (superblock_ s') = index_block_meta (superblock_ s)
             /\ offset_ s' = offset_ s
             /\ hole_list_ s' = [mkHole 417792 (PAGE_ROUND_UP 4112)]
             /\ PAGE_ROUND_UP 4112 <> PAGE_ROUND_UP csize
             /\ ~ space_conserved s' []
         | None => False
         end
  | None => False
  end.
Proof.
  vm_compute. repeat split; try reflexivity; intros Heq; discriminate Heq.
Qed.

(** C2.  After the completed operations of the scenario, the last of them a
    [flush] whose index write fails, no write is in flight, the live extents
    add up to 647168 bytes and the holes to 8192, and with the two
    superblocks that is 663552, whereas the end of the file is at 659456. *)
Theorem failed_index_write_breaks_space_conservation :
  match scenario_after_flush with
  | Some w =>
      let s := sys_layout w in
      sys_inflight w = [] /\ fly_writes_ s = 0
      /\ total_size (live_extents s) = 647168
      /\ total_size (hole_extent <$> hole_list_ s) = 8192
      /\ offset_ s = 659456
      /\ ~ (total_size (live_extents s) + total_size (hole_extent <$> hole_list_ s)
            + 2 * SUPER_BLOCK_SIZE = offset_ s)
      /\ ~ space_conserved s []
  | None => False
  end.
Proof.
  vm_compute. repeat split; try reflexivity; intros Heq; discriminate Heq.
Qed.

(** C3.  After the [flush] of the scenario, whose index write fails, the
    hole list holds a hole of 8192 bytes at 417792, while block 101 is live
    at 421888: the page of block 101 lies inside the hole, and the
    invariant of the layout no longer holds. *)
Theorem failed_index_write_hole_overlaps_live_extent :
  match scenario_failed_flush with
  | Some (ok, s) =>
      ok = false
      /\ (exists h m, h ∈ hole_list_ s /\ block_index_ s !! 101 = Some m
            /\ meta_extent m ∈ live_extents s
            /\ hole_offset h < meta_offset m
            /\ ext_end (meta_extent m) <= hole_end h)
      /\ ~ layout_inv s []
  | None => False
  end.
Proof.
  pose (obs := fun r : option (bool * Layout) =>
                 match r with
                 | Some (ok, s) => Some (ok, hole_list_ s, block_index_ s !! 101)
                 | None => None
                 end).
  assert (Hrun : obs scenario_failed_flush
                 = Some (false, [mkHole 417792 8192], Some (mkMeta 421888 1 3 0)))
    by (vm_compute; reflexivity).
  unfold obs in Hrun. clear obs.
  destruct scenario_failed_flush as [[ok s]|]; [|discriminate Hrun].
  inversion Hrun as [[Hok Hholes Hblock]]. clear Hrun.
  assert (Hlive : meta_extent (mkMeta 421888 1 3 0) ∈ live_extents s).
  { unfold live_extents. apply elem_of_app. left.
    apply (block_extents_elem_of _ 101), Hblock. }
  split; [reflexivity|]. split.
  - exists (mkHole 417792 8192), (mkMeta 421888 1 3 0).
    split; [rewrite Hholes; left|]. split; [exact Hblock|]. split; [exact Hlive|].
    vm_compute. split; [reflexivity|]. intros Heq. discriminate Heq.
  - intros Hinv. unfold layout_inv in Hinv. rewrite Hholes in Hinv.
    apply (inv_holes_free _ _ _ Hinv (meta_extent (mkMeta 421888 1 3 0)) 421888).
    + apply elem_of_app. left. exact Hlive.
    + vm_compute. split; [intros Heq; discriminate Heq|reflexivity].
    + left. vm_compute. split; [intros Heq; discriminate Heq|reflexivity].
Qed.

End FailedIndexWrite.

(** ** The theorems at concrete inputs *)
Section Evaluation.

#[local] Existing Instance run_length_codec.

Lemma get_hole_first_fit_witness :
  get_hole 8192 scenario_holes
  = (Some 20480, set_hole_list_ [mkHole 8192 4096; mkHole 28672 4096] scenario_holes)
  /\ get_hole 16384 scenario_holes = (None, scenario_holes).
Proof.
  split.
  - apply (proj1 (get_hole_first_fit 8192 scenario_holes)
             [mkHole 8192 4096] (mkHole 20480 12288) []).
    + reflexivity.
    + repeat constructor.
    + simpl. lia.
    + lia.
    + simpl. lia.
    + unfold hole_end, U64_MOD. simpl. lia.
  - apply (proj2 (get_hole_first_fit 16384 scenario_holes)).
    repeat constructor.
Defined.


Lemma delete_block_absent_noop_witness :
  delete_block 100 (scenario_created kNoCompress) = Some (scenario_created kNoCompress).
Proof.
  apply (delete_block_absent_noop 100 (scenario_created kNoCompress)).
  vm_compute. reflexivity.
Defined.



Lemma flush_twice_same_index_elsewhere_witness :
  exists s1 s2 m1 m2,
    flush all_ok_flush (scenario_created kNoCompress) = Some (true, s1)
    /\ flush all_ok_flush s1 = Some (true, s2)
    /\ index_block_meta (superblock_ s1) = Some m1
    /\ index_block_meta (superblock_ s2) = Some m2
    /\ block_index_ s2 = block_index_ s1
    /\ meta_inflated_size m2 = meta_inflated_size m1
    /\ meta_compressed_size m2 = meta_compressed_size m1
    /\ meta_offset m2 <> meta_offset m1
    /\ layout_inv s1 [] /\ layout_inv s2 []
    /\ (forall x, in_extent (meta_extent m1) x -> ~ is_free s1 x /\ is_free s2 x)
    /\ aio_read 0 SUPER_BLOCK_SIZE (aio_file_ s2)
       <> aio_read 0 SUPER_BLOCK_SIZE (aio_file_ s1).
Proof.
  destruct (flush_twice_same_index_elsewhere (scenario_created kNoCompress))
    as (s1 & s2 & m1 & m2 & H1 & H2 & H3 & H4 & H5 & H6 & H7 & H8 & H9 & _ & H10 & _ & _
        & _ & H11 & H12 & _ & H13 & _ & _ & _ & _ & _ & H14).
  - exact scenario_created_inv.
  - left. vm_compute. reflexivity.
  - vm_compute. intros Heq. discriminate Heq.
  - vm_compute. reflexivity.
  - exists s1, s2, m1, m2.
    split; [exact H1|]. split; [exact H2|]. split; [exact H3|]. split; [exact H4|].
    split; [rewrite H6; symmetry; exact H5|]. split; [exact H7|].
    split; [rewrite H9; symmetry; exact H8|]. split; [exact H10|].
    split; [exact H11|]. split; [exact H12|]. split; [exact H13|exact H14].
Defined.

End Evaluation.

(** * Part III: further properties of the layout *)

(** ** The metadata on the wire *)

Lemma block_view_start (buf : list byte) : block_view (mkBlock buf 0) [] buf.
Proof. split; reflexivity. Qed.

Lemma reader_view_of_block (b : Block) (d rest : list byte) :
  block_view b d rest -> reader_view (mkReader b 0) [] (d ++ []).
Proof.
  intros [Hbuf Hsize]. split; [|split].
  - exists rest. cbn [rd_block]. rewrite Hbuf, app_nil_r. reflexivity.
  - cbn [rd_block]. rewrite Hsize, app_nil_r. reflexivity.
  - reflexivity.
Qed.

(** A superblock without an index block reads back as it was written when
    the record that receives it has no index block either: [read_superblock]
    does not reset the pointer. *)
Lemma read_superblock_view_none (sb sb0 : SuperBlock) (r : BlockReader)
    (pre rest : list byte) :
  super_wire_ok sb -> index_block_meta sb = None ->
  reader_view r pre (encode_superblock sb ++ rest) ->
  read_superblock r sb0
  = (true, with_index_meta sb (index_block_meta sb0)).
Proof.
  intros (Hmag & Hmaj & Hmin & Hcrc & Hcomp) Him Hv.
  unfold encode_superblock in Hv. rewrite Him in Hv. rewrite <- !app_assoc in Hv.
  unfold read_superblock, readUInt64, readUInt8, readUInt16, readBool.
  destruct (read_uint_view 8 _ _ _ _ Hv) as (r1 & Hr1 & Hv1).
  change (Z.of_nat 8) with 8 in Hr1. rewrite Hr1. cbn zeta.
  destruct (read_uint_view 1 _ _ _ _ Hv1) as (r2 & Hr2 & Hv2).
  change (Z.of_nat 1) with 1 in Hr2 at 1. rewrite Hr2. cbn zeta.
  destruct (read_uint_view 1 _ _ _ _ Hv2) as (r3 & Hr3 & Hv3).
  change (Z.of_nat 1) with 1 in Hr3 at 1. rewrite Hr3. cbn zeta.
  destruct (read_uint_view 1 _ _ _ _ Hv3) as (r4 & Hr4 & Hv4).
  change (Z.of_nat 1) with 1 in Hr4 at 1. rewrite Hr4. cbn zeta.
  destruct (read_uint_view 1 _ _ _ _ Hv4) as (r5 & Hr5 & Hv5).
  change (Z.of_nat 1) with 1 in Hr5 at 1. rewrite Hr5.
  change (negb (0 mod 256 ^ Z.of_nat 1 =? 0)) with false. cbn iota. cbn [negb]. cbn iota.
  destruct (read_uint_view 2 _ _ _ _ Hv5) as (r7 & Hr7 & Hv7).
  change (Z.of_nat 2) with 2 in Hr7 at 1. rewrite Hr7.
  cbn [magic_number major_version minor_version compress index_block_meta sb_crc].
  rewrite (Compress_of_Z_of_Compress _ Hcomp).
  rewrite !Z.mod_small by (unfold U64_MOD in *; simpl; lia).
  reflexivity.
Qed.

(** X1.  A block metadata record whose fields fit their fixed-width
    encodings (64-bit offset, 32-bit sizes, 16-bit checksum) is written by
    [write_block_meta] in [BLOCK_META_SIZE] bytes and read back unchanged by
    [read_block_meta], whatever the record that receives it held. *)
Theorem block_meta_round_trip (m m0 : BlockMeta) (buf : list byte) :
  meta_wire_ok m -> (18 <= length buf)%nat ->
  exists b r,
    write_block_meta m (mkBlock buf 0) = Some b
    /\ blk_size b = BLOCK_META_SIZE
    /\ read_block_meta m0 (mkReader b 0) = (true, m, r)
    /\ rd_pos r = BLOCK_META_SIZE.
Proof.
  intros Hwire Hfit.
  destruct (write_block_meta_view m _ [] buf (block_view_start buf) Hfit) as (b & Hw & Hv).
  pose proof (reader_view_of_block _ _ _ Hv) as Hr.
  destruct (read_block_meta_view m m0 _ _ _ Hwire Hr) as (r & Hread & Hv').
  exists b, r. split; [exact Hw|]. split; [|split; [exact Hread|]].
  - destruct Hv as [_ ->]. unfold zlen. rewrite length_app, length_encode_meta. reflexivity.
  - destruct Hv' as (_ & _ & ->). unfold zlen. rewrite !length_app, length_encode_meta.
    reflexivity.
Qed.

(** X2.  A superblock whose header fields fit their encodings, and whose
    index record, when it has one, does too, is written by [write_superblock]
    and read back by [read_superblock] with every field as written.  When the
    superblock written has no index block, the reader leaves the index record
    of the receiving superblock as it was: it reads back unchanged only into
    a superblock that has none. *)
Theorem superblock_round_trip (sb sb0 : SuperBlock) (buf : list byte) :
  super_wire_ok sb ->
  (forall im, index_block_meta sb = Some im -> meta_wire_ok im) ->
  (32 <= length buf)%nat ->
  exists b,
    write_superblock sb (mkBlock buf 0) = Some b
    /\ read_superblock (mkReader b 0) sb0
       = (true, match index_block_meta sb with
                | Some _ => sb
                | None => with_index_meta sb (index_block_meta sb0)
                end).
Proof.
  intros Hsb Him Hfit.
  destruct (write_superblock_view sb _ [] buf (block_view_start buf) Hfit) as (b & Hw & Hv).
  pose proof (reader_view_of_block _ _ _ Hv) as Hr.
  exists b. split; [exact Hw|].
  destruct (index_block_meta sb) as [im|] eqn:Hi.
  - apply (read_superblock_view sb sb0 im _ [] []); auto.
  - apply (read_superblock_view_none sb sb0 _ [] []); auto.
Qed.

Lemma blk_data_of_view (b : Block) (d rest : list byte) :
  block_view b d rest -> blk_data b = d.
Proof.
  intros [Hbuf Hsize]. unfold blk_data. rewrite Hbuf, Hsize. unfold zlen.
  rewrite Nat2Z.id. apply take_app_length.
Qed.

(** X3.  The block index is written by [write_index] in exactly
    [get_index_size()] bytes, so that the assertion of [flush_index] on the
    size of the block holds, and [read_index], on a layout whose index is
    empty, rebuilds from these bytes the index that was written: the same
    block ids with the same records.  The entries must fit their encodings
    and there must be fewer than [2^32] of them. *)
Theorem index_round_trip (s s0 : Layout) (buf : list byte) :
  (forall bid m, block_index_ s !! bid = Some m -> entry_wire_ok (bid, m)) ->
  Z.of_nat (size (block_index_ s)) < 4294967296 ->
  (4 + 26 * size (block_index_ s) <= length buf)%nat ->
  block_index_ s0 = ∅ ->
  exists b,
    write_index s (mkBlock buf 0) = Some b
    /\ blk_size b = get_index_size s
    /\ read_index (mkReader b 0) s0 = Some (true, set_block_index_ (block_index_ s) s0).
Proof.
  intros Hwire Hcount Hfit Hempty.
  destruct (write_index_view s _ [] buf (block_view_start buf) Hfit) as (b & Hw & Hv).
  exists b. split; [exact Hw|].
  pose proof (blk_data_of_view _ _ _ Hv) as Hdata. destruct Hv as [_ Hsize].
  rewrite app_nil_l in Hdata, Hsize.
  split; [rewrite get_index_size_encode; exact Hsize|].
  apply read_index_ok; assumption.
Qed.

(** ** What the superblock reader checks *)

Lemma read_uint_some (n : Z) (r : BlockReader) :
  rd_pos r + n <= blk_size (rd_block r) ->
  exists v, read_uint n r = Some (v, mkReader (rd_block r) (rd_pos r + n)).
Proof.
  intros Hfit. unfold read_uint, read_bytes.
  destruct (decide (rd_pos r + n <= blk_size (rd_block r))); [|contradiction].
  eexists. reflexivity.
Qed.

Lemma read_block_meta_some (m0 : BlockMeta) (r : BlockReader) :
  rd_pos r + 18 <= blk_size (rd_block r) ->
  exists m, read_block_meta m0 r = (true, m, mkReader (rd_block r) (rd_pos r + 18)).
Proof.
  intros Hfit. unfold read_block_meta, readUInt64, readUInt32, readUInt16.
  destruct (read_uint_some 8 r ltac:(lia)) as (v1 & ->). cbn zeta.
  destruct (read_uint_some 4 (mkReader (rd_block r) (rd_pos r + 8))
              ltac:(cbn [rd_pos rd_block]; lia)) as (v2 & ->). cbn zeta.
  cbn [rd_pos rd_block].
  destruct (read_uint_some 4 (mkReader (rd_block r) (rd_pos r + 8 + 4))
              ltac:(cbn [rd_pos rd_block]; lia)) as (v3 & ->). cbn zeta.
  cbn [rd_pos rd_block].
  destruct (read_uint_some 2 (mkReader (rd_block r) (rd_pos r + 8 + 4 + 4))
              ltac:(cbn [rd_pos rd_block]; lia)) as (v4 & ->).
  cbn [rd_pos rd_block]. eexists. do 2 f_equal. lia.
Qed.

(** [read_superblock] succeeds on every block of at least 32 bytes. *)
Lemma read_superblock_total (b : Block) (sb0 : SuperBlock) :
  32 <= blk_size b -> (read_superblock (mkReader b 0) sb0).1 = true.
Proof.
  intros Hsize. unfold read_superblock, readUInt64, readUInt8, readUInt16, readBool.
  destruct (read_uint_some 8 (mkReader b 0) ltac:(cbn [rd_pos rd_block]; lia)) as (v1 & ->).
  cbn zeta. cbn [rd_pos rd_block].
  destruct (read_uint_some 1 (mkReader b (0 + 8)) ltac:(cbn [rd_pos rd_block]; lia))
    as (v2 & ->). cbn zeta. cbn [rd_pos rd_block].
  destruct (read_uint_some 1 (mkReader b (0 + 8 + 1)) ltac:(cbn [rd_pos rd_block]; lia))
    as (v3 & ->). cbn zeta. cbn [rd_pos rd_block].
  destruct (read_uint_some 1 (mkReader b (0 + 8 + 1 + 1)) ltac:(cbn [rd_pos rd_block]; lia))
    as (v4 & ->). cbn zeta. cbn [rd_pos rd_block].
  destruct (read_uint_some 1 (mkReader b (0 + 8 + 1 + 1 + 1))
              ltac:(cbn [rd_pos rd_block]; lia)) as (v5 & ->). cbn [rd_pos rd_block].
  destruct (negb (v5 =? 0)).
  - destruct (read_block_meta_some BlockMeta_new (mkReader b (0 + 8 + 1 + 1 + 1 + 1))
                ltac:(cbn [rd_pos rd_block]; lia)) as (m & ->).
    cbn [negb rd_pos rd_block]. cbn iota.
    destruct (read_uint_some 2 (mkReader b (0 + 8 + 1 + 1 + 1 + 1 + 18))
                ltac:(cbn [rd_pos rd_block]; lia)) as (v6 & ->). reflexivity.
  - cbn [negb]. cbn iota.
    destruct (read_uint_some 2 (mkReader b (0 + 8 + 1 + 1 + 1 + 1))
                ltac:(cbn [rd_pos rd_block]; lia)) as (v6 & ->). reflexivity.
Qed.

Lemma copy_valid_true (off : Z) (s : Layout) : copy_valid off s = true.
Proof.
  unfold copy_valid. apply read_superblock_total. cbn [blk_size].
  unfold SUPER_BLOCK_SIZE. lia.
Qed.

(** The first copy is taken whenever its read succeeds. *)
Lemma load_superblock_total (st1 st2 : bool) (s : Layout) :
  let page off := mkReader (mkBlock (aio_read off SUPER_BLOCK_SIZE (aio_file_ s))
                              SUPER_BLOCK_SIZE) 0 in
  load_superblock st1 st2 s
  = Some (st1 || st2,
          if st1 then set_superblock_ (read_superblock (page 0) (superblock_ s)).2 s
          else if st2
               then set_superblock_ (read_superblock (page SUPER_BLOCK_SIZE) (superblock_ s)).2 s
               else s).
Proof.
  intros page. unfold load_superblock.
  rewrite alloc_aligned_buffer_ok by discriminate. obind.
  rewrite read_data_spec, zlen_superblock_buffer. destruct st1; cbn [negb orb]; cbn iota.
  - fold (page 0).
    assert (Hv : copy_valid 0 s = (read_superblock (page 0) (superblock_ s)).1)
      by reflexivity.
    rewrite copy_valid_true in Hv.
    destruct (read_superblock (page 0) (superblock_ s)) as [ok sb].
    cbn [fst snd] in *. subst ok. reflexivity.
  - rewrite load_2nd_superblock_spec, copy_valid_true, andb_true_r.
    destruct st2; reflexivity.
Qed.

(** X4.  [load_superblock] checks nothing in what it reads: neither the
    magic number, nor the version, nor the checksum.  A superblock page is
    longer than the longest record, so that [read_superblock] cannot run out
    of bytes, and the result is [true] as soon as one of the two reads of
    the file succeeds; the first copy is taken whenever its read succeeds,
    whatever its bytes, and the second copy only when the read of the first
    fails. *)
Theorem load_superblock_accepts_any_page (st1 st2 : bool) (s : Layout) :
  let page off := mkReader (mkBlock (aio_read off SUPER_BLOCK_SIZE (aio_file_ s))
                              SUPER_BLOCK_SIZE) 0 in
  load_superblock st1 st2 s
  = Some (st1 || st2,
          if st1 then set_superblock_ (read_superblock (page 0) (superblock_ s)).2 s
          else if st2
               then set_superblock_ (read_superblock (page SUPER_BLOCK_SIZE) (superblock_ s)).2 s
               else s).
Proof. exact (load_superblock_total st1 st2 s). Qed.

(** ** The allocator *)

(** X5.  [get_offset(size)] hands out space that nobody holds.  On a layout
    that satisfies the allocation invariant, the extent
    [(offset, size)] that it returns lies in the data area, after the two
    superblocks and below the new end of the file, and is disjoint from
    every live extent and from every extent reserved for a write in flight.
    The invariant holds again with this extent counted as reserved, space
    conservation is kept, and nothing but the hole list, the end of the file
    and the cached length changes. *)
Theorem get_offset_reserves_free_space (size : Z) (s : Layout) (inflight : list Extent) :
  layout_inv s inflight -> 0 < size -> offset_ s + size < U64_MOD ->
  exists off s',
    get_offset size s = (off, s')
    /\ extent_ok (offset_ s') (off, size)
    /\ Forall (ext_disjoint (off, size)) (live_extents s ++ inflight)
    /\ layout_inv s' ((off, size) :: inflight)
    /\ (space_conserved s inflight -> space_conserved s' ((off, size) :: inflight))
    /\ same_contents s s'.
Proof.
  intros Hinv Hsize Hfit. destruct (get_offset size s) as [off s'] eqn:Hget.
  destruct (get_offset_inv size s s' off _ Hinv Hsize Hfit Hget)
    as (Hinv' & Hcons' & Hsame & _).
  exists off, s'. split; [reflexivity|].
  pose proof (inv_used_ok _ _ _ Hinv') as Hok. inversion Hok as [|? ? Hok1 _]; subst.
  destruct (inv_used_disjoint _ _ _ Hinv') as [Hdisj _].
  split; [exact Hok1|]. split; [exact Hdisj|].
  unfold layout_inv, space_conserved. rewrite (same_contents_live _ _ Hsame).
  split; [|split; [|exact Hsame]].
  - eapply alloc_inv_perm; [|exact Hinv']. solve_Permutation.
  - intros Hc. eapply alloc_conserved_perm; [|apply Hcons', Hc]. solve_Permutation.
Qed.



(** ** The outcome of a flush *)

(** X8.  [flush] returns [true] exactly when its three writes succeed: the
    index block, the first copy of the superblock and the second.  The second
    copy is not attempted when the first fails.  Whatever the outcome, the
    block index is unchanged and the allocation invariant and space
    conservation are kept; a flush that fails at the index block has touched
    neither the file nor the superblock in memory.  (Under compression, this
    holds for a failed index write when the inflated and the compressed index
    take the same number of pages.) *)
Theorem flush_true_iff_all_writes_succeed `{Snappy} (io : FlushIO) (s : Layout)
    (inflight : list Extent) :
  let payload := encode_index (block_index_ s) in
  let csize := compressed_size_of (options_compress s) payload in
  layout_inv s inflight -> compress_ok (options_compress s) ->
  fly_writes_ s <= 0 ->
  offset_ s + PAGE_ROUND_UP csize < U64_MOD ->
  (io_index io = true \/ PAGE_ROUND_UP (zlen payload) = PAGE_ROUND_UP csize) ->
  exists s',
    flush io s = Some (io_index io && (io_super1 io && io_super2 io), s')
    /\ block_index_ s' = block_index_ s
    /\ layout_inv s' inflight
    /\ (space_conserved s inflight -> space_conserved s' inflight)
    /\ (io_index io = false ->
        superblock_ s' = superblock_ s /\ aio_file_ s' = aio_file_ s).
Proof.
  intros payload csize Hinv Hc Hfly Hfit Hio. unfold flush, flush_meta.
  rewrite option_guard_True by lia. obind.
  destruct (io_index io) eqn:Hst.
  - destruct (flush_index_success s inflight Hinv Hc Hfit)
      as (s1 & off & cbuf & -> & Hsb1 & Hf1 & _ & _ & _ & _ & _ & Hinv1 & Hcons1
          & Hi1 & Ho1 & Hfw1 & Hcb1 & _).
    obind. cbn [negb andb]. cbn iota.
    destruct (flush_superblock_spec (io_super1 io) (io_super2 io) s1)
      as (s2 & -> & Hf2 & Hl2 & Ho2 & Hoff2 & Hsb2 & Hfw2 & Hfr2 & Hi2 & Hbo2 & Hh2 & Hcb2).
    obind.
    destruct (layout_inv_frame s1 s2 inflight Hoff2 Hh2 Hi2 Hsb2) as [HiA HcA].
    destruct (io_super1 io && io_super2 io); cbn [negb]; cbn iota; obind; cbn [negb]; cbn iota.
    + destruct (truncate_spec s2) as (_ & Ho3 & Hoff3 & Hsb3 & Hfw3 & _ & Hi3 & _ & Hh3 & Hcb3).
      destruct (layout_inv_frame s2 (truncate s2) inflight Hoff3 Hh3 Hi3 Hsb3) as [HiB HcB].
      eexists. split; [reflexivity|]. split; [rewrite Hi3, Hi2, Hi1; reflexivity|].
      split; [apply HiB, HiA, Hinv1|]. split; [intros H0; apply HcB, HcA, Hcons1, H0|].
      discriminate.
    + eexists. split; [reflexivity|]. split; [rewrite Hi2, Hi1; reflexivity|].
      split; [apply HiA, Hinv1|]. split; [intros H0; apply HcA, Hcons1, H0|].
      discriminate.
  - destruct Hio as [Hio|Heq]; [discriminate|].
    destruct (flush_index_failure_inv s inflight Hinv Hc Hfit Heq)
      as (s1 & -> & Hinv1 & Hcons1 & Hsb1 & Hi1 & Hf1 & Ho1 & Hfw1 & Hcb1).
    obind. cbn [negb andb]. cbn iota. obind. cbn [negb]. cbn iota.
    eexists. split; [reflexivity|]. split; [exact Hi1|]. split; [exact Hinv1|].
    split; [exact Hcons1|]. intros _. split; assumption.
Qed.

(** ** Creating and opening a data file *)

Lemma with_index_meta_same (sb : SuperBlock) :
  with_index_meta sb (index_block_meta sb) = sb.
Proof. destruct sb. reflexivity. Qed.

(** The superblock that a layout takes from a first copy that holds the
    image of [sb]. *)
Lemma load_superblock_first_gen (sb : SuperBlock) (s : Layout) (st2 : bool) :
  super_wire_ok sb ->
  (forall im, index_block_meta sb = Some im -> meta_wire_ok im) ->
  aio_read 0 SUPER_BLOCK_SIZE (aio_file_ s) = superblock_image sb ->
  load_superblock true st2 s
  = Some (true, set_superblock_
                  match index_block_meta sb with
                  | Some _ => sb
                  | None => with_index_meta sb (index_block_meta (superblock_ s))
                  end s).
Proof.
  intros Hwire Hmw Hread.
  destruct (index_block_meta sb) as [im|] eqn:Him.
  - apply (load_superblock_first sb im); auto.
  - unfold load_superblock.
    rewrite alloc_aligned_buffer_ok by discriminate. obind.
    rewrite read_data_spec, zlen_superblock_buffer. cbn [negb]. cbn iota.
    rewrite Hread.
    rewrite (read_superblock_view_none sb (superblock_ s) _ []
               (drop (length (encode_superblock sb)) (zeros (PAGE_ROUND_UP SUPER_BLOCK_SIZE)))
               Hwire Him).
    + reflexivity.
    + unfold reader_view. cbn [rd_block rd_pos blk_buf blk_size]. rewrite app_nil_l.
      split; [exists []; rewrite app_nil_r; reflexivity|].
      split; [symmetry; apply length_superblock_image|reflexivity].
Qed.

(** What [init(create=true)] does. *)
Lemma init_create_spec `{Snappy} (io : InitIO) (s : Layout) :
  let sb := mkSuper (magic_number (superblock_ s)) (major_version (superblock_ s))
              (minor_version (superblock_ s)) (options_compress s) None
              (sb_crc (superblock_ s)) in
  exists s',
    init true io s = Some (io_sb1 io && io_sb2 io, s')
    /\ superblock_ s' = sb
    /\ block_index_ s' = block_index_ s /\ hole_list_ s' = hole_list_ s
    /\ options_compress s' = options_compress s
    /\ (io_sb1 io = true -> io_sb2 io = true ->
        offset_ s' = SUPER_BLOCK_SIZE * 2 /\ length_ s' = SUPER_BLOCK_SIZE * 2
        /\ aio_read 0 SUPER_BLOCK_SIZE (aio_file_ s') = superblock_image sb
        /\ aio_read SUPER_BLOCK_SIZE SUPER_BLOCK_SIZE (aio_file_ s') = superblock_image sb
        /\ SUPER_BLOCK_SIZE * 2 <= file_len (aio_file_ s'))
    /\ (io_sb1 io = false -> aio_file_ s' = aio_file_ s /\ offset_ s' = offset_ s).
Proof.
  intros sb. unfold init. cbn zeta. fold sb. set (s0 := set_superblock_ sb s).
  destruct (io_sb1 io) eqn:H1; [destruct (io_sb2 io) eqn:H2|].
  - destruct (flush_superblock_copies s0)
      as (s1 & -> & Hr0 & Hr1 & Hlen & _ & Hl & Ho & Hoff & Hsb & _ & _ & Hi & _ & Hh & _).
    obind. cbn [negb andb]. cbn iota.
    unfold truncate. cbn [offset_ length_ set_length_ set_offset_].
    destruct (decide (SUPER_BLOCK_SIZE * 2 < SUPER_BLOCK_SIZE * 2)) as [Hlt|_]; [lia|].
    eexists. split; [reflexivity|]. cbn. rewrite Hsb, Hi, Hh, Ho.
    repeat split; try reflexivity; try assumption; discriminate.
  - destruct (flush_superblock_spec true false s0)
      as (s1 & -> & Hf & Hl & Ho & Hoff & Hsb & _ & _ & Hi & _ & Hh & _).
    obind. cbn [negb andb]. cbn iota.
    eexists. split; [reflexivity|]. rewrite Hsb, Hi, Hh, Ho.
    repeat split; try reflexivity; discriminate.
  - destruct (flush_superblock_spec false (io_sb2 io) s0)
      as (s1 & -> & Hf & Hl & Ho & Hoff & Hsb & _ & _ & Hi & _ & Hh & _).
    obind. cbn [negb andb]. cbn iota.
    eexists. split; [reflexivity|]. rewrite Hsb, Hi, Hh, Ho, Hf, Hoff.
    repeat split; try reflexivity; discriminate.
Qed.

(** X9.  [init(create=true)] writes the superblock twice and returns
    [true] exactly when both writes succeed.  The superblock records the
    configured compression and no index block; the block index and the hole
    list are not touched.  On success the data area starts empty: the end
    of the file and the cached length are at [2 * SUPER_BLOCK_SIZE], the
    first page of the file starts with the bytes that [write_superblock]
    produces for the superblock, and the second page is a copy of the first.
    Nothing is said of the bytes of the page after the record: the code
    leaves them as [posix_memalign] returned them.  When the first write
    fails the file is as it was. *)
Theorem init_create_writes_superblocks `{Snappy} (io : InitIO) (s : Layout) :
  let sb := mkSuper (magic_number (superblock_ s)) (major_version (superblock_ s))
              (minor_version (superblock_ s)) (options_compress s) None
              (sb_crc (superblock_ s)) in
  exists s',
    init true io s = Some (io_sb1 io && io_sb2 io, s')
    /\ superblock_ s' = sb
    /\ block_index_ s' = block_index_ s /\ hole_list_ s' = hole_list_ s
    /\ options_compress s' = options_compress s
    /\ (io_sb1 io = true -> io_sb2 io = true ->
        offset_ s' = SUPER_BLOCK_SIZE * 2 /\ length_ s' = SUPER_BLOCK_SIZE * 2
        /\ take (length (encode_superblock sb)) (aio_read 0 SUPER_BLOCK_SIZE (aio_file_ s'))
           = encode_superblock sb
        /\ aio_read SUPER_BLOCK_SIZE SUPER_BLOCK_SIZE (aio_file_ s')
           = aio_read 0 SUPER_BLOCK_SIZE (aio_file_ s')
        /\ SUPER_BLOCK_SIZE * 2 <= file_len (aio_file_ s'))
    /\ (io_sb1 io = false -> aio_file_ s' = aio_file_ s /\ offset_ s' = offset_ s).
Proof.
  intros sb. destruct (init_create_spec io s) as (s' & Hi & Hsb & Hidx & Hh & Ho & Hok & Hfail).
  fold sb in Hsb, Hok. exists s'.
  split; [exact Hi|]. split; [exact Hsb|]. split; [exact Hidx|]. split; [exact Hh|].
  split; [exact Ho|]. split; [|exact Hfail].
  intros H1 H2. destruct (Hok H1 H2) as (Hoff & Hlen & Hr0 & Hr1 & Hfl).
  split; [exact Hoff|]. split; [exact Hlen|].
  split; [rewrite Hr0; apply superblock_image_prefix|].
  split; [rewrite Hr0, Hr1; reflexivity|exact Hfl].
Qed.

Lemma map_entries_empty {V} : map_entries (∅ : gmap Z V) = [].
Proof. unfold map_entries. rewrite map_to_list_empty. reflexivity. Qed.

(** Opening a layout whose superblock names no index block. *)
Lemma init_open_no_index `{Snappy} (sb sb0 : SuperBlock) (f : AIOFile) (opt : Compress)
    (io : InitIO) :
  super_wire_ok sb -> index_block_meta sb = None -> index_block_meta sb0 = None ->
  SUPER_BLOCK_SIZE * 2 <= file_len f ->
  aio_read 0 SUPER_BLOCK_SIZE f = superblock_image sb ->
  io_sb1 io = true ->
  exists s',
    init false io (Layout_new sb0 f (file_len f) opt)
    = Some (bool_decide (compress sb = opt), s')
    /\ superblock_ s' = sb /\ block_index_ s' = ∅ /\ hole_list_ s' = []
    /\ (compress sb = opt ->
        offset_ s' = SUPER_BLOCK_SIZE * 2
        /\ aio_file_ s' = (if decide (SUPER_BLOCK_SIZE * 2 < file_len f)
                           then aio_truncate (SUPER_BLOCK_SIZE * 2) f else f)).
Proof.
  intros Hwire Him Him0 Hlen Hread Hio.
  set (s4 := Layout_new sb0 f (file_len f) opt).
  unfold init. rewrite Hio.
  destruct (decide (length_ s4 < SUPER_BLOCK_SIZE * 2)) as [Hshort|_];
    [subst s4; simpl in Hshort; lia|].
  assert (Hmw : forall im, index_block_meta sb = Some im -> meta_wire_ok im)
    by (intros im Hx; congruence).
  rewrite (load_superblock_first_gen sb s4 (io_sb2 io) Hwire Hmw Hread).
  rewrite Him. change (index_block_meta (superblock_ s4)) with (index_block_meta sb0).
  rewrite Him0, <- Him, with_index_meta_same. obind. cbn [negb]. cbn iota.
  set (s5 := set_superblock_ sb s4).
  change (compress (superblock_ s5)) with (compress sb).
  change (options_compress s5) with opt.
  destruct (decide (compress sb ≠ opt)) as [Hbad|Hgood].
  - rewrite bool_decide_eq_false_2 by exact Hbad.
    eexists. split; [reflexivity|]. split; [reflexivity|]. split; [reflexivity|].
    split; [reflexivity|]. intros Heq. contradiction.
  - assert (Heq : compress sb = opt) by (destruct (decide (compress sb = opt)); tauto).
    rewrite bool_decide_eq_true_2 by exact Heq.
    change (index_block_meta (superblock_ s5)) with (index_block_meta sb). rewrite Him.
    obind. cbn [negb]. cbn iota.
    unfold init_block_offset_index.
    change (block_index_ s5) with (∅ : gmap Z BlockMeta).
    change (index_block_meta (superblock_ s5)) with (index_block_meta sb). rewrite Him.
    rewrite map_entries_empty. cbn [foldl].
    unfold init_holes. cbn [block_offset_index_ set_block_offset_index_].
    change (block_offset_index_ s5) with (∅ : gmap Z MetaRef).
    rewrite map_entries_empty. cbn [init_holes_loop last]. obind.
    eexists. split; [reflexivity|].
    unfold truncate. cbn [offset_ length_ set_offset_ set_block_offset_index_ s5 s4
                          set_superblock_ Layout_new].
    destruct (decide (SUPER_BLOCK_SIZE * 2 < file_len f)); cbn; repeat split; reflexivity.
Qed.

(** X10.  A data file that was just created opens again.  After
    [init(create=true)] with both writes succeeding, [init(create=false)] on a
    new layout over the same file and with the same compression returns
    [true]; the layout has an empty block index, no hole, the end of the file
    at [2 * SUPER_BLOCK_SIZE] and the superblock that was written, and the
    file is cut to these two pages.  The header fields of the superblock must
    fit their encodings. *)
Theorem create_then_open `{Snappy} (sb sb0 : SuperBlock) (f : AIOFile) (len : Z)
    (opt : Compress) :
  0 <= magic_number sb < U64_MOD -> 0 <= major_version sb < 256 ->
  0 <= minor_version sb < 256 -> 0 <= sb_crc sb < 65536 ->
  opt = kNoCompress \/ opt = kSnappyCompress ->
  index_block_meta sb0 = None ->
  exists s1 s2,
    init true all_ok_init (Layout_new sb f len opt) = Some (true, s1)
    /\ init false all_ok_init
         (Layout_new sb0 (aio_file_ s1) (file_len (aio_file_ s1)) opt) = Some (true, s2)
    /\ superblock_ s2 = superblock_ s1
    /\ block_index_ s2 = ∅ /\ hole_list_ s2 = []
    /\ offset_ s2 = SUPER_BLOCK_SIZE * 2
    /\ file_len (aio_file_ s2) = SUPER_BLOCK_SIZE * 2.
Proof.
  intros Hmag Hmaj Hmin Hcrc Hopt Him0.
  set (sbc := mkSuper (magic_number sb) (major_version sb) (minor_version sb) opt None
                (sb_crc sb)).
  assert (Hwire : super_wire_ok sbc) by (repeat split; try apply Hmag; try apply Hmaj;
    try apply Hmin; try apply Hcrc; exact Hopt).
  destruct (init_create_spec all_ok_init (Layout_new sb f len opt))
    as (s1 & Hcreate & Hsb & _ & _ & _ & Hsucc & _).
  destruct (Hsucc eq_refl eq_refl) as (_ & _ & Hr0 & _ & Hlen).
  change (options_compress (Layout_new sb f len opt)) with opt in Hsb, Hr0.
  change (superblock_ (Layout_new sb f len opt)) with sb in Hsb, Hr0.
  fold sbc in Hsb, Hr0.
  destruct (init_open_no_index sbc sb0 (aio_file_ s1) opt all_ok_init Hwire eq_refl Him0
              Hlen Hr0 eq_refl) as (s2 & Hopen & Hsb2 & Hi2 & Hh2 & Hrest).
  destruct (Hrest eq_refl) as [Hoff2 Hf2].
  exists s1, s2. split; [exact Hcreate|].
  rewrite bool_decide_eq_true_2 in Hopen by reflexivity.
  split; [exact Hopen|]. split; [rewrite Hsb2; symmetry; exact Hsb|].
  split; [exact Hi2|]. split; [exact Hh2|]. split; [exact Hoff2|].
  rewrite Hf2. destruct (decide (SUPER_BLOCK_SIZE * 2 < file_len (aio_file_ s1))); [reflexivity|].
  lia.
Qed.

(** A superblock page that starts with the record of [sb] parses as [sb],
    whatever follows the record; when the record names no index block the
    pointer of the receiving superblock is left as it is. *)
Lemma read_superblock_prefix (sb sb0 : SuperBlock) (page : list byte) :
  super_wire_ok sb ->
  (forall im, index_block_meta sb = Some im -> meta_wire_ok im) ->
  zlen page = SUPER_BLOCK_SIZE ->
  take (length (encode_superblock sb)) page = encode_superblock sb ->
  read_superblock (mkReader (mkBlock page SUPER_BLOCK_SIZE) 0) sb0
  = (true, match index_block_meta sb with
           | Some _ => sb
           | None => with_index_meta sb (index_block_meta sb0)
           end).
Proof.
  intros Hwire Hmw Hlen Hpre.
  assert (Hv : reader_view (mkReader (mkBlock page SUPER_BLOCK_SIZE) 0) []
                 (encode_superblock sb ++ drop (length (encode_superblock sb)) page)).
  { assert (Hpage : encode_superblock sb ++ drop (length (encode_superblock sb)) page = page).
    { set (n := length (encode_superblock sb)) in *. rewrite <- Hpre. apply take_drop. }
    unfold reader_view. cbn [rd_block rd_pos blk_buf blk_size]. rewrite !app_nil_l, Hpage.
    split; [exists []; rewrite app_nil_r; reflexivity|].
    split; [symmetry; exact Hlen|reflexivity]. }
  destruct (index_block_meta sb) as [im|] eqn:Him.
  - exact (read_superblock_view sb sb0 im _ [] _ Hwire Him (Hmw im eq_refl) Hv).
  - exact (read_superblock_view_none sb sb0 _ [] _ Hwire Him Hv).
Qed.

(** X11.  A data file does not open under another compression than the one
    recorded in its superblock.  The copy of the superblock that
    [load_superblock] takes is the first when its read succeeds and the
    second when only the second read succeeds; when that page starts with
    the record of a superblock [sb], with or without an index block and
    whatever bytes follow the record, and the compression of [sb] differs
    from the configured one, [init(create=false)] returns [false] before
    the index block is read: the block index, the hole list, the end of the
    file, the cached length and the file are as they were, and the
    superblock of the layout has taken the compression of [sb]. *)
Theorem init_open_rejects_other_compression `{Snappy} (sb : SuperBlock) (io : InitIO)
    (s : Layout) :
  super_wire_ok sb ->
  (forall im, index_block_meta sb = Some im -> meta_wire_ok im) ->
  SUPER_BLOCK_SIZE * 2 <= length_ s ->
  io_sb1 io = true \/ io_sb2 io = true ->
  take (length (encode_superblock sb))
    (aio_read (if io_sb1 io then 0 else SUPER_BLOCK_SIZE) SUPER_BLOCK_SIZE (aio_file_ s))
  = encode_superblock sb ->
  compress sb <> options_compress s ->
  exists s',
    init false io s = Some (false, s')
    /\ compress (superblock_ s') = compress sb
    /\ block_index_ s' = block_index_ s
    /\ hole_list_ s' = hole_list_ s
    /\ offset_ s' = offset_ s /\ length_ s' = length_ s
    /\ options_compress s' = options_compress s
    /\ aio_file_ s' = aio_file_ s.
Proof.
  intros Hwire Hmw Hlen Hio Hpre Hne.
  unfold init.
  destruct (decide (length_ s < SUPER_BLOCK_SIZE * 2)) as [Hshort|_]; [lia|].
  rewrite load_superblock_total.
  assert (Hor : io_sb1 io || io_sb2 io = true) by (destruct Hio as [-> | ->]; 
    [reflexivity|apply orb_true_r]).
  rewrite Hor. obind. cbn [negb]. cbn iota.
  set (off := if io_sb1 io then 0 else SUPER_BLOCK_SIZE) in *.
  assert (Hpage : read_superblock
                    (mkReader (mkBlock (aio_read off SUPER_BLOCK_SIZE (aio_file_ s))
                                 SUPER_BLOCK_SIZE) 0) (superblock_ s)
                  = (true, match index_block_meta sb with
                           | Some _ => sb
                           | None => with_index_meta sb (index_block_meta (superblock_ s))
                           end)).
  { apply read_superblock_prefix; [exact Hwire|exact Hmw| |exact Hpre].
    unfold zlen. rewrite length_aio_read. unfold SUPER_BLOCK_SIZE. reflexivity. }
  set (sb1 := match index_block_meta sb with
              | Some _ => sb
              | None => with_index_meta sb (index_block_meta (superblock_ s))
              end) in *.
  assert (Hc1 : compress sb1 = compress sb).
  { subst sb1. destruct (index_block_meta sb); reflexivity. }
  set (s1 := if io_sb1 io
             then set_superblock_ (read_superblock _ (superblock_ s)).2 s
             else if io_sb2 io then set_superblock_ (read_superblock _ (superblock_ s)).2 s
                  else s).
  assert (Hs1 : s1 = set_superblock_ sb1 s).
  { subst s1 off. destruct (io_sb1 io).
    - rewrite Hpage. reflexivity.
    - destruct (io_sb2 io); [|discriminate]. rewrite Hpage. reflexivity. }
  clearbody s1. subst s1.
  cbn [superblock_ options_compress set_superblock_].
  rewrite Hc1.
  destruct (decide (compress sb ≠ options_compress s)) as [_|Hgood]; [|contradiction].
  eexists. split; [reflexivity|]. cbn. rewrite Hc1. repeat split.
Qed.

(** X12.  [init(create=false)] gives up before reading anything when the
    cached length is below the two superblock pages, and gives up after the
    two reads when both fail; in both cases it returns [false] and the
    layout is exactly as it was. *)
Theorem init_open_fails_early `{Snappy} (io : InitIO) (s : Layout) :
  length_ s < SUPER_BLOCK_SIZE * 2 \/ (io_sb1 io = false /\ io_sb2 io = false) ->
  init false io s = Some (false, s).
Proof.
  intros Hcase. unfold init.
  destruct (decide (length_ s < SUPER_BLOCK_SIZE * 2)) as [_|Hlong]; [reflexivity|].
  destruct Hcase as [Hshort|[H1 H2]]; [contradiction|].
  rewrite load_superblock_total, H1, H2. reflexivity.
Qed.

(** ** Compression *)


(** ** Reading what was written *)





(** ** Asynchronous reads *)


(** ** Runs of operations *)




(** ** The allocator of a layout that is opened *)












(** X19.  [get_offset] grows the file only when no hole fits.  When the
    hole list has a hole of at least [size] bytes, the offset returned is
    that of the first such hole, and the end of the file and the cached
    length do not move.  When every hole is smaller, the offset returned is
    the old end of the file, the end moves up by [size], the hole list is
    unchanged, and the cached length follows the end when the end passes
    it. *)
Theorem get_offset_reuses_before_growing (size : Z) (s : Layout) :
  (forall pre h post,
      hole_list_ s = pre ++ h :: post ->
      Forall (fun g => hole_size g < size) pre -> size <= hole_size h ->
      (get_offset size s).1 = hole_offset h
      /\ offset_ (get_offset size s).2 = offset_ s
      /\ length_ (get_offset size s).2 = length_ s)
  /\ (Forall (fun g => hole_size g < size) (hole_list_ s) ->
      0 <= offset_ s -> 0 <= size -> offset_ s + size < U64_MOD ->
      (get_offset size s).1 = offset_ s
      /\ offset_ (get_offset size s).2 = offset_ s + size
      /\ hole_list_ (get_offset size s).2 = hole_list_ s
      /\ length_ (get_offset size s).2 = Z.max (length_ s) (offset_ s + size)).
Proof.
  split.
  - intros pre h post Hl Hpre Hh. unfold get_offset, get_hole.
    rewrite Hl, (hole_list_get_first size pre h post Hpre Hh). cbn. tauto.
  - intros Hall Hoff Hsize Hfit. unfold get_offset, get_hole.
    rewrite (hole_list_get_none size _ Hall). cbn zeta.
    cbn [offset_ length_ set_offset_ set_length_].
    rewrite add64_small by lia.
    destruct (decide (offset_ s + size > length_ s)); cbn; repeat split; lia.
Qed.

(** The free bytes across [async_write]: the extent of the request was
    free, and it is what the call takes from the free bytes. *)
Lemma async_write_region `{Snappy} (bid : Z) (block : Block) (cb : Callback) (s s' : Layout)
    (req : AsyncWriteReq) (inflight : list Extent) :
  let csize := compressed_size_of (options_compress s) (blk_data block) in
  layout_inv s inflight -> compress_ok (options_compress s) -> block_ok block ->
  0 < csize -> offset_ s + PAGE_ROUND_UP csize < U64_MOD ->
  async_write bid block cb s = Some (req, s') ->
  forall x, (is_free s' x <-> is_free s x /\ ~ in_extent (req_extent req) x)
            /\ (in_extent (req_extent req) x -> is_free s x).
Proof.
  intros csize Hinv Hc [Hsz Hlim] Hpos Hfit. unfold async_write.
  rewrite option_guard_True by exact Hlim. obind.
  pose proof (PAGE_ROUND_UP_ge (blk_size block)) as Hge.
  destruct (compress_data_ok (options_compress s) (blk_buf block) (blk_size block) Hc)
    as (cbuf & Hcd & _); [unfold blk_limit in *; lia|].
  fold (blk_data block) in Hcd. fold csize in Hcd. rewrite Hcd. obind. cbn beta iota.
  rewrite zlen_slice_resize by (apply PAGE_ROUND_UP_nonneg; lia).
  destruct (get_offset (PAGE_ROUND_UP csize) s) as [off s1] eqn:Hget.
  unfold layout_inv in Hinv.
  pose proof (get_offset_region _ _ _ _ _ Hinv (PAGE_ROUND_UP_pos _ Hpos) Hfit Hget) as Hreg.
  intros Heq x. inversion Heq; subst; clear Heq.
  unfold req_extent, meta_extent, in_extent, ext_end.
  cbn [req_meta meta_offset meta_compressed_size fst snd].
  exact (Hreg x).
Qed.

(** The free bytes across the completion of a write that failed. *)
Lemma failed_write_region (req : AsyncWriteReq) (s s' : Layout) (inflight : list Extent) :
  layout_inv s (req_extent req :: inflight) ->
  complete_async_write req false s = Some s' ->
  forall x, is_free s' x <-> is_free s x \/ in_extent (req_extent req) x.
Proof.
  intros Hinv Hcomp. unfold complete_async_write, handle_async_write in Hcomp.
  cbn zeta in Hcomp.
  destruct (handle_async_write_frees req s inflight Hinv) as (s2 & Hadd & _ & Hreg & _).
  rewrite Hadd in Hcomp. cbn in Hcomp. inversion Hcomp; subst s'. exact Hreg.
Qed.

(** X20.  A write of a block that is not empty leaves, when it fails, no
    trace but its callback.  After [async_write(bid, b)] with [0 < b.size]
    and the completion of the request with failure, the block index, the
    superblock and the file are as they were before the call, so that every
    block reads as before; the callback has run once, with [false]; no write
    is in flight; and the extent that was reserved is free again: the bytes
    that are free are exactly those that were free before the call, and the
    allocation invariant and space conservation hold.  (For the empty block
    the failure path can stop at an assertion of [add_hole].) *)
Theorem failed_write_leaves_layout `{Snappy} (bid : Z) (b : Block) (cb : Callback)
    (s : Layout) :
  layout_inv s [] -> compress_ok (options_compress s) -> block_ok b ->
  0 < blk_size b ->
  offset_ s + PAGE_ROUND_UP (compressed_size_of (options_compress s) (blk_data b)) < U64_MOD ->
  exists req s1 s2,
    async_write bid b cb s = Some (req, s1)
    /\ complete_async_write req false s1 = Some s2
    /\ block_index_ s2 = block_index_ s /\ superblock_ s2 = superblock_ s
    /\ aio_file_ s2 = aio_file_ s /\ options_compress s2 = options_compress s
    /\ fly_writes_ s2 = fly_writes_ s
    /\ cb_trace s2 = (cb, false) :: cb_trace s
    /\ layout_inv s2 []
    /\ (space_conserved s [] -> space_conserved s2 [])
    /\ (forall x, in_extent (req_extent req) x -> is_free s x /\ ~ is_free s1 x)
    /\ (forall x, is_free s2 x <-> is_free s x).
Proof.
  intros Hinv Hc Hb Hsize Hfit.
  assert (Hcpos : 0 < compressed_size_of (options_compress s) (blk_data b)).
  { apply compressed_size_of_pos; [exact Hc|]. rewrite (zlen_blk_data b Hb). exact Hsize. }
  destruct (async_write_inv bid b cb s [] Hinv Hc Hb Hcpos Hfit)
    as (req & s1 & cbuf & X & Hw & Hreq & _ & Hinv1 & Hcons1 & Hi1 & Hsb1 & Hf1 & Ho1 & Hfw1
        & Hcb1 & _).
  destruct (complete_async_write_inv req false s1 [] Hinv1)
    as (s2 & Hcomplete & Hinv2 & Hcons2 & Hi2 & Hsb2 & Hf2 & Ho2 & Hfw2 & Hcb2 & _).
  pose proof (async_write_region bid b cb s s1 req [] Hinv Hc Hb Hcpos Hfit Hw) as Hreg1.
  pose proof (failed_write_region req s1 s2 [] Hinv1 Hcomplete) as Hreg2.
  exists req, s1, s2. split; [exact Hw|]. split; [exact Hcomplete|].
  rewrite Hi2, Hi1, Hsb2, Hsb1, Hf2, Hf1, Ho2, Ho1, Hfw2, Hfw1, Hcb2, Hcb1.
  split; [reflexivity|]. split; [reflexivity|]. split; [reflexivity|]. split; [reflexivity|].
  split; [lia|]. split; [rewrite Hreq; reflexivity|]. split; [exact Hinv2|].
  split; [intros H0; apply Hcons2, Hcons1, H0|].
  split.
  - intros x Hx. destruct (Hreg1 x) as [Hiff Hwas]. split; [exact (Hwas Hx)|].
    intros Hfree. apply Hiff in Hfree. tauto.
  - intros x. rewrite (Hreg2 x). destruct (Hreg1 x) as [Hiff Hwas]. rewrite Hiff.
    unfold in_extent, ext_end in *.
    destruct (decide ((req_extent req).1 <= x < (req_extent req).1 + (req_extent req).2));
      tauto.
Qed.

(** ** The further properties at concrete inputs *)
Section FurtherEvaluation.

#[local] Existing Instance run_length_codec.

Lemma scenario_stored_inv : layout_inv scenario_stored [].
Proof.
  unfold layout_inv.
  replace (offset_ scenario_stored) with 12288 by (vm_compute; reflexivity).
  replace (hole_list_ scenario_stored) with (@nil Hole) by (vm_compute; reflexivity).
  replace (live_extents scenario_stored ++ []) with [(8192, 4096)]
    by (vm_compute; reflexivity).
  apply mkInv.
  - unfold SUPER_BLOCK_SIZE, U64_MOD. lia.
  - exact I.
  - constructor.
  - repeat constructor; unfold ext_end, SUPER_BLOCK_SIZE; simpl; lia.
  - split; [constructor|exact I].
  - intros e x _ _ Hin. inversion Hin.
Qed.

Lemma scenario_stored_index :
  block_index_ scenario_stored = {[7 := mkMeta 8192 3 3 0]}.
Proof. vm_compute. reflexivity. Qed.

Lemma scenario_stored_entries (bid : Z) (m : BlockMeta) :
  block_index_ scenario_stored !! bid = Some m -> entry_wire_ok (bid, m).
Proof.
  rewrite scenario_stored_index. intros Hl. apply lookup_singleton_Some in Hl as [<- <-].
  unfold entry_wire_ok, meta_wire_ok, U64_MOD. simpl. lia.
Qed.


Lemma scenario_superblock_wire_ok : super_wire_ok scenario_superblock.
Proof.
  unfold super_wire_ok, scenario_superblock, SuperBlock_new, U64_MOD. simpl.
  repeat split; try lia. left. reflexivity.
Qed.

Lemma block_meta_round_trip_witness :
  exists b r,
    write_block_meta (mkMeta 8192 3 3 0) (mkBlock (zeros 32) 0) = Some b
    /\ blk_size b = BLOCK_META_SIZE
    /\ read_block_meta BlockMeta_new (mkReader b 0) = (true, mkMeta 8192 3 3 0, r)
    /\ rd_pos r = BLOCK_META_SIZE.
Proof.
  apply (block_meta_round_trip (mkMeta 8192 3 3 0) BlockMeta_new (zeros 32)).
  - unfold meta_wire_ok, U64_MOD. simpl. lia.
  - simpl. lia.
Defined.

Lemma superblock_round_trip_witness :
  exists b,
    write_superblock scenario_superblock (mkBlock (zeros 32) 0) = Some b
    /\ read_superblock (mkReader b 0) (SuperBlock_new 0 0 0)
       = (true, scenario_superblock).
Proof.
  apply (superblock_round_trip scenario_superblock (SuperBlock_new 0 0 0) (zeros 32)).
  - exact scenario_superblock_wire_ok.
  - intros im Him. discriminate Him.
  - simpl. lia.
Defined.

Lemma index_round_trip_witness :
  exists b,
    write_index scenario_stored (mkBlock (zeros 4096) 0) = Some b
    /\ blk_size b = get_index_size scenario_stored
    /\ read_index (mkReader b 0) (scenario_created kNoCompress)
       = Some (true, set_block_index_ (block_index_ scenario_stored)
                       (scenario_created kNoCompress)).
Proof.
  apply (index_round_trip scenario_stored (scenario_created kNoCompress) (zeros 4096)).
  - exact scenario_stored_entries.
  - rewrite scenario_stored_index, map_size_singleton. lia.
  - rewrite scenario_stored_index, map_size_singleton. unfold zeros.
    rewrite length_replicate. lia.
  - vm_compute. reflexivity.
Defined.

Lemma get_offset_reserves_free_space_witness :
  exists off s',
    get_offset 4096 scenario_stored = (off, s')
    /\ extent_ok (offset_ s') (off, 4096)
    /\ Forall (ext_disjoint (off, 4096)) (live_extents scenario_stored ++ [])
    /\ layout_inv s' [(off, 4096)]
    /\ (space_conserved scenario_stored [] -> space_conserved s' [(off, 4096)])
    /\ same_contents scenario_stored s'.
Proof.
  apply (get_offset_reserves_free_space 4096 scenario_stored []).
  - exact scenario_stored_inv.
  - lia.
  - vm_compute. reflexivity.
Defined.



Lemma flush_true_iff_all_writes_succeed_witness :
  exists s',
    flush index_write_fails scenario_stored = Some (false, s')
    /\ block_index_ s' = block_index_ scenario_stored
    /\ layout_inv s' []
    /\ (space_conserved scenario_stored [] -> space_conserved s' [])
    /\ (io_index index_write_fails = false ->
        superblock_ s' = superblock_ scenario_stored
        /\ aio_file_ s' = aio_file_ scenario_stored).
Proof.
  apply (flush_true_iff_all_writes_succeed index_write_fails scenario_stored []).
  - exact scenario_stored_inv.
  - left. vm_compute. reflexivity.
  - vm_compute. intros Heq. discriminate Heq.
  - vm_compute. reflexivity.
  - right. vm_compute. reflexivity.
Defined.

Lemma create_then_open_witness :
  exists s1 s2,
    init true all_ok_init (Layout_new scenario_superblock empty_file 0 kSnappyCompress)
    = Some (true, s1)
    /\ init false all_ok_init
         (Layout_new scenario_superblock (aio_file_ s1) (file_len (aio_file_ s1))
            kSnappyCompress) = Some (true, s2)
    /\ superblock_ s2 = superblock_ s1
    /\ block_index_ s2 = ∅ /\ hole_list_ s2 = []
    /\ offset_ s2 = SUPER_BLOCK_SIZE * 2
    /\ file_len (aio_file_ s2) = SUPER_BLOCK_SIZE * 2.
Proof.
  apply (create_then_open scenario_superblock scenario_superblock empty_file 0
           kSnappyCompress).
  - unfold U64_MOD. simpl. lia.
  - simpl. lia.
  - simpl. lia.
  - simpl. lia.
  - right. reflexivity.
  - reflexivity.
Defined.

Lemma init_open_rejects_other_compression_witness :
  exists s',
    init false all_ok_init
      (Layout_new scenario_superblock (aio_file_ scenario_flushed)
         (file_len (aio_file_ scenario_flushed)) kSnappyCompress)
    = Some (false, s')
    /\ compress (superblock_ s') = kNoCompress
    /\ block_index_ s' = ∅.
Proof.
  assert (Hsb : superblock_ scenario_flushed
                = mkSuper 3405691582 0 1 kNoCompress (Some (mkMeta 12288 30 30 0)) 0)
    by (vm_compute; reflexivity).
  destruct (init_open_rejects_other_compression (superblock_ scenario_flushed)
              all_ok_init
              (Layout_new scenario_superblock (aio_file_ scenario_flushed)
                 (file_len (aio_file_ scenario_flushed)) kSnappyCompress))
    as (s' & Hi & Hc & Hidx & _).
  - rewrite Hsb. unfold super_wire_ok, U64_MOD. simpl.
    repeat split; try lia. left. reflexivity.
  - rewrite Hsb. intros im Him. inversion Him; subst.
    unfold meta_wire_ok, U64_MOD. simpl. lia.
  - vm_compute. intros Heq. discriminate Heq.
  - left. reflexivity.
  - vm_compute. reflexivity.
  - rewrite Hsb. discriminate.
  - exists s'. split; [exact Hi|]. split; [|exact Hidx].
    rewrite Hc, Hsb. reflexivity.
Defined.

Lemma init_open_fails_early_witness :
  init false (mkInitIO false false true) (scenario_created kNoCompress)
  = Some (false, scenario_created kNoCompress).
Proof.
  apply (init_open_fails_early (mkInitIO false false true) (scenario_created kNoCompress)).
  right. split; reflexivity.
Defined.






Lemma get_offset_reuses_before_growing_witness :
  ((get_offset 8192 scenario_holes).1 = 20480
   /\ offset_ (get_offset 8192 scenario_holes).2 = offset_ scenario_holes
   /\ length_ (get_offset 8192 scenario_holes).2 = length_ scenario_holes)
  /\ ((get_offset 16384 scenario_holes).1 = offset_ scenario_holes
      /\ offset_ (get_offset 16384 scenario_holes).2 = offset_ scenario_holes + 16384
      /\ hole_list_ (get_offset 16384 scenario_holes).2 = hole_list_ scenario_holes
      /\ length_ (get_offset 16384 scenario_holes).2
         = Z.max (length_ scenario_holes) (offset_ scenario_holes + 16384)).
Proof.
  split.
  - apply (proj1 (get_offset_reuses_before_growing 8192 scenario_holes)
             [mkHole 8192 4096] (mkHole 20480 12288) []).
    + reflexivity.
    + repeat constructor.
    + simpl. lia.
  - apply (proj2 (get_offset_reuses_before_growing 16384 scenario_holes)).
    + repeat constructor.
    + simpl. lia.
    + lia.
    + unfold U64_MOD. simpl. lia.
Defined.

Lemma failed_write_leaves_layout_witness :
  exists req s1 s2,
    async_write 8 (scenario_block 3 66) 5 scenario_stored = Some (req, s1)
    /\ complete_async_write req false s1 = Some s2
    /\ block_index_ s2 = block_index_ scenario_stored
    /\ superblock_ s2 = superblock_ scenario_stored
    /\ aio_file_ s2 = aio_file_ scenario_stored
    /\ options_compress s2 = options_compress scenario_stored
    /\ fly_writes_ s2 = fly_writes_ scenario_stored
    /\ cb_trace s2 = (5, false) :: cb_trace scenario_stored
    /\ layout_inv s2 []
    /\ (space_conserved scenario_stored [] -> space_conserved s2 [])
    /\ (forall x, in_extent (req_extent req) x ->
          is_free scenario_stored x /\ ~ is_free s1 x)
    /\ (forall x, is_free s2 x <-> is_free scenario_stored x).
Proof.
  apply (failed_write_leaves_layout 8 (scenario_block 3 66) 5 scenario_stored).
  - exact scenario_stored_inv.
  - left. vm_compute. reflexivity.
  - split; vm_compute; [discriminate|reflexivity].
  - simpl. lia.
  - vm_compute. reflexivity.
Defined.

End FurtherEvaluation.
